(** * analyze_landmarks.py: a shallow embedding and its properties

    The development follows [analyze_landmarks.py] function by function.
    Python dictionaries with string keys are [gmap string _]; dictionaries
    whose iteration order is observable (the landmark tables, the merge
    rules, the country table) are association lists; Python floats are the
    binary64 numbers of [PrimFloat]; code that can raise returns [result].
    Shapely, pyproj and the C mathematical library are taken as parameters
    of the sections that use them. *)

From Stdlib Require Import ZArith Lia List Floats Uint63 Permutation Sorted.
From stdpp Require Import gmap strings pretty list fin_maps sorting.

Set Warnings "-inexact-float,-clear-no-such-hyp".

Open Scope string_scope.
Open Scope list_scope.

(** Closes an equation between closed terms by evaluating its left side. *)
Ltac vm_refl :=
  lazymatch goal with |- _ = ?b => vm_cast_no_check (@eq_refl _ b) end.

(** ** Python values and exceptions *)

Module Py.

(** [ipaddress.ip_address] yields an [IPv4Address] or an [IPv6Address];
    each wraps the integer value of the address. *)
Inductive IpAddress :=
  | IPv4Address (ip : N)
  | IPv6Address (ip : N).

#[export] Instance IpAddress_eq_dec : EqDecision IpAddress.
Proof. solve_decision. Defined.

Definition version (a : IpAddress) : nat :=
  match a with IPv4Address _ => 4 | IPv6Address _ => 6 end.

Definition ip_int (a : IpAddress) : N :=
  match a with IPv4Address n | IPv6Address n => n end.

(** Python numbers: [int] is unbounded, [float] is binary64. *)
Inductive number :=
  | NInt (z : Z)
  | NFloat (f : float).

(** The values a landmark record holds. *)
Inductive pyval :=
  | PNone
  | PStr (s : string)
  | PNum (n : number)
  | PAddr (a : IpAddress).

Definition is_None (v : pyval) : bool :=
  match v with PNone => true | _ => false end.

Lemma PNone_cases (v : pyval) : {v = PNone} + {v <> PNone}.
Proof. destruct v; [by left | by right..]. Qed.

Inductive exit_status :=
  | ExitCode (n : Z)
  | ExitMsg (msg : string).

Inductive exn :=
  | KeyError (key : string)
  | IndexError
  | TypeError (what : string)
  | ValueError (what : string)
  | OverflowError
  | ZeroDivisionError
  | AssertionError
  | UnboundLocalError (name : string)
  | FileExistsError (path : string)
  | OSError (what : string)
  | CRSError (what : string)
  | SystemExit (st : exit_status).

Inductive result (A : Type) :=
  | Ok (a : A)
  | Raise (e : exn).
Arguments Ok {A} a.
Arguments Raise {A} e.

#[export] Instance result_ret : MRet result := @Ok.
#[export] Instance result_bind : MBind result :=
  fun A B f r => match r with Ok a => f a | Raise e => Raise e end.

Definition is_Ok {A} (r : result A) : Prop := exists a, r = Ok a.

Lemma bind_Ok {A B} (r : result A) (f : A -> result B) (b : B) :
  r ≫= f = Ok b -> exists a, r = Ok a /\ f a = Ok b.
Proof. destruct r as [a|e]; simpl; [eauto | discriminate]. Qed.

Lemma is_Ok_Ok {A} (a : A) : is_Ok (Ok a).
Proof. by exists a. Qed.

(** [d[k]] on a dictionary with string keys. *)
Definition getitem {V} (d : gmap string V) (k : string) : result V :=
  match d !! k with
  | Some v => Ok v
  | None => Raise (KeyError k)
  end.

(** [d.get(k)] on a record: a missing key reads as [None]. *)
Definition get_or_None (d : gmap string pyval) (k : string) : pyval :=
  default PNone (d !! k).

(** *** Floats *)

(** [float(n)] for an [int]: the nearest binary64, ties to even.  Below
    [2^62] the primitive conversion is used directly; above, the top 62
    bits and a sticky bit are converted and rescaled, which rounds once. *)
Definition float_of_nonneg (a : Z) : float :=
  if (a <? 2 ^ 62)%Z then PrimFloat.of_uint63 (Uint63.of_Z a)
  else
    let k := (Z.log2 a - 61)%Z in
    let hi := Z.shiftr a k in
    let sticky := if (Z.land a (Z.ones k) =? 0)%Z then 0%Z else 1%Z in
    Z.ldexp (PrimFloat.of_uint63 (Uint63.of_Z (2 * hi + sticky))) (k - 1).

Definition float_of_Z (n : Z) : float :=
  if (n <? 0)%Z then (- float_of_nonneg (Z.abs n))%float
  else float_of_nonneg n.

(** "int too large to convert to float". *)
Definition int_to_float (n : Z) : result float :=
  let f := float_of_Z n in
  if PrimFloat.is_infinity f then Raise OverflowError else Ok f.

Definition to_float (n : number) : result float :=
  match n with
  | NInt z => int_to_float z
  | NFloat f => Ok f
  end.

(** The integer nearest to a finite binary64, ties to even, and the
    integer part towards zero, on the decoded number [±m·2^e]. *)
Definition nearest_even (m : positive) (e : Z) : Z :=
  if (0 <=? e)%Z then Z.pos m * 2 ^ e
  else
    let k := (2 ^ (- e))%Z in
    let q := (Z.pos m / k)%Z in
    let r := (Z.pos m mod k)%Z in
    match (2 * r ?= k)%Z with
    | Lt => q
    | Gt => (q + 1)%Z
    | Eq => if Z.even q then q else (q + 1)%Z
    end.

Definition towards_zero (m : positive) (e : Z) : Z :=
  if (0 <=? e)%Z then Z.pos m * 2 ^ e else (Z.pos m / 2 ^ (- e))%Z.

Definition signed (s : bool) (a : Z) : Z := if s then (- a)%Z else a.

(** [round(x)] with one argument: an [int]. *)
Definition round_SF (x : spec_float) : result Z :=
  match x with
  | S754_zero _ => Ok 0%Z
  | S754_nan => Raise (ValueError "cannot convert float NaN to integer")
  | S754_infinity _ => Raise OverflowError
  | S754_finite s m e => Ok (signed s (nearest_even m e))
  end.

Definition py_round (x : float) : result Z := round_SF (Prim2SF x).

(** [int(x)]. *)
Definition int_SF (x : spec_float) : result Z :=
  match x with
  | S754_zero _ => Ok 0%Z
  | S754_nan => Raise (ValueError "cannot convert float NaN to integer")
  | S754_infinity _ => Raise OverflowError
  | S754_finite s m e => Ok (signed s (towards_zero m e))
  end.

Definition py_int (n : number) : result Z :=
  match n with
  | NInt z => Ok z
  | NFloat f => int_SF (Prim2SF f)
  end.

(** [z == x] between an [int] and a number compares exact values. *)
Definition int_eq_SF (z : Z) (x : spec_float) : bool :=
  match x with
  | S754_zero _ => (z =? 0)%Z
  | S754_finite s m e =>
      if (0 <=? e)%Z then (z =? signed s (Z.pos m * 2 ^ e))%Z
      else ((Z.pos m mod 2 ^ (- e) =? 0) && (z =? signed s (Z.pos m / 2 ^ (- e))))%Z
  | _ => false
  end.

Definition int_eq (z : Z) (n : number) : bool :=
  match n with
  | NInt z' => (z =? z')%Z
  | NFloat f => int_eq_SF z (Prim2SF f)
  end.

(** [x / y] with a float on the left. *)
Definition truediv (x : float) (y : number) : result float :=
  yf ← to_float y;
  if (yf =? 0)%float then Raise ZeroDivisionError else Ok (x / yf)%float.

(** [n * y] with an [int] on the left. *)
Definition int_mul (n : Z) (y : number) : result number :=
  match y with
  | NInt z => Ok (NInt (n * z))
  | NFloat f => nf ← int_to_float n; Ok (NFloat (nf * f)%float)
  end.

(** [-x]. *)
Definition neg (n : number) : number :=
  match n with
  | NInt z => NInt (- z)
  | NFloat f => NFloat (- f)%float
  end.

(** [x * y] where [x] is read from a record and [y] is a float. *)
Definition mul_float (v : pyval) (y : float) : result float :=
  match v with
  | PNum n => xf ← to_float n; Ok (xf * y)%float
  | _ => Raise (TypeError "unsupported operand for *")
  end.

(** The wrapper around a one-argument C function in the [math] module:
    a NaN produced from a number, or an infinity produced from a finite
    number, is a [ValueError]. *)
Definition math_1 (func : float -> float) (x : float) : result float :=
  let r := func x in
  if PrimFloat.is_nan r && negb (PrimFloat.is_nan x)
  then Raise (ValueError "math domain error")
  else if PrimFloat.is_infinity r && PrimFloat.is_finite x
  then Raise (ValueError "math domain error")
  else Ok r.

(** [str] values order by code point, which on UTF-8 bytes is the
    lexicographic order of the bytes. *)
Definition str_le (a b : string) : bool := String.leb a b.

Fixpoint insert_sorted (x : string) (l : list string) : list string :=
  match l with
  | [] => [x]
  | y :: l' => if str_le x y then x :: l else y :: insert_sorted x l'
  end.

(** [sorted(xs)] on strings. *)
Definition sorted (l : list string) : list string :=
  foldr insert_sorted [] l.

(** [sep.join(xs)]. *)
Fixpoint join (sep : string) (l : list string) : string :=
  match l with
  | [] => ""
  | [x] => x
  | x :: l' => x +:+ sep +:+ join sep l'
  end.

End Py.
Export Py.

(** ** Signs of binary64 operations

    The operations of [PrimFloat] are specified on [spec_float]; the
    lemmas below read the sign of a product, a quotient and an integer
    conversion off that specification. *)

Module FloatFacts.

Local Open Scope Z_scope.

(** [x] is a NaN or carries the sign bit [s]. *)
Definition has_sign (s : bool) (x : spec_float) : Prop :=
  match x with
  | S754_nan => True
  | S754_zero s' | S754_infinity s' | S754_finite s' _ _ => s' = s
  end.

Definition sign_of (x : spec_float) : bool :=
  match x with
  | S754_nan => false
  | S754_zero s | S754_infinity s | S754_finite s _ _ => s
  end.

(** Not below zero: an [int] at least 0, a float that does not compare
    less than 0. *)
Definition number_nonneg (v : number) : Prop :=
  match v with
  | NInt z => 0 <= z
  | NFloat f => (f <? 0)%float = false
  end.

Definition number_nonpos (v : number) : Prop :=
  match v with
  | NInt z => z <= 0
  | NFloat f => (0 <? f)%float = false
  end.

(** [n] is an integer nearest to the finite float [x], the even one of
    the two when [x] lies half way. *)
Definition nearest_integer (x : spec_float) (n : Z) : Prop :=
  match x with
  | S754_zero _ => n = 0
  | S754_finite s m e =>
      exists a, n = signed s a /\
        if 0 <=? e then a = Z.pos m * 2 ^ e
        else 2 * Z.abs (a * 2 ^ (- e) - Z.pos m) <= 2 ^ (- e) /\
             (2 * Z.abs (a * 2 ^ (- e) - Z.pos m) = 2 ^ (- e) -> Z.even a = true)
  | _ => False
  end.

Lemma binary_round_aux_sign s m e l :
  has_sign s (binary_round_aux prec emax s m e l).
Proof.
  unfold binary_round_aux.
  destruct (shr_fexp prec emax m e l) as [mrs' e'].
  destruct (shr_fexp prec emax _ e' loc_Exact) as [mrs'' e''].
  destruct (shr_m mrs''); simpl; [done| |done].
  destruct (e'' <=? emax - prec); done.
Qed.

Lemma binary_round_sign s m e : has_sign s (binary_round prec emax s m e).
Proof.
  unfold binary_round. destruct (shl_align _ _ _) as [mz ez].
  apply binary_round_aux_sign.
Qed.

Lemma SFmul_sign x y :
  has_sign (xorb (sign_of x) (sign_of y)) (SFmul prec emax x y).
Proof.
  destruct x as [sx|sx| |sx mx ex], y as [sy|sy| |sy my ey]; simpl; try done.
  apply binary_round_aux_sign.
Qed.

Lemma SFdiv_sign x y :
  has_sign (xorb (sign_of x) (sign_of y)) (SFdiv prec emax x y).
Proof.
  destruct x as [sx|sx| |sx mx ex], y as [sy|sy| |sy my ey]; simpl; try done.
  destruct (SFdiv_core_binary _ _ _ _ _ _) as [[mz ez] lz].
  apply binary_round_aux_sign.
Qed.

Lemma float_of_nonneg_sign a :
  0 <= a -> has_sign false (Prim2SF (float_of_nonneg a)).
Proof.
  intros Ha. unfold float_of_nonneg.
  assert (Hu : forall n, has_sign false (Prim2SF (of_uint63 n))).
  { intros n. rewrite of_uint63_spec.
    pose proof (to_Z_bounded n) as Hb.
    destruct (to_Z n) as [|p|p]; simpl; [done| |lia].
    apply binary_round_sign. }
  destruct (a <? 2 ^ 62); [apply Hu|].
  rewrite Z_ldexp_spec.
  specialize (Hu (of_Z (2 * Z.shiftr a (Z.log2 a - 61) +
                        (if Z.land a (Z.ones (Z.log2 a - 61)) =? 0 then 0 else 1)))).
  destruct (Prim2SF (of_uint63 _)) as [s|s| |s m e]; simpl in *; try done.
  subst s. apply binary_round_sign.
Qed.

Lemma float_of_Z_sign n : has_sign (n <? 0) (Prim2SF (float_of_Z n)).
Proof.
  unfold float_of_Z. destruct (n <? 0) eqn:Hn.
  - rewrite FloatAxioms.opp_spec.
    assert (H : has_sign false (Prim2SF (float_of_nonneg (Z.abs n))))
      by (apply float_of_nonneg_sign; lia).
    destruct (Prim2SF _); simpl in *; try done; by subst.
  - apply float_of_nonneg_sign. lia.
Qed.

Lemma nearest_even_nonneg m e : 0 <= nearest_even m e.
Proof.
  unfold nearest_even. destruct (0 <=? e) eqn:He.
  - apply Z.mul_nonneg_nonneg; [lia|]. apply Z.pow_nonneg. lia.
  - assert (0 < 2 ^ (- e)) by (apply Z.pow_pos_nonneg; lia).
    assert (0 <= Z.pos m / 2 ^ (- e)) by (apply Z.div_pos; lia).
    destruct (_ ?= _); [destruct (Z.even _)| |]; lia.
Qed.

Lemma towards_zero_nonneg m e : 0 <= towards_zero m e.
Proof.
  unfold towards_zero. destruct (0 <=? e) eqn:He.
  - apply Z.mul_nonneg_nonneg; [lia|]. apply Z.pow_nonneg. lia.
  - apply Z.div_pos; [lia|]. apply Z.pow_pos_nonneg; lia.
Qed.

Lemma leb_zero_cases d :
  (0 <=? d)%float = true ->
  match Prim2SF d with
  | S754_zero _ => True
  | S754_finite s _ _ | S754_infinity s => s = false
  | S754_nan => False
  end.
Proof.
  rewrite FloatAxioms.leb_spec. change (Prim2SF 0) with (S754_zero false).
  unfold SFleb. destruct (Prim2SF d) as [s|[|]| |[|] m e]; simpl; done.
Qed.

End FloatFacts.

(** ** Tables *)

(** [CountryInfo] and the country table, a dictionary keyed by ISO_A3 in
    the order of the rows of the file. *)
Record CountryInfo := mkCountryInfo {
  ISO_A3 : string;
  ISO_A2 : string;
  NAME : string
}.

Definition CountryInfoTable := list (string * CountryInfo).

(** A landmark record, and a table of them keyed by address in the order
    of the rows of the file. *)
Abbreviation Landmark := (gmap string pyval).

Definition LandmarksTable := list (IpAddress * gmap string pyval).

(** [table.get(addr, dflt)]. *)
Fixpoint table_get (t : LandmarksTable) (addr : IpAddress)
    (dflt : gmap string pyval) : gmap string pyval :=
  match t with
  | [] => dflt
  | (a, lm) :: t' => if decide (a = addr) then lm else table_get t' addr dflt
  end.

(** The record's own address column. *)
Definition addr_of (lm : gmap string pyval) : option pyval := lm !! "addr".

(** What [load_landmarks] establishes for every row: the record's [addr]
    is the key it is filed under. *)
Definition filed_under_addr (row : IpAddress * gmap string pyval) : Prop :=
  addr_of row.2 = Some (PAddr row.1).

(** ** Reconciliation *)

Module Reconcile.

Section WithLibm.
(** The C library's [sin], [cos] and [asin]. *)
Variables c_sin c_cos c_asin : float -> float.

Definition math_sin := math_1 c_sin.
Definition math_cos := math_1 c_cos.
Definition math_asin := math_1 c_asin.
Definition math_sqrt := math_1 PrimFloat.sqrt.
Definition math_pi : float := 0x1.921fb54442d18p+1%float.

Definition TO_RAD : float := (math_pi / 180)%float.
Definition R1 : float := 6371.0088%float.

(** The nested function of [reconcile_landmarks].  As in the source,
    both pairs of coordinates are read from [lm]. *)
Definition not_same_location (lm old_lm : gmap string pyval) : result bool :=
  v ← getitem lm "longitude"; n_lon ← mul_float v TO_RAD;
  v ← getitem lm "latitude"; n_lat ← mul_float v TO_RAD;
  v ← getitem lm "longitude"; o_lon ← mul_float v TO_RAD;
  v ← getitem lm "latitude"; o_lat ← mul_float v TO_RAD;
  slat ← math_sin ((n_lat - o_lat) / 2)%float;
  slon ← math_sin ((n_lon - o_lon) / 2)%float;
  co ← math_cos o_lat;
  cn ← math_cos n_lat;
  root ← math_sqrt (slat * slat + co * cn * slon * slon)%float;
  a ← math_asin root;
  let d := (2 * R1 * a)%float in
  Ok (10 <? d)%float.

Definition EMPTY_LM : gmap string pyval := ∅.

(** The inner loop: one key per country code, and the destination list
    ([true] for [incomplete]). *)
Definition fill_step (old_lm : gmap string pyval)
    (st : gmap string pyval * bool) (iso : string) : gmap string pyval * bool :=
  let v := get_or_None old_lm iso in
  (<[iso := v]> st.1, st.2 || is_None v).

Definition fill_countries (old_lm : gmap string pyval) (isos : list string)
    (lm : gmap string pyval) : gmap string pyval * bool :=
  fold_left (fill_step old_lm) isos (lm, false).

(** One iteration of the outer loop. *)
Definition reconcile_step (old_landmarks : LandmarksTable) (isos : list string)
    (st : list (gmap string pyval) * list (gmap string pyval))
    (row : IpAddress * gmap string pyval)
    : result (list (gmap string pyval) * list (gmap string pyval)) :=
  let '(addr, lm) := row in
  let old_lm := table_get old_landmarks addr EMPTY_LM in
  moved ← not_same_location lm old_lm;
  let old_lm := if moved : bool then EMPTY_LM else old_lm in
  let '(lm', inc) := fill_countries old_lm isos lm in
  Ok (if inc : bool then (st.1, st.2 ++ [lm']) else (st.1 ++ [lm'], st.2)).

Fixpoint reconcile_loop (old_landmarks : LandmarksTable) (isos : list string)
    (rows : LandmarksTable)
    (st : list (gmap string pyval) * list (gmap string pyval))
    : result (list (gmap string pyval) * list (gmap string pyval)) :=
  match rows with
  | [] => Ok st
  | row :: rows' =>
      st' ← reconcile_step old_landmarks isos st row;
      reconcile_loop old_landmarks isos rows' st'
  end.

Definition reconcile_landmarks (old_landmarks new_landmarks : LandmarksTable)
    (ccs : CountryInfoTable)
    : result (list (gmap string pyval) * list (gmap string pyval)) :=
  reconcile_loop old_landmarks ccs.*1 new_landmarks ([], []).

(** *** The inner loop *)

Lemma fill_lookup old_lm isos st k :
  (fold_left (fill_step old_lm) isos st).1 !! k =
    if decide (k ∈ isos) then Some (get_or_None old_lm k) else st.1 !! k.
Proof.
  revert st. induction isos as [|iso isos IH]; intros st; cbn [fold_left].
  - case_decide as Hin; [|done]. by apply elem_of_nil in Hin.
  - rewrite IH. cbn [fill_step fst].
    destruct (decide (k ∈ isos)) as [Hin|Hnin].
    + rewrite decide_True; [done | by right].
    + destruct (decide (iso = k)) as [->|Hne].
      * rewrite lookup_insert_eq, decide_True; [done | by left].
      * rewrite lookup_insert_ne by done.
        rewrite decide_False; [done|].
        intros [->|?]%elem_of_cons; done.
Qed.

Lemma fill_flag old_lm isos st :
  (fold_left (fill_step old_lm) isos st).2 =
    st.2 || existsb (fun iso => is_None (get_or_None old_lm iso)) isos.
Proof.
  revert st. induction isos as [|iso isos IH]; intros st; simpl.
  - by rewrite orb_false_r.
  - rewrite IH. simpl. by rewrite orb_assoc.
Qed.

Lemma fill_countries_lookup old_lm isos lm k :
  (fill_countries old_lm isos lm).1 !! k =
    if decide (k ∈ isos) then Some (get_or_None old_lm k) else lm !! k.
Proof. apply fill_lookup. Qed.

Lemma fill_countries_flag old_lm isos lm :
  (fill_countries old_lm isos lm).2 =
    existsb (fun iso => is_None (get_or_None old_lm iso)) isos.
Proof. unfold fill_countries. by rewrite fill_flag. Qed.

Lemma not_same_location_ignores_old lm o1 o2 :
  not_same_location lm o1 = not_same_location lm o2.
Proof. reflexivity. Qed.

(** *** The outer loop *)

(** What one row contributes: the filled record and its destination. *)
Definition row_output (old_landmarks : LandmarksTable) (isos : list string)
    (row : IpAddress * gmap string pyval) (moved : bool)
    : gmap string pyval * bool :=
  fill_countries
    (if moved then EMPTY_LM else table_get old_landmarks row.1 EMPTY_LM)
    isos row.2.

Definition outputs_of (old_landmarks : LandmarksTable) (isos : list string)
    (rows : LandmarksTable) (outs : list (gmap string pyval * bool)) : Prop :=
  Forall2 (fun row out => exists moved,
             not_same_location row.2 EMPTY_LM = Ok moved /\
             out = row_output old_landmarks isos row moved) rows outs.

Lemma reconcile_loop_outputs old_landmarks isos rows st :
  Forall (fun row => is_Ok (not_same_location row.2 EMPTY_LM)) rows ->
  exists outs,
    outputs_of old_landmarks isos rows outs /\
    reconcile_loop old_landmarks isos rows st =
      Ok (st.1 ++ (filter (fun o => o.2 = false) outs).*1,
          st.2 ++ (filter (fun o => o.2 = true) outs).*1).
Proof.
  revert st. induction rows as [|[addr lm] rows IH]; intros [c i] Hok.
  - exists []. split; [constructor|]. simpl. by rewrite !app_nil_r.
  - apply Forall_cons in Hok as [[moved Hm] Hok].
    set (out := row_output old_landmarks isos (addr, lm) moved).
    destruct (IH (if out.2 then (c, i ++ [out.1]) else (c ++ [out.1], i)) Hok)
      as (outs & Houts & Hrun).
    exists (out :: outs). split.
    + constructor; [|done]. exists moved. done.
    + cbn [reconcile_loop reconcile_step mbind result_bind].
      simpl in Hm.
      rewrite (not_same_location_ignores_old lm _ EMPTY_LM), Hm.
      cbn [mbind result_bind].
      change (fill_countries _ isos lm) with out.
      destruct out as [lm' inc] eqn:Hout. cbn [mbind result_bind].
      cbn [fst snd] in Hrun |- *. rewrite Hrun.
      destruct inc; cbn [fst snd].
      * rewrite filter_cons_False by (simpl; congruence).
        rewrite filter_cons_True by done. simpl. by rewrite <- app_assoc.
      * rewrite filter_cons_True by done.
        rewrite filter_cons_False by (simpl; congruence).
        simpl. by rewrite <- app_assoc.
Qed.

Lemma table_get_cases (t : LandmarksTable) addr :
  table_get t addr EMPTY_LM = EMPTY_LM \/ (addr, table_get t addr EMPTY_LM) ∈ t.
Proof.
  induction t as [|[a lm] t IH]; simpl; [by left|].
  case_decide as Ha.
  - subst. right. by left.
  - destruct IH as [IH|IH]; [by left|]. right. by right.
Qed.

(** What a filled record looks like, whatever the verdict was. *)
Definition output_ok (old_landmarks : LandmarksTable) (isos : list string)
    (row : IpAddress * gmap string pyval) (out : gmap string pyval * bool) : Prop :=
  addr_of out.1 = addr_of row.2 /\
  (forall iso, iso ∈ isos ->
     exists v, out.1 !! iso = Some v /\
       (v = PNone \/
        exists old_lm, (row.1, old_lm) ∈ old_landmarks /\ old_lm !! iso = Some v)) /\
  (out.2 = false -> forall iso, iso ∈ isos -> exists v, out.1 !! iso = Some v /\ v <> PNone) /\
  (out.2 = true -> exists iso, iso ∈ isos /\ out.1 !! iso = Some PNone).

Lemma row_output_ok old_landmarks isos row moved :
  "addr" ∉ isos ->
  output_ok old_landmarks isos row (row_output old_landmarks isos row moved).
Proof.
  intros Haddr. unfold row_output.
  set (old_lm := if moved then EMPTY_LM else table_get old_landmarks row.1 EMPTY_LM).
  assert (Hold : old_lm = EMPTY_LM \/ (row.1, old_lm) ∈ old_landmarks).
  { unfold old_lm. destruct moved; [by left | apply table_get_cases]. }
  repeat split.
  - unfold addr_of. rewrite fill_countries_lookup. by rewrite decide_False.
  - intros iso Hiso. rewrite fill_countries_lookup, decide_True by done.
    exists (get_or_None old_lm iso). split; [done|].
    unfold get_or_None. destruct (old_lm !! iso) as [v|] eqn:Hv; simpl; [|by left].
    destruct Hold as [Hold|Hold].
    + rewrite Hold in Hv. unfold EMPTY_LM in Hv. by rewrite lookup_empty in Hv.
    + right. by exists old_lm.
  - rewrite fill_countries_flag. intros Hflag iso Hiso.
    rewrite fill_countries_lookup, decide_True by done.
    exists (get_or_None old_lm iso). split; [done|].
    intros Hnone.
    assert (existsb (fun iso => is_None (get_or_None old_lm iso)) isos = true);
      [|congruence].
    apply existsb_exists. exists iso. split; [by apply list_elem_of_In|].
    by rewrite Hnone.
  - rewrite fill_countries_flag. intros Hflag.
    apply existsb_exists in Hflag as (iso & Hiso & Hnone).
    apply list_elem_of_In in Hiso.
    exists iso. split; [done|].
    rewrite fill_countries_lookup, decide_True by done.
    destruct (get_or_None old_lm iso); done.
Qed.

Lemma split_by_flag (outs : list (gmap string pyval * bool)) :
  filter (fun o => o.2 = false) outs ++ filter (fun o => o.2 = true) outs ≡ₚ outs.
Proof.
  induction outs as [|[lm [|]] outs IH]; [done| |].
  - rewrite filter_cons_False by (simpl; congruence).
    rewrite filter_cons_True by done.
    rewrite <- Permutation_middle. by constructor.
  - rewrite filter_cons_True by done.
    rewrite filter_cons_False by (simpl; congruence).
    simpl. by constructor.
Qed.

Lemma outputs_of_ok old_landmarks isos rows outs :
  "addr" ∉ isos ->
  outputs_of old_landmarks isos rows outs ->
  Forall2 (output_ok old_landmarks isos) rows outs.
Proof.
  intros Haddr Houts. eapply Forall2_impl; [exact Houts|].
  intros row out (moved & _ & ->). by apply row_output_ok.
Qed.

Lemma outputs_addrs old_landmarks isos rows outs :
  Forall filed_under_addr rows ->
  Forall2 (output_ok old_landmarks isos) rows outs ->
  addr_of <$> outs.*1 = (fun row => Some (PAddr row.1)) <$> rows.
Proof.
  intros Hrows Houts. induction Houts as [|row out rows outs Hro _ IH]; [done|].
  apply Forall_cons in Hrows as [Hrow Hrows].
  cbn [fmap list_fmap]. f_equal; [|by apply IH].
  destruct Hro as [-> _]. exact Hrow.
Qed.

(** The location test as the specification words it: the great-circle
    distance between the OLD record's and the NEW record's coordinates.
    It is used only to compare the source's test against. *)
Definition not_same_location_spec (lm old_lm : gmap string pyval) : result bool :=
  v ← getitem lm "longitude"; n_lon ← mul_float v TO_RAD;
  v ← getitem lm "latitude"; n_lat ← mul_float v TO_RAD;
  v ← getitem old_lm "longitude"; o_lon ← mul_float v TO_RAD;
  v ← getitem old_lm "latitude"; o_lat ← mul_float v TO_RAD;
  slat ← math_sin ((n_lat - o_lat) / 2)%float;
  slon ← math_sin ((n_lon - o_lon) / 2)%float;
  co ← math_cos o_lat;
  cn ← math_cos n_lat;
  root ← math_sqrt (slat * slat + co * cn * slon * slon)%float;
  a ← math_asin root;
  let d := (2 * R1 * a)%float in
  Ok (10 <? d)%float.

(** The postcondition of [reconcile_landmarks]: the two lists together
    hold one record per new landmark, no address twice; every record has
    an entry under every country code, [None] or the value an old record
    of the same address has there; the records of [complete] have no
    entry [None], those of [incomplete] have one. *)
Definition reconciled (old_landmarks new_landmarks : LandmarksTable)
    (ccs : CountryInfoTable)
    (complete incomplete : list (gmap string pyval)) : Prop :=
  length complete + length incomplete = length new_landmarks /\
  addr_of <$> (complete ++ incomplete) ≡ₚ
    (fun row => Some (PAddr row.1)) <$> new_landmarks /\
  NoDup (addr_of <$> (complete ++ incomplete)) /\
  (forall r iso, r ∈ complete ++ incomplete -> iso ∈ ccs.*1 ->
     exists v, r !! iso = Some v /\
       (v = PNone \/
        exists a old_lm, addr_of r = Some (PAddr a) /\ (a, old_lm) ∈ old_landmarks /\
                         old_lm !! iso = Some v)) /\
  (forall r, r ∈ complete ->
     forall iso, iso ∈ ccs.*1 -> exists v, r !! iso = Some v /\ v <> PNone) /\
  (forall r, r ∈ incomplete ->
     exists iso, iso ∈ ccs.*1 /\ r !! iso = Some PNone).

End WithLibm.

End Reconcile.

(** ** Properties of reconciliation *)

Module ReconcileFacts.
Import Reconcile.

(** A small-angle mathematical library, exact at zero, for running the
    definitions: [sin x = x], [cos x = 1 - x²/2], [asin x = x]. *)
Definition small_sin (x : float) : float := x.
Definition small_cos (x : float) : float := (1 - x * x / 2)%float.
Definition small_asin (x : float) : float := x.

Definition addr1 : IpAddress := IPv4Address 3221225985.
Definition addr2 : IpAddress := IPv4Address 3221225986.

Definition landmark_at (a : IpAddress) (lon lat : float) : gmap string pyval :=
  <["latitude" := PNum (NFloat lat)]>
    (<["longitude" := PNum (NFloat lon)]> (<["addr" := PAddr a]> ∅)).

(** A record of an earlier run, as read back from the results file. *)
Definition analyzed_at (a : IpAddress) (lon lat : float) (usa : pyval)
    : gmap string pyval :=
  <["USA" := usa]> (landmark_at a lon lat).

Definition ccs_usa : CountryInfoTable :=
  [("USA", mkCountryInfo "USA" "US" "United States")].

Lemma origin_is_same_location c_sin c_cos c_asin a old_lm :
  c_sin 0%float = 0%float ->
  c_cos 0%float = 1%float ->
  c_asin 0%float = 0%float ->
  not_same_location c_sin c_cos c_asin (landmark_at a 0 0) old_lm = Ok false.
Proof.
  intros Hs Hc Ha. unfold not_same_location.
  change (getitem (landmark_at a 0 0) "longitude") with (Ok (PNum (NFloat 0))).
  change (getitem (landmark_at a 0 0) "latitude") with (Ok (PNum (NFloat 0))).
  cbn [mbind result_bind mul_float to_float].
  change (0 * TO_RAD)%float with 0%float.
  change ((0 - 0) / 2)%float with 0%float.
  unfold math_sin, math_cos, math_asin, math_sqrt, math_1.
  rewrite Hs, Hc. cbn. rewrite Ha. reflexivity.
Qed.

(** C1 (the code departs from it).  A landmark at (0,0) whose earlier
    record lies at longitude 0.2° (about 22 km away) is not treated as
    moved: the distance recorded for the old place is carried forward and
    the record is filed as complete.  The mathematical library enters only
    through its values at zero. *)
Theorem reconcile_keeps_distances_of_moved_landmark c_sin c_cos c_asin :
  c_sin 0%float = 0%float ->
  c_cos 0%float = 1%float ->
  c_asin 0%float = 0%float ->
  reconcile_landmarks c_sin c_cos c_asin
    [(addr1, analyzed_at addr1 0.2 0 (PStr "5550"))]
    [(addr1, landmark_at addr1 0 0)] ccs_usa
  = Ok ([analyzed_at addr1 0 0 (PStr "5550")], []).
Proof.
  intros Hs Hc Ha.
  unfold reconcile_landmarks. cbn [reconcile_loop reconcile_step].
  rewrite (origin_is_same_location _ _ _ _ _ Hs Hc Ha).
  vm_refl.
Qed.

Lemma reconcile_keeps_distances_of_moved_landmark_witness :
  reconcile_landmarks small_sin small_cos small_asin
    [(addr1, analyzed_at addr1 0.2 0 (PStr "5550"))]
    [(addr1, landmark_at addr1 0 0)] ccs_usa
  = Ok ([analyzed_at addr1 0 0 (PStr "5550")], []).
Proof.
  apply (reconcile_keeps_distances_of_moved_landmark small_sin small_cos small_asin);
    reflexivity.
Defined.

(** The test the specification words tells the two places apart. *)
Lemma spec_test_tells_moved_from_unmoved :
  not_same_location_spec small_sin small_cos small_asin
    (landmark_at addr1 0 0) (landmark_at addr1 0.2 0) = Ok true /\
  not_same_location_spec small_sin small_cos small_asin
    (landmark_at addr1 0 0) (landmark_at addr1 0.05 0) = Ok false.
Proof. split; vm_refl. Qed.

(** The source's test never looks at the old record. *)
Lemma source_test_cannot_tell c_sin c_cos c_asin lm :
  not_same_location c_sin c_cos c_asin lm (landmark_at addr1 0.2 0) =
  not_same_location c_sin c_cos c_asin lm (landmark_at addr1 0.05 0).
Proof. reflexivity. Qed.

(** C3.  When the tables are as [load_landmarks] builds them (distinct
    addresses, each record filed under its own [addr]), no country code is
    spelled [addr], and the location test evaluates on every new record,
    [reconcile_landmarks] returns two lists that together hold the new
    records once each, every record has an entry per country code, taken
    from an old record or [None], and a record is in [incomplete] exactly
    when one of these entries is [None]. *)
Theorem reconcile_landmarks_partitions c_sin c_cos c_asin
    (old_landmarks new_landmarks : LandmarksTable) (ccs : CountryInfoTable) :
  NoDup new_landmarks.*1 ->
  Forall filed_under_addr new_landmarks ->
  "addr" ∉ ccs.*1 ->
  Forall (fun row => is_Ok (not_same_location c_sin c_cos c_asin row.2 EMPTY_LM))
    new_landmarks ->
  exists complete incomplete,
    reconcile_landmarks c_sin c_cos c_asin old_landmarks new_landmarks ccs
      = Ok (complete, incomplete) /\
    reconciled old_landmarks new_landmarks ccs complete incomplete.
Proof.
  intros Hnodup Hfiled Haddr Heval.
  destruct (reconcile_loop_outputs c_sin c_cos c_asin old_landmarks ccs.*1
              new_landmarks ([], []) Heval) as (outs & Houts & Hrun).
  simpl in Hrun.
  pose proof (outputs_of_ok _ _ _ _ _ _ _ Haddr Houts) as Hok.
  pose proof (outputs_addrs _ _ _ _ Hfiled Hok) as Haddrs.
  pose proof (split_by_flag outs) as Hperm.
  set (complete := (filter (fun o => o.2 = false) outs).*1) in *.
  set (incomplete := (filter (fun o => o.2 = true) outs).*1) in *.
  assert (Hperm1 : complete ++ incomplete ≡ₚ outs.*1).
  { unfold complete, incomplete. rewrite <- fmap_app. by rewrite Hperm. }
  assert (Hin : forall r, r ∈ complete ++ incomplete ->
            exists row b, row ∈ new_landmarks /\
                          output_ok old_landmarks ccs.*1 row (r, b) /\
                          (r ∈ complete -> b = false)).
  { intros r Hr. rewrite Hperm1 in Hr.
    apply list_elem_of_fmap in Hr as ([r' b] & -> & Hr).
    apply list_elem_of_lookup in Hr as [n Hn].
    destruct (Forall2_lookup_r _ _ _ _ _ Hok Hn) as (row & Hrow & Hprop).
    exists row, b. split; [by eapply list_elem_of_lookup_2|].
    split; [done|].
    intros Hc. unfold complete in Hc.
    apply list_elem_of_fmap in Hc as ([r'' b'] & Heq & Hc).
    apply list_elem_of_filter in Hc as [Hb Hc]. simpl in *. subst r''.
    (* the same record may stem from another row; its flag is the same
       function of its entries *)
    destruct b; [|done].
    destruct Hprop as (_ & _ & _ & Hinc). destruct (Hinc eq_refl) as (iso & Hiso & Hnone).
    apply list_elem_of_lookup in Hc as [n' Hn'].
    destruct (Forall2_lookup_r _ _ _ _ _ Hok Hn') as (row' & _ & Hprop').
    destruct Hprop' as (_ & _ & Hcomp & _). simpl in Hb.
    destruct (Hcomp Hb iso Hiso) as (v & Hv & Hne). simpl in *. congruence. }
  exists complete, incomplete. split; [exact Hrun|].
  unfold reconciled. split_and!.
  - rewrite <- length_app, Hperm1, length_fmap.
    symmetry. by eapply Forall2_length.
  - by rewrite Hperm1, Haddrs.
  - rewrite Hperm1, Haddrs.
    assert (Hinj : Inj eq eq (fun a => Some (PAddr a))) by (intros x y; congruence).
    apply (NoDup_fmap_2 (fun a => Some (PAddr a))) in Hnodup.
    by rewrite <- list_fmap_compose in Hnodup.
  - intros r iso Hr Hiso.
    destruct (Hin r Hr) as (row & b & Hrow & (Ha & Hentries & _) & _).
    destruct (Hentries iso Hiso) as (v & Hv & [Hnone | (old_lm & Hold & Hov)]);
      exists v; (split; [done|]); [by left|].
    right. exists row.1, old_lm. split_and!; [|done|done].
    simpl in Ha. rewrite Ha.
    by apply (proj1 (Forall_forall _ _) Hfiled row).
  - intros r Hr iso Hiso.
    assert (Hr' : r ∈ complete ++ incomplete) by (apply elem_of_app; by left).
    destruct (Hin r Hr') as (row & b & _ & (_ & _ & Hcomp & _) & Hb).
    apply (Hcomp (Hb Hr) iso Hiso).
  - intros r Hr. unfold incomplete in Hr.
    apply list_elem_of_fmap in Hr as ([r' b] & -> & Hr).
    apply list_elem_of_filter in Hr as [Hb Hr]. simpl in Hb. subst b.
    apply list_elem_of_lookup in Hr as [n Hn].
    destruct (Forall2_lookup_r _ _ _ _ _ Hok Hn) as (row & _ & Hprop).
    destruct Hprop as (_ & _ & _ & Hinc). by apply Hinc.
Qed.

Definition old_table : LandmarksTable :=
  [(addr1, analyzed_at addr1 (-74.0) 40.7 (PStr "5550"))].

Definition new_table : LandmarksTable :=
  [(addr1, landmark_at addr1 (-74.0) 40.7); (addr2, landmark_at addr2 2.35 48.85)].

Lemma reconcile_landmarks_partitions_witness :
  exists complete incomplete,
    reconcile_landmarks small_sin small_cos small_asin old_table new_table ccs_usa
      = Ok (complete, incomplete) /\
    reconciled old_table new_table ccs_usa complete incomplete.
Proof.
  apply (reconcile_landmarks_partitions small_sin small_cos small_asin
           old_table new_table ccs_usa).
  - apply (bool_decide_unpack _). vm_compute. exact I.
  - repeat constructor.
  - apply (bool_decide_unpack _). vm_compute. exact I.
  - repeat constructor; eexists; vm_compute; reflexivity.
Defined.

End ReconcileFacts.

(** ** The distance computer *)

Module Analyze.

Section WithGeometry.
(** Shapely geometries and pyproj reference systems.  [from_crs crs lon
    lat] is lines 694 to 701: the azimuthal equidistant reference system
    centred on [(lon, lat)] and the transformer from [crs] to it, which
    pyproj refuses to build for some centres (a latitude beyond the
    poles, a NaN); [sh_transform t g] is line 710, the geometry [g] taken
    through the transformer [t].  Both are called outside any [try], so
    what they raise ends the run.  [buffer0] is [g.buffer(0)], [None]
    when it raises; [distance] and [intersects] are taken from the
    projected landmark, the point [(0, 0)]. *)
Variables Geometry CRS Transformer : Type.
Variable from_crs : CRS -> float -> float -> result Transformer.
Variable sh_transform : Transformer -> Geometry -> result Geometry.
Variable is_valid : Geometry -> bool.
Variable buffer0 : Geometry -> option Geometry.
Variable distance : Geometry -> float.
Variable intersects : Geometry -> bool.

(** [WORKER_DATA]: the country maps in key order, the reference system of
    the map and the resolution. *)
Definition WorkerData : Type := list (string * Geometry) * CRS * number.

(** A coordinate handed to pyproj. *)
Definition coordinate (v : pyval) : result float :=
  match v with
  | PNum n => to_float n
  | _ => Raise (TypeError "coordinate is not a number")
  end.

(** Lines 730 to 737: round to the nearest multiple of the resolution, and
    make the result an [int] when it is one. *)
Definition round_to_resolution (dist : float) (resolution : number) : result number :=
  q ← truediv dist resolution;
  n ← py_round q;
  dist ← int_mul n resolution;
  idist ← py_int dist;
  Ok (if int_eq idist dist then NInt idist else dist).

(** Lines 730 to 742, for a valid projected geometry. *)
Definition stored_distance (aeqd_mapg : Geometry) (resolution : number) : result number :=
  dist ← round_to_resolution (distance aeqd_mapg) resolution;
  Ok (if intersects aeqd_mapg then neg dist else dist).

(** Lines 710 to 728.  The projected geometry the distance is taken
    from: the transformed map, or its zero-width buffer when the map is
    invalid and the buffer is valid; [None] when the pair is skipped with
    a diagnostic.  What the transformation raises is not caught. *)
Definition projected (to_aeqd : Transformer) (mapg : Geometry)
    : result (option Geometry) :=
  aeqd_mapg ← sh_transform to_aeqd mapg;
  Ok (if is_valid aeqd_mapg then Some aeqd_mapg
      else match buffer0 aeqd_mapg with
           | Some fixed => if is_valid fixed then Some fixed else None
           | None => None
           end).

(** The value for one country, [None] when the pair is skipped. *)
Definition country_distance (to_aeqd : Transformer) (resolution : number)
    (mapg : Geometry) : result (option number) :=
  p ← projected to_aeqd mapg;
  match p with
  | Some aeqd_mapg => d ← stored_distance aeqd_mapg resolution; Ok (Some d)
  | None => Ok None
  end.

(** One iteration of the loop over [maps.items()]. *)
Definition analyze_step (to_aeqd : Transformer) (resolution : number)
    (landmark : gmap string pyval) (entry : string * Geometry)
    : result (gmap string pyval) :=
  let '(iso, mapg) := entry in
  v ← getitem landmark iso;
  if negb (is_None v) then Ok landmark
  else
    r ← country_distance to_aeqd resolution mapg;
    match r with
    | Some dist => Ok (<[iso := PNum dist]> landmark)
    | None => Ok landmark
    end.

Fixpoint analyze_loop (to_aeqd : Transformer) (resolution : number)
    (maps : list (string * Geometry)) (landmark : gmap string pyval)
    : result (gmap string pyval) :=
  match maps with
  | [] => Ok landmark
  | entry :: maps' =>
      landmark' ← analyze_step to_aeqd resolution landmark entry;
      analyze_loop to_aeqd resolution maps' landmark'
  end.

(** The transformer is built before the loop, from the coordinates of
    the record, whether or not an entry is left to compute. *)
Definition analyze_landmark (WORKER_DATA : option WorkerData)
    (landmark : gmap string pyval) : result (gmap string pyval) :=
  match WORKER_DATA with
  | None => Raise AssertionError
  | Some (maps, map_crs, resolution) =>
      v ← getitem landmark "longitude"; lm_lon ← coordinate v;
      v ← getitem landmark "latitude"; lm_lat ← coordinate v;
      to_aeqd ← from_crs map_crs lm_lon lm_lat;
      analyze_loop to_aeqd resolution maps landmark
  end.

(** Lines 694 to 728 for one country: the geometry a run measures for
    the map [mapg] from a landmark at [(lm_lon, lm_lat)]. *)
Definition projection (map_crs : CRS) (lm_lon lm_lat : float) (mapg : Geometry)
    : result (option Geometry) :=
  to_aeqd ← from_crs map_crs lm_lon lm_lat;
  projected to_aeqd mapg.

(** *** Rounding to the resolution *)

Local Open Scope Z_scope.
Import FloatFacts.

(** [m] is the product [p] as Python computed it, or the [int] equal to it. *)
Definition same_number (m p : number) : Prop :=
  m = p \/ exists z, m = NInt z /\ int_eq z p = true.

Lemma round_SF_nearest x n : round_SF x = Ok n -> nearest_integer x n.
Proof.
  destruct x as [s|s| |s m e]; simpl; try done; intros [= <-]; [done|].
  exists (nearest_even m e). split; [done|].
  unfold nearest_even. destruct (0 <=? e) eqn:He; [done|].
  apply Z.leb_gt in He.
  set (k := 2 ^ (- e)).
  assert (Hk : 0 < k) by (apply Z.pow_pos_nonneg; lia).
  pose proof (Z.div_mod (Z.pos m) k ltac:(lia)) as Hdm.
  pose proof (Z.mod_pos_bound (Z.pos m) k Hk) as Hr.
  set (q := Z.pos m / k) in *. set (r := Z.pos m mod k) in *.
  destruct (Z.compare_spec (2 * r) k) as [Heq|Hlt|Hgt].
  - destruct (Z.even q) eqn:Hev.
    + split; [lia|done].
    + split; [lia|]. intros _.
      rewrite Z.add_1_r, Z.even_succ, <- Z.negb_even, Hev. done.
  - split; lia.
  - split; lia.
Qed.

Lemma round_to_resolution_spec d res m :
  round_to_resolution d res = Ok m ->
  exists q n p,
    truediv d res = Ok q /\ py_round q = Ok n /\
    nearest_integer (Prim2SF q) n /\
    int_mul n res = Ok p /\ same_number m p.
Proof.
  unfold round_to_resolution. intros H.
  apply bind_Ok in H as (q & Hq & H). apply bind_Ok in H as (n & Hn & H).
  apply bind_Ok in H as (p & Hp & H). apply bind_Ok in H as (idist & Hi & H).
  exists q, n, p. split_and!; try done.
  - by apply round_SF_nearest.
  - injection H as <-. destruct (int_eq idist p) eqn:He; [right; eauto | by left].
Qed.

Lemma round_to_resolution_int d r m :
  round_to_resolution d (NInt r) = Ok m ->
  exists n, m = NInt (n * r).
Proof.
  unfold round_to_resolution. intros H.
  apply bind_Ok in H as (q & Hq & H). apply bind_Ok in H as (n & Hn & H).
  simpl in H. rewrite Z.eqb_refl in H. injection H as <-. by exists n.
Qed.

Lemma quotient_round_sign d yf n :
  (0 <=? d)%float = true ->
  py_round (d / yf) = Ok n ->
  n = 0 \/ (Prim2SF yf <> S754_nan /\
            exists a, 0 < a /\ n = signed (sign_of (Prim2SF yf)) a).
Proof.
  intros Hd%leb_zero_cases. unfold py_round. rewrite FloatAxioms.div_spec.
  pose proof (SFdiv_sign (Prim2SF d) (Prim2SF yf)) as Hs.
  unfold SF64div.
  destruct (Prim2SF d) as [sd|sd| |sd md ed], (Prim2SF yf) as [sy|sy| |sy my ey];
    simpl in Hd; try done; subst; try (simpl; intros [= <-]; by left).
  destruct (SFdiv prec emax _ _) as [s|s| |s m e]; simpl in *; try done.
  - intros [= <-]. by left.
  - intros [= <-]. subst s.
    pose proof (nearest_even_nonneg m e).
    destruct (decide (nearest_even m e = 0)) as [->|Hne].
    + left. by destruct sy.
    + right. split; [done|]. exists (nearest_even m e). split; [lia|done].
Qed.

Lemma zero_multiple res v :
  (dist ← int_mul 0 res; idist ← py_int dist;
   Ok (if int_eq idist dist then NInt idist else dist)) = Ok v ->
  v = NInt 0.
Proof.
  destruct res as [r|r]; simpl.
  - by intros [= <-].
  - change (int_to_float 0) with (Ok 0%float). simpl.
    rewrite FloatAxioms.mul_spec. change (Prim2SF 0) with (S754_zero false).
    destruct (Prim2SF r) as [s|s| |s m e]; simpl; try done; by intros [= <-].
Qed.

Lemma round_to_resolution_zero res v :
  round_to_resolution 0 res = Ok v -> v = NInt 0.
Proof.
  unfold round_to_resolution. intros H.
  apply bind_Ok in H as (q & Hq & H). apply bind_Ok in H as (n & Hn & H).
  unfold truediv in Hq. apply bind_Ok in Hq as (yf & _ & Hq).
  destruct (yf =? 0)%float; [done|]. injection Hq as <-.
  assert (n = 0) as ->; [|exact (zero_multiple res v H)].
  unfold py_round in Hn. rewrite FloatAxioms.div_spec in Hn.
  change (Prim2SF 0) with (S754_zero false) in Hn.
  destruct (Prim2SF yf); simpl in Hn; try done; by injection Hn.
Qed.

Lemma round_to_resolution_nonneg d res v :
  (0 <=? d)%float = true ->
  round_to_resolution d res = Ok v -> number_nonneg v.
Proof.
  intros Hd H. unfold round_to_resolution in H.
  apply bind_Ok in H as (q & Hq & H). apply bind_Ok in H as (n & Hn & H).
  unfold truediv in Hq. apply bind_Ok in Hq as (yf & Hyf & Hq).
  destruct (yf =? 0)%float; [done|]. injection Hq as <-.
  destruct (quotient_round_sign d yf n Hd Hn) as [->|(Hnan & a & Ha & ->)].
  { rewrite (zero_multiple res v H). simpl. lia. }
  destruct res as [r|r]; simpl in Hyf, H.
  - (* an int resolution: the product is an int *)
    unfold int_to_float in Hyf. destruct (is_infinity _); [done|].
    injection Hyf as <-. rewrite Z.eqb_refl in H. injection H as <-.
    pose proof (float_of_Z_sign r) as Hs.
    destruct (Prim2SF (float_of_Z r)) as [s|s| |s m e]; simpl in Hs |- *;
      try done; subst s; destruct (r <? 0) eqn:Hr; simpl; nia.
  - (* a float resolution: the sign of the product of two floats *)
    injection Hyf as ->.
    apply bind_Ok in H as (dist & Hdist & H).
    apply bind_Ok in Hdist as (nf & Hnf & Hdist). injection Hdist as <-.
    apply bind_Ok in H as (idist & Hidist & H). injection H as <-.
    unfold int_to_float in Hnf. destruct (is_infinity _); [done|].
    injection Hnf as <-.
    set (sy := sign_of (Prim2SF yf)) in *.
    pose proof (float_of_Z_sign (signed sy a)) as Hs.
    assert (Hlt : (signed sy a <? 0) = sy) by (destruct sy; simpl; lia).
    rewrite Hlt in Hs.
    pose proof (SFmul_sign (Prim2SF (float_of_Z (signed sy a))) (Prim2SF yf)) as Hm.
    fold sy in Hm.
    simpl in Hidist. rewrite FloatAxioms.mul_spec in Hidist. unfold SF64mul in Hidist.
    assert (Hp : has_sign false
                   (SFmul prec emax (Prim2SF (float_of_Z (signed sy a))) (Prim2SF yf))
                 \/ SFmul prec emax (Prim2SF (float_of_Z (signed sy a))) (Prim2SF yf)
                    = S754_nan).
    { destruct (Prim2SF (float_of_Z (signed sy a))) as [s|s| |s m e] eqn:Hf;
        simpl in Hs; try subst s; try (right; reflexivity);
        left; simpl in Hm; by rewrite xorb_nilpotent in Hm. }
    destruct Hp as [Hp|Hp]; [|by rewrite Hp in Hidist].
    unfold int_eq. rewrite FloatAxioms.mul_spec. unfold SF64mul.
    destruct (SFmul prec emax _ _) as [s|s| |s m e] eqn:Hprod;
      simpl in Hidist, Hp |- *; try done.
    + injection Hidist as <-. simpl. lia.
    + injection Hidist as <-. subst s. simpl.
      pose proof (towards_zero_nonneg m e).
      destruct (if 0 <=? e then _ else _); simpl; [done|].
      rewrite FloatAxioms.ltb_spec, FloatAxioms.mul_spec. unfold SF64mul.
      rewrite Hprod. reflexivity.
Qed.

Lemma neg_nonneg v : number_nonneg v -> number_nonpos (neg v).
Proof.
  destruct v as [z|f]; simpl; [lia|].
  rewrite !FloatAxioms.ltb_spec, FloatAxioms.opp_spec.
  change (Prim2SF 0) with (S754_zero false).
  destruct (Prim2SF f) as [s|[|]| |[|] m e]; simpl; done.
Qed.

(** *** The value stored for one country *)

Lemma stored_distance_inside g res v :
  intersects g = true -> distance g = 0%float ->
  stored_distance g res = Ok v -> v = NInt 0.
Proof.
  intros Hin Hd H. unfold stored_distance in H. rewrite Hd, Hin in H.
  apply bind_Ok in H as (m & Hm & H). injection H as <-.
  by rewrite (round_to_resolution_zero res m Hm).
Qed.

Lemma stored_distance_sign g res v :
  (0 <=? distance g)%float = true ->
  stored_distance g res = Ok v ->
  exists m, round_to_resolution (distance g) res = Ok m /\ number_nonneg m /\
            v = (if intersects g then neg m else m) /\
            (if intersects g then number_nonpos v else number_nonneg v).
Proof.
  intros Hd H. unfold stored_distance in H.
  apply bind_Ok in H as (m & Hm & H). injection H as <-.
  pose proof (round_to_resolution_nonneg _ _ _ Hd Hm) as Hnn.
  exists m. split_and!; try done.
  destruct (intersects g); [by apply neg_nonneg | done].
Qed.

(** *** The loop over the countries *)

Section Loop.
Variable to_aeqd : Transformer.
Variable resolution : number.

Abbreviation step := (analyze_step to_aeqd resolution).
Abbreviation loop := (analyze_loop to_aeqd resolution).

(** What a step does to the entry of its own country. *)
Lemma analyze_step_own lm iso mapg lm1 :
  step lm (iso, mapg) = Ok lm1 ->
  exists v, lm !! iso = Some v /\
    if is_None v then
      exists r, country_distance to_aeqd resolution mapg = Ok r /\
                lm1 = match r with Some d => <[iso := PNum d]> lm | None => lm end
    else lm1 = lm.
Proof.
  unfold analyze_step, getitem. destruct (lm !! iso) as [v|]; [|done].
  cbn [mbind result_bind]. intros H. exists v. split; [done|].
  destruct (is_None v); cbn [negb] in H.
  - apply bind_Ok in H as (r & Hr & H). exists r. split; [done|].
    destruct r; by injection H.
  - by injection H.
Qed.

Lemma analyze_step_other lm iso mapg lm1 k :
  step lm (iso, mapg) = Ok lm1 -> k <> iso -> lm1 !! k = lm !! k.
Proof.
  intros (v & _ & H)%analyze_step_own Hk.
  destruct (is_None v); [|by subst].
  destruct H as ([d|] & _ & ->); [|done]. by rewrite lookup_insert_ne.
Qed.

Lemma analyze_step_keeps lm entry lm1 k v :
  step lm entry = Ok lm1 -> lm !! k = Some v -> v <> PNone -> lm1 !! k = Some v.
Proof.
  destruct entry as [iso mapg]. intros Hstep Hk Hv.
  destruct (decide (k = iso)) as [->|Hne].
  - apply analyze_step_own in Hstep as (v' & Hv' & H).
    rewrite Hk in Hv'. injection Hv' as <-.
    destruct v; simpl in H; [congruence | by subst..].
  - by rewrite (analyze_step_other _ _ _ _ _ Hstep Hne).
Qed.

Lemma analyze_step_keys lm entry lm1 k :
  step lm entry = Ok lm1 -> is_Some (lm !! k) -> is_Some (lm1 !! k).
Proof.
  destruct entry as [iso mapg]. intros Hstep Hk.
  destruct (decide (k = iso)) as [->|Hne].
  - apply analyze_step_own in Hstep as (v' & Hv' & H).
    destruct (is_None v'); [|by subst].
    destruct H as ([d|] & _ & ->); [|done]. rewrite lookup_insert_eq. eauto.
  - by rewrite (analyze_step_other _ _ _ _ _ Hstep Hne).
Qed.

Lemma analyze_loop_keeps maps lm lm' k v :
  loop maps lm = Ok lm' -> lm !! k = Some v -> v <> PNone -> lm' !! k = Some v.
Proof.
  revert lm. induction maps as [|entry maps IH]; intros lm H Hk Hv.
  - simpl in H. by injection H as <-.
  - cbn [analyze_loop] in H. apply bind_Ok in H as (lm1 & Hstep & H).
    eapply IH; [exact H| |done]. by eapply analyze_step_keeps.
Qed.

Lemma analyze_loop_keys maps lm lm' k :
  loop maps lm = Ok lm' -> is_Some (lm !! k) -> is_Some (lm' !! k).
Proof.
  revert lm. induction maps as [|entry maps IH]; intros lm H Hk.
  - simpl in H. by injection H as <-.
  - cbn [analyze_loop] in H. apply bind_Ok in H as (lm1 & Hstep & H).
    eapply IH; [exact H|]. by eapply analyze_step_keys.
Qed.

Lemma analyze_loop_other maps lm lm' k :
  loop maps lm = Ok lm' -> k ∉ maps.*1 -> lm' !! k = lm !! k.
Proof.
  revert lm. induction maps as [|[iso mapg] maps IH]; intros lm H Hk.
  - simpl in H. by injection H as <-.
  - cbn [analyze_loop] in H. apply bind_Ok in H as (lm1 & Hstep & H).
    apply not_elem_of_cons in Hk as [Hne Hk].
    rewrite (IH _ H Hk). by eapply analyze_step_other.
Qed.

(** With distinct keys, the entry of an unknown country is what
    [country_distance] gives for its map. *)
Lemma analyze_loop_resolved maps lm lm' iso mapg :
  NoDup maps.*1 ->
  loop maps lm = Ok lm' ->
  (iso, mapg) ∈ maps ->
  lm !! iso = Some PNone ->
  exists r, country_distance to_aeqd resolution mapg = Ok r /\
            lm' !! iso = Some (match r with Some d => PNum d | None => PNone end).
Proof.
  revert lm. induction maps as [|[iso0 mapg0] maps IH]; intros lm Hnd H Hin Hiso.
  - by apply elem_of_nil in Hin.
  - cbn [analyze_loop] in H. apply bind_Ok in H as (lm1 & Hstep & H).
    apply NoDup_cons in Hnd as [Hhd Hnd]. simpl in Hhd.
    apply elem_of_cons in Hin as [[= <- <-]|Hin].
    + rewrite (analyze_loop_other _ _ _ _ H Hhd).
      apply analyze_step_own in Hstep as (v & Hv & Hr).
      rewrite Hiso in Hv. injection Hv as <-. simpl in Hr.
      destruct Hr as (r & Hr & ->). exists r. split; [done|].
      destruct r; [by rewrite lookup_insert_eq | done].
    + assert (iso <> iso0).
      { intros ->. apply Hhd. apply list_elem_of_fmap. by exists (iso0, mapg). }
      apply (IH lm1 Hnd H Hin).
      by rewrite (analyze_step_other _ _ _ _ _ Hstep).
Qed.

(** Whatever number replaces an unknown entry was computed from one of
    the maps of that country. *)
Lemma analyze_loop_provenance maps lm lm' iso v :
  loop maps lm = Ok lm' ->
  lm !! iso = Some PNone ->
  lm' !! iso = Some (PNum v) ->
  exists mapg g, (iso, mapg) ∈ maps /\
    projected to_aeqd mapg = Ok (Some g) /\
    stored_distance g resolution = Ok v.
Proof.
  revert lm. induction maps as [|[iso0 mapg0] maps IH]; intros lm H Hiso Hv.
  - simpl in H. injection H as <-. congruence.
  - cbn [analyze_loop] in H. apply bind_Ok in H as (lm1 & Hstep & H).
    destruct (lm1 !! iso) as [v1|] eqn:Hv1.
    2:{ assert (is_Some (lm1 !! iso)) as [? ?]; [|congruence].
        eapply analyze_step_keys; [exact Hstep|]. by rewrite Hiso. }
    destruct (PNone_cases v1) as [->|Hne].
    + destruct (IH lm1 H Hv1 Hv) as (mapg & g & Hin & Hp & Hs).
      exists mapg, g. split; [by right | done].
    + rewrite (analyze_loop_keeps _ _ _ _ _ H Hv1 Hne) in Hv. injection Hv as ->.
      destruct (decide (iso = iso0)) as [->|Hiso0].
      2:{ rewrite (analyze_step_other _ _ _ _ _ Hstep Hiso0) in Hv1. congruence. }
      apply analyze_step_own in Hstep as (v0 & Hv0 & Hr).
      rewrite Hiso in Hv0. injection Hv0 as <-. simpl in Hr.
      destruct Hr as ([d|] & Hr & ->).
      * rewrite lookup_insert_eq in Hv1. injection Hv1 as ->.
        unfold country_distance in Hr.
        apply bind_Ok in Hr as ([g|] & Hp & Hr); [|done].
        apply bind_Ok in Hr as (d' & Hd' & [= <-]).
        exists mapg0, g. split; [by left | done].
      * congruence.
Qed.

(** A second pass changes nothing. *)
Lemma analyze_loop_idempotent maps lm lm' :
  loop maps lm = Ok lm' -> loop maps lm' = Ok lm'.
Proof.
  revert lm. induction maps as [|[iso mapg] maps IH]; intros lm H; [done|].
  cbn [analyze_loop] in H. apply bind_Ok in H as (lm1 & Hstep & H).
  assert (Hfix : step lm' (iso, mapg) = Ok lm').
  { pose proof Hstep as (v & Hv & Hr)%analyze_step_own.
    assert (Hk1 : is_Some (lm1 !! iso)).
    { eapply analyze_step_keys; [exact Hstep|]. by rewrite Hv. }
    destruct Hk1 as [v1 Hv1].
    assert (Hk' : is_Some (lm' !! iso)).
    { eapply analyze_loop_keys; [exact H|]. by rewrite Hv1. }
    destruct Hk' as [v' Hv'].
    unfold analyze_step, getitem. rewrite Hv'. cbn [mbind result_bind].
    destruct (is_None v') eqn:Hnone'; [|done]. cbn [negb].
    destruct v'; try done.
    (* still unknown after the first pass: it was unknown all along and
       this map gave nothing *)
    destruct (PNone_cases v1) as [->|Hne1].
    2:{ rewrite (analyze_loop_keeps _ _ _ _ _ H Hv1 Hne1) in Hv'.
        by injection Hv'. }
    destruct (is_None v) eqn:Hnone.
    - destruct Hr as ([d|] & Hr & ->).
      + rewrite lookup_insert_eq in Hv1. done.
      + by rewrite Hr.
    - subst lm1. rewrite Hv in Hv1. injection Hv1 as ->. done. }
  cbn [analyze_loop]. rewrite Hfix. cbn [mbind result_bind]. by eapply IH.
Qed.

(** An entry that is unknown after a step was unknown before it. *)
Lemma analyze_step_unknown lm entry lm1 k :
  step lm entry = Ok lm1 -> lm1 !! k = Some PNone -> lm !! k = Some PNone.
Proof.
  destruct entry as [iso mapg]. intros Hstep Hk.
  destruct (decide (k = iso)) as [->|Hne].
  - apply analyze_step_own in Hstep as (v & Hv & H).
    destruct (is_None v); [|by subst].
    destruct H as ([d|] & _ & ->); [|done]. by rewrite lookup_insert_eq in Hk.
  - by rewrite <- (analyze_step_other _ _ _ _ _ Hstep Hne).
Qed.

(** The loop returns when every country has a key in the record, the
    map of every country whose entry is unknown goes through the
    transformer, and the rounding raises for none of the geometries. *)
Lemma analyze_loop_returns maps lm :
  (forall iso mapg, (iso, mapg) ∈ maps -> is_Some (lm !! iso)) ->
  (forall iso mapg, (iso, mapg) ∈ maps -> lm !! iso = Some PNone ->
     is_Ok (sh_transform to_aeqd mapg)) ->
  (forall iso mapg g, (iso, mapg) ∈ maps ->
     projected to_aeqd mapg = Ok (Some g) ->
     is_Ok (stored_distance g resolution)) ->
  is_Ok (loop maps lm).
Proof.
  revert lm. induction maps as [|[iso mapg] maps IH]; intros lm Hkeys Htrans Hdist.
  - apply is_Ok_Ok.
  - assert (Hstep : is_Ok (step lm (iso, mapg))).
    { destruct (Hkeys iso mapg) as [v Hv]; [by left|].
      unfold analyze_step, getitem. rewrite Hv. cbn [mbind result_bind].
      destruct (is_None v) eqn:Hnone; cbn [negb]; [|apply is_Ok_Ok].
      assert (v = PNone) as -> by (by destruct v).
      destruct (Htrans iso mapg) as [a Ha]; [by left | done |].
      unfold country_distance.
      destruct (projected to_aeqd mapg) as [[g|]|e] eqn:Hp; cbn [mbind result_bind].
      - destruct (Hdist iso mapg g) as [d Hd]; [by left | done |].
        rewrite Hd. apply is_Ok_Ok.
      - apply is_Ok_Ok.
      - unfold projected in Hp. by rewrite Ha in Hp. }
    destruct Hstep as [lm1 Hstep]. cbn [analyze_loop]. rewrite Hstep.
    cbn [mbind result_bind].
    apply IH.
    + intros iso' mapg' Hin. eapply analyze_step_keys; [exact Hstep|].
      eapply Hkeys. by right.
    + intros iso' mapg' Hin Hnone. eapply Htrans; [by right|].
      by eapply analyze_step_unknown.
    + intros iso' mapg' g Hin. eapply Hdist. by right.
Qed.

(** Only unknown entries are filled in. *)
Lemma analyze_loop_changes maps lm lm' k :
  loop maps lm = Ok lm' ->
  lm' !! k = lm !! k \/
  (lm !! k = Some PNone /\ exists d, lm' !! k = Some (PNum d)).
Proof.
  revert lm. induction maps as [|[iso mapg] maps IH]; intros lm H.
  - cbn [analyze_loop] in H. injection H as <-. by left.
  - cbn [analyze_loop] in H. apply bind_Ok in H as (lm1 & Hstep & H).
    destruct (decide (k = iso)) as [->|Hne].
    2:{ rewrite <- (analyze_step_other _ _ _ _ _ Hstep Hne). by apply IH. }
    apply analyze_step_own in Hstep as (v & Hv & Hr).
    destruct (is_None v) eqn:Hnone; [|subst lm1; by apply IH].
    destruct v; try done.
    destruct Hr as ([d|] & _ & ->); [|by apply IH].
    right. split; [done|]. exists d.
    eapply analyze_loop_keeps; [exact H| |done]. by rewrite lookup_insert_eq.
Qed.

End Loop.

(** *** The worker function *)

Lemma analyze_landmark_inv wd lm lm' :
  analyze_landmark wd lm = Ok lm' ->
  exists maps map_crs resolution lon lat vlon vlat to_aeqd,
    wd = Some (maps, map_crs, resolution) /\
    lm !! "longitude" = Some vlon /\ coordinate vlon = Ok lon /\
    lm !! "latitude" = Some vlat /\ coordinate vlat = Ok lat /\
    from_crs map_crs lon lat = Ok to_aeqd /\
    analyze_loop to_aeqd resolution maps lm = Ok lm'.
Proof.
  unfold analyze_landmark. destruct wd as [[[maps map_crs] resolution]|]; [|done].
  intros H.
  apply bind_Ok in H as (vlon & Hvlon & H). apply bind_Ok in H as (lon & Hlon & H).
  apply bind_Ok in H as (vlat & Hvlat & H). apply bind_Ok in H as (lat & Hlat & H).
  apply bind_Ok in H as (to_aeqd & Ht & H).
  unfold getitem in Hvlon, Hvlat.
  destruct (lm !! "longitude") as [x|] eqn:Hx; [|done]. injection Hvlon as ->.
  destruct (lm !! "latitude") as [y|] eqn:Hy; [|done]. injection Hvlat as ->.
  by exists maps, map_crs, resolution, lon, lat, vlon, vlat, to_aeqd.
Qed.

Lemma coordinate_not_None v x : coordinate v = Ok x -> v <> PNone.
Proof. by destruct v. Qed.

Lemma projected_valid to_aeqd mapg g :
  projected to_aeqd mapg = Ok (Some g) -> is_valid g = true.
Proof.
  unfold projected. intros (aeqd_mapg & _ & H)%bind_Ok. revert H.
  destruct (is_valid aeqd_mapg) eqn:Hv.
  - by intros [= <-].
  - destruct (buffer0 _) as [fixed|]; [|done].
    destruct (is_valid fixed) eqn:Hf; [|done]. by intros [= <-].
Qed.

Lemma projection_projected map_crs lon lat to_aeqd mapg :
  from_crs map_crs lon lat = Ok to_aeqd ->
  projection map_crs lon lat mapg = projected to_aeqd mapg.
Proof. intros H. unfold projection. by rewrite H. Qed.

End WithGeometry.

End Analyze.

(** ** Properties of the distance computer *)

Module AnalyzeFacts.
Import Analyze FloatFacts.

(** A toy geometry for running the definitions.  A plot is given as seen
    from the landmark: [Around] contains it, [Away m] lies [m] metres
    off, [Torn p] is invalid until buffered into [p], and [Broken] is
    invalid and cannot be buffered. *)
Inductive plot :=
  | Around
  | Away (metres : float)
  | Torn (mended : plot)
  | Broken.

Definition plot_is_valid (p : plot) : bool :=
  match p with
  | Around => true
  | Away m => (0 <=? m)%float
  | Torn _ | Broken => false
  end.

Definition plot_buffer0 (p : plot) : option plot :=
  match p with
  | Torn q => Some q
  | Broken => None
  | _ => Some p
  end.

Definition plot_distance (p : plot) : float :=
  match p with
  | Away m => m
  | _ => 0%float
  end.

Definition plot_intersects (p : plot) : bool :=
  match p with
  | Around => true
  | _ => false
  end.

(** The toy transformer keeps a plot as it is.  As pyproj does, it is
    refused for a latitude beyond the poles and for a NaN. *)
Definition plot_from_crs (_ : unit) (lon lat : float) : result unit :=
  if ((lon =? lon) && (-90 <=? lat) && (lat <=? 90))%float then Ok tt
  else Raise (CRSError "Invalid projection").

Definition plot_sh_transform (_ : unit) (p : plot) : result plot := Ok p.

Definition plot_analyze :=
  analyze_landmark plot unit unit plot_from_crs plot_sh_transform plot_is_valid
    plot_buffer0 plot_distance plot_intersects.

Definition plot_maps : list (string * plot) :=
  [("CAN", Away 100003.7); ("MEX", Torn (Away 2500000.2));
   ("USA", Around); ("XXX", Broken)].

Definition plot_data (resolution : number) : option (WorkerData plot unit) :=
  Some (plot_maps, tt, resolution).

(** A record in New York with four countries to compute and one known. *)
Definition fresh_landmark : gmap string pyval :=
  <["FRA" := PStr "5840000"]>
    (<["XXX" := PNone]> (<["USA" := PNone]> (<["MEX" := PNone]> (<["CAN" := PNone]>
      (ReconcileFacts.landmark_at ReconcileFacts.addr1 (-74.0) 40.7))))).

Definition analyzed_landmark : gmap string pyval :=
  <["USA" := PNum (NInt 0)]> (<["MEX" := PNum (NInt 2500000)]>
    (<["CAN" := PNum (NInt 100000)]> fresh_landmark)).

Lemma plot_analyze_fresh :
  plot_analyze (plot_data (NInt 10)) fresh_landmark = Ok analyzed_landmark.
Proof. vm_refl. Qed.

Lemma plot_analyze_fresh_float_resolution :
  plot_analyze (plot_data (NFloat 10)) fresh_landmark = Ok analyzed_landmark.
Proof. vm_refl. Qed.

Section WithGeometry.
Variables Geometry CRS Transformer : Type.
Variable from_crs : CRS -> float -> float -> result Transformer.
Variable sh_transform : Transformer -> Geometry -> result Geometry.
Variable is_valid : Geometry -> bool.
Variable buffer0 : Geometry -> option Geometry.
Variable distance : Geometry -> float.
Variable intersects : Geometry -> bool.

Abbreviation measured :=
  (projection Geometry CRS Transformer from_crs sh_transform is_valid buffer0).
Abbreviation stored := (stored_distance Geometry distance intersects).

(** C4.  A run that returns has left every known entry as it was, has
    changed only entries that were [None], into numbers, and a run on its
    result returns that same record. *)
Theorem analyze_landmark_idempotent WORKER_DATA landmark landmark' :
  analyze_landmark Geometry CRS Transformer from_crs sh_transform is_valid buffer0
    distance intersects
    WORKER_DATA landmark = Ok landmark' ->
  (forall k v, landmark !! k = Some v -> v <> PNone -> landmark' !! k = Some v) /\
  (forall k, landmark' !! k = landmark !! k \/
             (landmark !! k = Some PNone /\ exists d, landmark' !! k = Some (PNum d))) /\
  analyze_landmark Geometry CRS Transformer from_crs sh_transform is_valid buffer0
    distance intersects
    WORKER_DATA landmark' = Ok landmark'.
Proof.
  intros H.
  apply analyze_landmark_inv in H
    as (maps & map_crs & res & lon & lat & vlon & vlat & to_aeqd & -> &
        Hvlon & Hlon & Hvlat & Hlat & Ht & Hloop).
  split_and!.
  - intros k v. by eapply analyze_loop_keeps.
  - intros k. by eapply analyze_loop_changes.
  - assert (Hklon : landmark' !! "longitude" = Some vlon).
    { eapply analyze_loop_keeps; [exact Hloop | exact Hvlon |].
      by eapply coordinate_not_None. }
    assert (Hklat : landmark' !! "latitude" = Some vlat).
    { eapply analyze_loop_keeps; [exact Hloop | exact Hvlat |].
      by eapply coordinate_not_None. }
    unfold analyze_landmark, getitem.
    rewrite Hklon. cbn [mbind result_bind]. rewrite Hlon. cbn [mbind result_bind].
    rewrite Hklat. cbn [mbind result_bind]. rewrite Hlat. cbn [mbind result_bind].
    rewrite Ht. cbn [mbind result_bind].
    by eapply analyze_loop_idempotent.
Qed.

(** The sign convention and the rounding, for the entry [entry] stored
    for the projected geometry [g]. *)
Definition signed_rounded (resolution : number) (g : Geometry)
    (entry : option pyval) : Prop :=
  exists v m q n p,
    entry = Some (PNum v) /\
    v = (if intersects g then neg m else m) /\
    truediv (distance g) resolution = Ok q /\
    py_round q = Ok n /\ nearest_integer (Prim2SF q) n /\
    int_mul n resolution = Ok p /\ same_number m p /\
    number_nonneg m /\
    (if intersects g then number_nonpos v else number_nonneg v) /\
    (forall r, resolution = NInt r -> m = NInt (n * r)%Z).

(** C5.  For a country whose entry was unknown and whose projected
    geometry is usable, the value stored is the rounded magnitude [m],
    negated exactly when the landmark intersects the geometry: [m] is
    [n] times the resolution as Python multiplies (an [int] when whole),
    [n] being the integer nearest to the quotient of the distance by the
    resolution; [m] is not below zero, so the stored value is not above
    zero inside and not below zero outside; for an [int] resolution [r]
    the magnitude is the exact multiple [n * r]. *)
Theorem analyze_landmark_stores_signed_rounded_distance
    maps map_crs resolution landmark landmark' vlon vlat lon lat iso mapg g :
  NoDup maps.*1 ->
  analyze_landmark Geometry CRS Transformer from_crs sh_transform is_valid buffer0
    distance intersects
    (Some (maps, map_crs, resolution)) landmark = Ok landmark' ->
  landmark !! "longitude" = Some vlon -> coordinate vlon = Ok lon ->
  landmark !! "latitude" = Some vlat -> coordinate vlat = Ok lat ->
  (iso, mapg) ∈ maps ->
  landmark !! iso = Some PNone ->
  measured map_crs lon lat mapg = Ok (Some g) ->
  (0 <=? distance g)%float = true ->
  signed_rounded resolution g (landmark' !! iso).
Proof.
  intros Hnd H Hvlon Hlon Hvlat Hlat Hin Hiso Hproj Hdist. unfold signed_rounded.
  apply analyze_landmark_inv in H
    as (maps' & map_crs' & res' & lon' & lat' & vlon' & vlat' & to_aeqd & [= <- <- <-] &
        Hvlon' & Hlon' & Hvlat' & Hlat' & Ht & Hloop).
  rewrite Hvlon in Hvlon'. injection Hvlon' as <-.
  rewrite Hvlat in Hvlat'. injection Hvlat' as <-.
  rewrite Hlon in Hlon'. injection Hlon' as <-.
  rewrite Hlat in Hlat'. injection Hlat' as <-.
  rewrite (projection_projected _ _ _ _ _ _ _ _ _ _ _ _ Ht) in Hproj.
  destruct (analyze_loop_resolved _ _ _ _ _ _ _ _ _ _ _ _ _ _
              Hnd Hloop Hin Hiso) as (r & Hr & Hv).
  unfold country_distance in Hr. rewrite Hproj in Hr.
  cbn [mbind result_bind] in Hr.
  apply bind_Ok in Hr as (v & Hstored & [= <-]).
  destruct (stored_distance_sign _ _ _ _ _ _ Hdist Hstored)
    as (m & Hm & Hnn & -> & Hsign).
  destruct (round_to_resolution_spec _ _ _ Hm) as (q & n & p & Hq & Hn & Hnear & Hp & Hsame).
  exists (if intersects g then neg m else m), m, q, n, p.
  split_and!; try done.
  intros r ->.
  unfold round_to_resolution in Hm. rewrite Hq in Hm. cbn [mbind result_bind] in Hm.
  rewrite Hn in Hm. simpl in Hm. rewrite Z.eqb_refl in Hm. by injection Hm.
Qed.

(** A run returns when the record has numeric coordinates and a key for
    every country, pyproj builds the projection centred on these
    coordinates and takes through it the map of every country whose
    entry is unknown, and the rounding raises for none of the usable
    projected geometries; a geometry that cannot be used does not stop
    it. *)
Theorem analyze_landmark_returns
    maps map_crs resolution landmark vlon vlat lon lat to_aeqd :
  landmark !! "longitude" = Some vlon -> coordinate vlon = Ok lon ->
  landmark !! "latitude" = Some vlat -> coordinate vlat = Ok lat ->
  from_crs map_crs lon lat = Ok to_aeqd ->
  (forall iso mapg, (iso, mapg) ∈ maps -> is_Some (landmark !! iso)) ->
  (forall iso mapg, (iso, mapg) ∈ maps -> landmark !! iso = Some PNone ->
     is_Ok (sh_transform to_aeqd mapg)) ->
  (forall iso mapg g, (iso, mapg) ∈ maps ->
     measured map_crs lon lat mapg = Ok (Some g) -> is_Ok (stored g resolution)) ->
  is_Ok (analyze_landmark Geometry CRS Transformer from_crs sh_transform is_valid buffer0
    distance intersects
           (Some (maps, map_crs, resolution)) landmark).
Proof.
  intros Hvlon Hlon Hvlat Hlat Ht Hkeys Htrans Hdist.
  unfold analyze_landmark, getitem.
  rewrite Hvlon. cbn [mbind result_bind]. rewrite Hlon. cbn [mbind result_bind].
  rewrite Hvlat. cbn [mbind result_bind]. rewrite Hlat. cbn [mbind result_bind].
  rewrite Ht. cbn [mbind result_bind].
  apply analyze_loop_returns; [done | done |].
  intros iso mapg g Hin Hp. apply (Hdist iso mapg g Hin).
  by rewrite (projection_projected _ _ _ _ _ _ _ _ _ _ _ _ Ht).
Qed.

(** When pyproj refuses the projection centred on the coordinates of the
    record, the run raises what pyproj raises, before it looks at any
    entry: also for a record with nothing left to compute. *)
Lemma analyze_landmark_projection_refused
    maps map_crs resolution landmark vlon vlat lon lat e :
  landmark !! "longitude" = Some vlon -> coordinate vlon = Ok lon ->
  landmark !! "latitude" = Some vlat -> coordinate vlat = Ok lat ->
  from_crs map_crs lon lat = Raise e ->
  analyze_landmark Geometry CRS Transformer from_crs sh_transform is_valid buffer0
    distance intersects (Some (maps, map_crs, resolution)) landmark = Raise e.
Proof.
  intros Hvlon Hlon Hvlat Hlat Ht. unfold analyze_landmark, getitem.
  rewrite Hvlon. cbn [mbind result_bind]. rewrite Hlon. cbn [mbind result_bind].
  rewrite Hvlat. cbn [mbind result_bind]. rewrite Hlat. cbn [mbind result_bind].
  by rewrite Ht.
Qed.

(** A country whose projected map is invalid and is not mended by the
    zero-width buffer is passed over: its entry is still [None] in the
    record the run returns. *)
Theorem analyze_landmark_skips_unusable_geometry
    maps map_crs resolution landmark landmark' vlon vlat lon lat iso mapg :
  NoDup maps.*1 ->
  analyze_landmark Geometry CRS Transformer from_crs sh_transform is_valid buffer0
    distance intersects
    (Some (maps, map_crs, resolution)) landmark = Ok landmark' ->
  landmark !! "longitude" = Some vlon -> coordinate vlon = Ok lon ->
  landmark !! "latitude" = Some vlat -> coordinate vlat = Ok lat ->
  (iso, mapg) ∈ maps ->
  landmark !! iso = Some PNone ->
  measured map_crs lon lat mapg = Ok None ->
  landmark' !! iso = Some PNone.
Proof.
  intros Hnd H Hvlon Hlon Hvlat Hlat Hin Hiso Hproj.
  apply analyze_landmark_inv in H
    as (maps' & map_crs' & res' & lon' & lat' & vlon' & vlat' & to_aeqd & [= <- <- <-] &
        Hvlon' & Hlon' & Hvlat' & Hlat' & Ht & Hloop).
  rewrite Hvlon in Hvlon'. injection Hvlon' as <-.
  rewrite Hvlat in Hvlat'. injection Hvlat' as <-.
  rewrite Hlon in Hlon'. injection Hlon' as <-.
  rewrite Hlat in Hlat'. injection Hlat' as <-.
  rewrite (projection_projected _ _ _ _ _ _ _ _ _ _ _ _ Ht) in Hproj.
  destruct (analyze_loop_resolved _ _ _ _ _ _ _ _ _ _ _ _ _ _
              Hnd Hloop Hin Hiso) as (r & Hr & Hv).
  unfold country_distance in Hr. rewrite Hproj in Hr.
  cbn [mbind result_bind] in Hr. by injection Hr as <-.
Qed.

(** A geometry 100 km (100000 m) from the landmark and not containing
    it, at the default resolution 10: the [int] 100000 is stored. *)
Theorem stored_distance_hundred_km g :
  distance g = 100000%float -> intersects g = false ->
  stored_distance Geometry distance intersects g (NInt 10) = Ok (NInt (10 * 10000)).
Proof.
  intros Hd Hi. unfold stored_distance. rewrite Hd, Hi. vm_refl.
Qed.

Section Laws.
(** What shapely guarantees of a valid geometry: its distance to a point
    is not negative, and is zero when the point intersects it. *)
Hypothesis distance_nonneg :
  forall g, is_valid g = true -> (0 <=? distance g)%float = true.
Hypothesis distance_inside :
  forall g, is_valid g = true -> intersects g = true -> distance g = 0%float.

(** C10.  Whatever number a run puts in place of an unknown entry was
    computed from a usable projected geometry of that country; it is not
    below zero, and it is the integer 0 when the landmark intersects the
    geometry. *)
Theorem analyze_landmark_never_stores_negative
    maps map_crs resolution landmark landmark' vlon vlat lon lat iso v :
  analyze_landmark Geometry CRS Transformer from_crs sh_transform is_valid buffer0
    distance intersects
    (Some (maps, map_crs, resolution)) landmark = Ok landmark' ->
  landmark !! "longitude" = Some vlon -> coordinate vlon = Ok lon ->
  landmark !! "latitude" = Some vlat -> coordinate vlat = Ok lat ->
  landmark !! iso = Some PNone ->
  landmark' !! iso = Some (PNum v) ->
  exists mapg g,
    (iso, mapg) ∈ maps /\
    measured map_crs lon lat mapg = Ok (Some g) /\
    stored g resolution = Ok v /\
    number_nonneg v /\
    (intersects g = true -> distance g = 0%float /\ v = NInt 0).
Proof.
  intros H Hvlon Hlon Hvlat Hlat Hiso Hv.
  apply analyze_landmark_inv in H
    as (maps' & map_crs' & res' & lon' & lat' & vlon' & vlat' & to_aeqd & [= <- <- <-] &
        Hvlon' & Hlon' & Hvlat' & Hlat' & Ht & Hloop).
  rewrite Hvlon in Hvlon'. injection Hvlon' as <-.
  rewrite Hvlat in Hvlat'. injection Hvlat' as <-.
  rewrite Hlon in Hlon'. injection Hlon' as <-.
  rewrite Hlat in Hlat'. injection Hlat' as <-.
  destruct (analyze_loop_provenance _ _ _ _ _ _ _ _ _ _ _ _ _ _
              Hloop Hiso Hv) as (mapg & g & Hin & Hproj & Hstored).
  pose proof (projected_valid _ _ _ _ _ _ _ _ Hproj) as Hvalid.
  exists mapg, g. split_and!; try done.
  { by rewrite (projection_projected _ _ _ _ _ _ _ _ _ _ _ _ Ht). }
  - destruct (intersects g) eqn:Hint.
    + rewrite (stored_distance_inside _ _ _ _ _ _ Hint
                 (distance_inside g Hvalid Hint) Hstored). simpl. lia.
    + destruct (stored_distance_sign _ _ _ _ _ _ (distance_nonneg g Hvalid) Hstored)
        as (m & _ & _ & _ & Hsign).
      by rewrite Hint in Hsign.
  - intros Hint. split; [by apply distance_inside|].
    by eapply stored_distance_inside; [exact Hint | apply distance_inside |].
Qed.

End Laws.

End WithGeometry.

Lemma analyze_landmark_idempotent_witness :
  (forall k v, fresh_landmark !! k = Some v -> v <> PNone ->
               analyzed_landmark !! k = Some v) /\
  (forall k, analyzed_landmark !! k = fresh_landmark !! k \/
             (fresh_landmark !! k = Some PNone /\
              exists d, analyzed_landmark !! k = Some (PNum d))) /\
  plot_analyze (plot_data (NInt 10)) analyzed_landmark = Ok analyzed_landmark.
Proof.
  apply (analyze_landmark_idempotent plot unit unit plot_from_crs plot_sh_transform
           plot_is_valid plot_buffer0 plot_distance plot_intersects
           (plot_data (NInt 10)) fresh_landmark analyzed_landmark).
  vm_refl.
Defined.

Lemma analyze_landmark_stores_signed_rounded_distance_witness :
  signed_rounded plot plot_distance plot_intersects (NInt 10) (Away 100003.7)
    (analyzed_landmark !! "CAN").
Proof.
  apply (analyze_landmark_stores_signed_rounded_distance plot unit unit
           plot_from_crs plot_sh_transform
           plot_is_valid plot_buffer0 plot_distance plot_intersects
           plot_maps tt (NInt 10) fresh_landmark analyzed_landmark
           (PNum (NFloat (-74.0))) (PNum (NFloat 40.7)) (-74.0)%float 40.7%float
           "CAN" (Away 100003.7) (Away 100003.7)).
  - apply (bool_decide_unpack _). vm_compute. exact I.
  - vm_refl.
  - reflexivity.
  - reflexivity.
  - reflexivity.
  - reflexivity.
  - by left.
  - reflexivity.
  - reflexivity.
  - reflexivity.
Defined.

(** The toy geometry keeps shapely's two guarantees. *)
Lemma plot_distance_nonneg g :
  plot_is_valid g = true -> (0 <=? plot_distance g)%float = true.
Proof. destruct g; simpl; done. Qed.

Lemma plot_distance_inside g :
  plot_is_valid g = true -> plot_intersects g = true -> plot_distance g = 0%float.
Proof. destruct g; simpl; done. Qed.

Lemma analyze_landmark_never_stores_negative_witness :
  exists mapg g,
    ("USA", mapg) ∈ plot_maps /\
    projection plot unit unit plot_from_crs plot_sh_transform plot_is_valid
      plot_buffer0 tt (-74.0) 40.7 mapg = Ok (Some g) /\
    stored_distance plot plot_distance plot_intersects g (NInt 10) = Ok (NInt 0) /\
    number_nonneg (NInt 0) /\
    (plot_intersects g = true -> plot_distance g = 0%float /\ NInt 0 = NInt 0).
Proof.
  apply (analyze_landmark_never_stores_negative plot unit unit
           plot_from_crs plot_sh_transform
           plot_is_valid plot_buffer0 plot_distance plot_intersects
           plot_distance_nonneg plot_distance_inside
           plot_maps tt (NInt 10) fresh_landmark analyzed_landmark
           (PNum (NFloat (-74.0))) (PNum (NFloat 40.7)) (-74.0)%float 40.7%float
           "USA" (NInt 0)).
  - vm_refl.
  - reflexivity.
  - reflexivity.
  - reflexivity.
  - reflexivity.
  - reflexivity.
  - reflexivity.
Defined.

Lemma analyze_landmark_returns_witness :
  is_Ok (plot_analyze (plot_data (NInt 10)) fresh_landmark).
Proof.
  apply (analyze_landmark_returns plot unit unit plot_from_crs plot_sh_transform
           plot_is_valid plot_buffer0 plot_distance plot_intersects
           plot_maps tt (NInt 10) fresh_landmark
           (PNum (NFloat (-74.0))) (PNum (NFloat 40.7)) (-74.0)%float 40.7%float tt).
  - reflexivity.
  - reflexivity.
  - reflexivity.
  - reflexivity.
  - reflexivity.
  - intros iso mapg Hin. apply list_elem_of_In in Hin. simpl in Hin.
    destruct Hin as [[= <- <-]|[[= <- <-]|[[= <- <-]|[[= <- <-]|[]]]]]; by eexists.
  - intros iso mapg _ _. by exists mapg.
  - intros iso mapg g Hin. apply list_elem_of_In in Hin. simpl in Hin.
    destruct Hin as [[= <- <-]|[[= <- <-]|[[= <- <-]|[[= <- <-]|[]]]]];
      intros [= <-]; eexists; vm_compute; reflexivity.
Defined.

Lemma analyze_landmark_skips_unusable_geometry_witness :
  analyzed_landmark !! "XXX" = Some PNone.
Proof.
  apply (analyze_landmark_skips_unusable_geometry plot unit unit
           plot_from_crs plot_sh_transform
           plot_is_valid plot_buffer0 plot_distance plot_intersects
           plot_maps tt (NInt 10) fresh_landmark analyzed_landmark
           (PNum (NFloat (-74.0))) (PNum (NFloat 40.7)) (-74.0)%float 40.7%float
           "XXX" Broken).
  - apply (bool_decide_unpack _). vm_compute. exact I.
  - vm_refl.
  - reflexivity.
  - reflexivity.
  - reflexivity.
  - reflexivity.
  - apply list_elem_of_In. simpl. tauto.
  - reflexivity.
  - reflexivity.
Defined.

(** A record whose latitude lies beyond the pole, every distance known:
    the run raises what pyproj raises for that centre. *)
Lemma plot_analyze_beyond_the_pole :
  plot_analyze (plot_data (NInt 10))
    (<["latitude" := PNum (NFloat 95)]> analyzed_landmark)
  = Raise (CRSError "Invalid projection").
Proof. vm_refl. Qed.

Lemma stored_distance_hundred_km_witness :
  stored_distance plot plot_distance plot_intersects (Away 100000) (NInt 10)
    = Ok (NInt (10 * 10000)).
Proof.
  apply (stored_distance_hundred_km plot plot_distance plot_intersects (Away 100000));
    reflexivity.
Defined.

(** A landmark 100 km outside a country, at resolution 10: a positive
    exact multiple of 10, whether the resolution is the default [int] or
    a float given on the command line; inside a country: the integer 0. *)
Lemma hundred_km_outside :
  analyzed_landmark !! "CAN" = Some (PNum (NInt (10 * 10000))) /\
  plot_analyze (plot_data (NFloat 10)) fresh_landmark = Ok analyzed_landmark /\
  analyzed_landmark !! "USA" = Some (PNum (NInt 0)).
Proof. split_and!; vm_refl. Qed.

End AnalyzeFacts.

(** ** The country map builder *)

Module LoadMaps.

(** The lines [load_maps] writes to [sys.stderr], by kind and subject
    (the file name that starts each line is left out). *)
Inductive diag :=
  | UnknownIso (iso : string)
  | DuplicateGU (gu : string)
  | MapError (e : string)
  | NoFeatures (iso name : string)
  | GUNotFound (gu : string)
  | GUInvalid (gu : string)
  | MergeInvalid (iso : string).

(** [rules[iso].append(gu)] on a [defaultdict(list)]. *)
Fixpoint append_to (k v : string) (d : list (string * list string))
    : list (string * list string) :=
  match d with
  | [] => [(k, [v])]
  | (k', vs) :: d' =>
      if decide (k' = k) then (k', vs ++ [v]) :: d' else (k', vs) :: append_to k v d'
  end.

(** [sorted(groups.items())]: the keys are distinct, so the items order
    by key. *)
Fixpoint insert_item {A} (x : string * A) (l : list (string * A)) : list (string * A) :=
  match l with
  | [] => [x]
  | y :: l' => if str_le x.1 y.1 then x :: l else y :: insert_item x l'
  end.

Definition sorted_items {A} (l : list (string * A)) : list (string * A) :=
  foldr insert_item [] l.

(** Calling the value of the property [is_valid], a [bool]. *)
Definition call_bool (b : bool) : result bool :=
  Raise (TypeError "'bool' object is not callable").

Section WithShapely.
(** [Raw] is the geometry of a feature as fiona gives it, [Shape] a
    shapely object. *)
Variables Raw Shape CRS : Type.
Variable asShape : Raw -> Shape.
Variable is_valid : Shape -> bool.
Variable unary_union : list Shape -> Shape.
Variable buffer0 : Shape -> Shape.

(** A feature of the map, with its two properties stripped and in upper
    case. *)
Record Feature := mkFeature {
  GU_A3 : string;
  SOV_A3 : string;
  geometry : Raw
}.

(** What reading the map file amounts to: [fiona.open] or the parsing of
    the reference system raises, or the features come one by one, and the
    iteration may raise after some of them. *)
Inductive MapFile :=
  | OpenFails (e : string)
  | Opened (crs : CRS) (features : list Feature) (fails_after : option string).

(** Lines 401 to 406. *)
Definition check_rule_codes (rules : list (string * list string))
    (ccs : CountryInfoTable) : list diag :=
  flat_map (fun iso => if decide (iso ∈ ccs.*1) then [] else [UnknownIso iso])
    rules.*1.

(** Lines 415 to 434: the state of the loop over the features. *)
Record ReadState := mkReadState {
  all_gus : gmap string Raw;
  add_rules : list (string * list string);
  read_errors : list diag
}.

Definition read_feature (rules : list (string * list string)) (ccs : CountryInfoTable)
    (st : ReadState) (feature : Feature) : ReadState :=
  if decide (GU_A3 feature ∈ dom (all_gus st)) then
    mkReadState (all_gus st) (add_rules st)
      (read_errors st ++ [DuplicateGU (GU_A3 feature)])
  else
    mkReadState (<[GU_A3 feature := geometry feature]> (all_gus st))
      (if decide (SOV_A3 feature ∈ ccs.*1 /\ SOV_A3 feature ∉ rules.*1)
       then append_to (SOV_A3 feature) (GU_A3 feature) (add_rules st)
       else add_rules st)
      (read_errors st).

Definition read_map (rules : list (string * list string)) (ccs : CountryInfoTable)
    (mapcoll : MapFile) : ReadState * option CRS :=
  match mapcoll with
  | OpenFails e => (mkReadState ∅ [] [MapError e], None)
  | Opened crs features fails_after =>
      let st := fold_left (read_feature rules ccs) features (mkReadState ∅ [] []) in
      (match fails_after with
       | Some e => mkReadState (all_gus st) (add_rules st) (read_errors st ++ [MapError e])
       | None => st
       end, Some crs)
  end.

(** Lines 440 to 442. *)
Fixpoint merge_rules (rules add : list (string * list string))
    : result (list (string * list string)) :=
  match add with
  | [] => Ok rules
  | (iso, gus) :: add' =>
      if decide (iso ∈ rules.*1) then Raise AssertionError
      else merge_rules (rules ++ [(iso, gus)]) add'
  end.

(** Lines 444 to 451. *)
Definition check_coverage (rules : list (string * list string))
    (ccs : CountryInfoTable) : list diag :=
  flat_map (fun c => if decide (c.1 ∈ rules.*1) then [] else [NoFeatures c.1 (NAME c.2)])
    ccs.

(** Lines 455 to 477: the state of the loops over the rules.  [geo] is
    the local variable of that name, unbound until a [pop] succeeds. *)
Record GroupState := mkGroupState {
  units : gmap string Raw;
  geo : option Raw;
  group_errors : list diag
}.

(** One geographic unit of a rule (lines 459 to 475). *)
Definition take_unit (st : GroupState * list Shape) (gu : string)
    : GroupState * result (list Shape) :=
  let '(s, grp) := st in
  let s1 :=
    match units s !! gu with
    | Some g => mkGroupState (delete gu (units s)) (Some g) (group_errors s)
    | None => mkGroupState (units s) (geo s) (group_errors s ++ [GUNotFound gu])
    end in
  match geo s1 with
  | None => (s1, Raise (UnboundLocalError "geo"))
  | Some g =>
      let sh := asShape g in
      if is_valid sh then (s1, Ok (grp ++ [sh]))
      else (mkGroupState (units s1) (geo s1) (group_errors s1 ++ [GUInvalid gu]), Ok grp)
  end.

Fixpoint take_units (s : GroupState) (grp : list Shape) (gus : list string)
    : GroupState * result (list Shape) :=
  match gus with
  | [] => (s, Ok grp)
  | gu :: gus' =>
      match take_unit (s, grp) gu with
      | (s1, Ok grp1) => take_units s1 grp1 gus'
      | (s1, Raise e) => (s1, Raise e)
      end
  end.

Fixpoint build_groups (s : GroupState) (groups : list (string * list Shape))
    (rules : list (string * list string))
    : GroupState * result (list (string * list Shape)) :=
  match rules with
  | [] => (s, Ok groups)
  | (iso, gus) :: rules' =>
      match take_units s [] gus with
      | (s1, Ok grp) => build_groups s1 (groups ++ [(iso, grp)]) rules'
      | (s1, Raise e) => (s1, Raise e)
      end
  end.

(** Lines 484 to 496.  The third component is [success]. *)
Fixpoint merge_groups (groups : list (string * list Shape))
    (maps : list (string * Shape)) (errors : list diag) (success : bool)
    : list diag * result (list (string * Shape) * bool) :=
  match groups with
  | [] => (errors, Ok (maps, success))
  | (iso, gus) :: groups' =>
      let sh := unary_union gus in
      if is_valid sh then merge_groups groups' (maps ++ [(iso, sh)]) errors success
      else
        let sh := buffer0 sh in
        match call_bool (is_valid sh) with
        | Raise e => (errors, Raise e)
        | Ok valid =>
            if negb valid
            then merge_groups groups' maps (errors ++ [MergeInvalid iso]) false
            else merge_groups groups' (maps ++ [(iso, sh)]) errors success
        end
  end.

(** [load_maps]: what was written to [sys.stderr], and the outcome. *)
Definition load_maps (mapcoll : MapFile) (rules : list (string * list string))
    (ccs : CountryInfoTable)
    : list diag * result (list (string * Shape) * CRS) :=
  let err1 := check_rule_codes rules ccs in
  let '(rd, map_crs) := read_map rules ccs mapcoll in
  let err2 := err1 ++ read_errors rd in
  match merge_rules rules (add_rules rd) with
  | Raise e => (err2, Raise e)
  | Ok rules =>
      let err3 := err2 ++ check_coverage rules ccs in
      match build_groups (mkGroupState (all_gus rd) None err3) [] rules with
      | (s, Raise e) => (group_errors s, Raise e)
      | (s, Ok groups) =>
          if negb (bool_decide (group_errors s = [])) then
            (group_errors s, Raise (SystemExit (ExitCode 1)))
          else
            match merge_groups (sorted_items groups) [] (group_errors s) true with
            | (err, Raise e) => (err, Raise e)
            | (err, Ok (maps, success)) =>
                if negb success then (err, Raise (SystemExit (ExitCode 1)))
                else match map_crs with
                     | Some crs => (err, Ok (maps, crs))
                     | None => (err, Raise (UnboundLocalError "map_crs"))
                     end
            end
      end
  end.

End WithShapely.

End LoadMaps.

(** ** Properties of the country map builder *)

Module LoadMapsFacts.
Import LoadMaps.

Section WithShapely.
Variables Raw Shape CRS : Type.
Variable asShape : Raw -> Shape.
Variable is_valid : Shape -> bool.
Variable unary_union : list Shape -> Shape.
Variable buffer0 : Shape -> Shape.

Lemma flat_map_nil {A B} (f : A -> list B) (l : list A) x :
  flat_map f l = [] -> x ∈ l -> f x = [].
Proof.
  induction l as [|y l IH]; simpl; intros H Hin; [by apply elem_of_nil in Hin|].
  apply app_eq_nil in H as [Hy Hl].
  apply elem_of_cons in Hin as [->|Hin]; [done | by apply IH].
Qed.

Lemma check_rule_codes_nil rules ccs iso :
  check_rule_codes rules ccs = [] -> iso ∈ rules.*1 -> iso ∈ ccs.*1.
Proof.
  intros H Hin. pose proof (flat_map_nil _ _ _ H Hin) as Hf. simpl in Hf.
  by case_decide.
Qed.

Lemma check_coverage_nil rules ccs iso :
  check_coverage rules ccs = [] -> iso ∈ ccs.*1 -> iso ∈ rules.*1.
Proof.
  intros H (c & -> & Hin)%list_elem_of_fmap.
  pose proof (flat_map_nil _ _ _ H Hin) as Hf. simpl in Hf. by case_decide.
Qed.

Lemma append_to_keys k v d :
  (append_to k v d).*1 = if decide (k ∈ d.*1) then d.*1 else d.*1 ++ [k].
Proof.
  induction d as [|[k' vs] d IH]; cbn [append_to fmap list_fmap].
  - case_decide as Hin; [by apply elem_of_nil in Hin | done].
  - destruct (decide (k' = k)) as [->|Hne]; cbn [fmap list_fmap fst].
    + rewrite decide_True; [done | by left].
    + rewrite IH. destruct (decide (k ∈ d.*1)) as [Hin|Hnin].
      * rewrite decide_True; [done | by right].
      * rewrite decide_False; [done|]. intros [?|?]%elem_of_cons; done.
Qed.

(** The implicit rules are for countries of the table without a rule. *)
Definition implicit_ok (rules : list (string * list string)) (ccs : CountryInfoTable)
    (add : list (string * list string)) : Prop :=
  NoDup add.*1 /\ forall k, k ∈ add.*1 -> k ∈ ccs.*1 /\ k ∉ rules.*1.

Lemma read_feature_implicit rules ccs st feature :
  implicit_ok rules ccs (add_rules Raw st) ->
  implicit_ok rules ccs (add_rules Raw (read_feature Raw rules ccs st feature)).
Proof.
  intros [Hnd Hin]. unfold read_feature. case_decide; [done|]. simpl.
  case_decide as Hsov; [|done]. split.
  - rewrite append_to_keys. case_decide; [done|].
    apply NoDup_app. split_and!; [done | | apply NoDup_singleton].
    intros x Hx ->%list_elem_of_singleton. done.
  - intros k. rewrite append_to_keys. case_decide; [by apply Hin|].
    intros [Hk| ->%list_elem_of_singleton]%elem_of_app; [by apply Hin | exact Hsov].
Qed.

Lemma read_map_implicit rules ccs mapcoll :
  implicit_ok rules ccs (add_rules Raw (read_map Raw CRS rules ccs mapcoll).1).
Proof.
  assert (Hnil : implicit_ok rules ccs []).
  { split; [constructor | by intros k ?%elem_of_nil]. }
  destruct mapcoll as [e|crs features fails_after]; simpl; [done|].
  assert (H : implicit_ok rules ccs
                (add_rules Raw (fold_left (read_feature Raw rules ccs) features
                                  (mkReadState Raw ∅ [] [])))).
  { assert (Hgen : forall st, implicit_ok rules ccs (add_rules Raw st) ->
              implicit_ok rules ccs
                (add_rules Raw (fold_left (read_feature Raw rules ccs) features st))).
    { induction features as [|f features IH]; intros st Hst; simpl; [done|].
      apply IH. by apply read_feature_implicit. }
    by apply Hgen. }
  by destruct fails_after.
Qed.

Lemma merge_rules_keys rules add rules' :
  merge_rules rules add = Ok rules' ->
  rules'.*1 = rules.*1 ++ add.*1 /\ (NoDup rules.*1 -> NoDup rules'.*1).
Proof.
  revert rules. induction add as [|[iso gus] add IH]; intros rules; simpl.
  - intros [= <-]. by rewrite app_nil_r.
  - case_decide as Hin; [done|]. intros [Hkeys Hnd]%IH. split.
    + rewrite Hkeys, fmap_app. simpl. by rewrite <- app_assoc.
    + intros Hr. apply Hnd. rewrite fmap_app. apply NoDup_app. split_and!; [done| |].
      * intros x Hx ->%list_elem_of_singleton. done.
      * apply NoDup_singleton.
Qed.

Abbreviation take1 := (take_unit Raw Shape asShape is_valid).
Abbreviation takes := (take_units Raw Shape asShape is_valid).
Abbreviation build := (build_groups Raw Shape asShape is_valid).
Abbreviation errors := (group_errors Raw).
Abbreviation index := (units Raw).

(** The errors only grow. *)
Lemma take_unit_errors s grp gu s1 r :
  take1 (s, grp) gu = (s1, r) -> errors s `prefix_of` errors s1.
Proof.
  unfold take_unit.
  destruct (index s !! gu) as [g|]; simpl.
  - destruct (is_valid (asShape g)); intros [= <- <-]; simpl;
      [done | by apply prefix_app_r].
  - destruct (geo Raw s) as [g|]; simpl.
    + destruct (is_valid (asShape g)); intros [= <- <-]; simpl.
      * by apply prefix_app_r.
      * rewrite <- app_assoc. by apply prefix_app_r.
    + intros [= <- <-]. simpl. by apply prefix_app_r.
Qed.

(** A unit taken without a new error was in the index and is gone
    from it. *)
Lemma take_unit_clean s grp gu s1 grp1 :
  take1 (s, grp) gu = (s1, Ok grp1) ->
  errors s1 = errors s ->
  gu ∈ dom (index s) /\ index s1 = delete gu (index s).
Proof.
  unfold take_unit.
  destruct (index s !! gu) as [g|] eqn:Hg; simpl.
  - destruct (is_valid (asShape g)) eqn:Hv; intros [= <- <-]; simpl; intros He.
    + split; [apply elem_of_dom; eauto | done].
    + exfalso. apply (f_equal length) in He. rewrite length_app in He. simpl in He. lia.
  - destruct (geo Raw s) as [g|]; simpl.
    + destruct (is_valid (asShape g)); intros [= <- <-]; simpl; intros He;
        exfalso; apply (f_equal length) in He; rewrite !length_app in He;
        simpl in He; lia.
    + done.
Qed.

Lemma take_units_errors s grp gus s1 r :
  takes s grp gus = (s1, r) -> errors s `prefix_of` errors s1.
Proof.
  revert s grp. induction gus as [|gu gus IH]; intros s grp; cbn [take_units].
  - by intros [= <- <-].
  - destruct (take1 (s, grp) gu) as [s' [grp'|e]] eqn:Hstep.
    + intros H. etrans; [by eapply take_unit_errors | by eapply IH].
    + intros [= <- <-]. by eapply take_unit_errors.
Qed.

Lemma prefix_squeeze {A} (l1 l2 l3 : list A) :
  l1 `prefix_of` l2 -> l2 `prefix_of` l3 -> l3 = l1 -> l2 = l1.
Proof.
  intros [k1 ->] [k2 ->] H. apply (f_equal length) in H.
  rewrite !length_app in H. destruct k1; [by rewrite app_nil_r | simpl in H; lia].
Qed.

Lemma take_units_clean s grp gus s1 grp1 :
  takes s grp gus = (s1, Ok grp1) ->
  errors s1 = errors s ->
  NoDup gus /\ (forall gu, gu ∈ gus -> gu ∈ dom (index s)) /\
  dom (index s1) = dom (index s) ∖ list_to_set gus.
Proof.
  revert s grp. induction gus as [|gu gus IH]; intros s grp; cbn [take_units].
  - intros [= <- <-] _. split_and!; [constructor | by intros ? ?%elem_of_nil | set_solver].
  - destruct (take1 (s, grp) gu) as [s' [grp'|e]] eqn:Hstep; [|done].
    intros Hrest Herr.
    pose proof (take_unit_errors _ _ _ _ _ Hstep) as Hp1.
    pose proof (take_units_errors _ _ _ _ _ Hrest) as Hp2.
    pose proof (prefix_squeeze _ _ _ Hp1 Hp2 Herr) as Herr1.
    destruct (take_unit_clean _ _ _ _ _ Hstep Herr1) as (Hgu & Hunits).
    destruct (IH _ _ Hrest) as (Hnd & Hin & Hdom); [congruence|].
    rewrite Hunits, dom_delete_L in Hdom, Hin.
    split_and!.
    + constructor; [|done]. intros Hgu'. specialize (Hin _ Hgu'). set_solver.
    + intros gu' [->|Hgu']%elem_of_cons; [done|].
      specialize (Hin _ Hgu'). set_solver.
    + rewrite Hdom. set_solver.
Qed.

Lemma build_groups_errors s groups rules s1 r :
  build s groups rules = (s1, r) -> errors s `prefix_of` errors s1.
Proof.
  revert s groups. induction rules as [|[iso gus] rules IH]; intros s groups;
    cbn [build_groups fmap list_fmap mjoin list_join snd fst].
  - by intros [= <- <-].
  - destruct (takes s [] gus) as [s' [grp|e]] eqn:Hstep.
    + intros H. etrans; [by eapply take_units_errors | by eapply IH].
    + intros [= <- <-]. by eapply take_units_errors.
Qed.

(** Groups built without a new error: one per rule, in the order of the
    rules, and no unit is named twice. *)
Lemma build_groups_clean s groups rules s1 groups1 :
  build s groups rules = (s1, Ok groups1) ->
  errors s1 = errors s ->
  groups1.*1 = groups.*1 ++ rules.*1 /\
  NoDup (mjoin rules.*2) /\
  (forall gu, gu ∈ mjoin rules.*2 -> gu ∈ dom (index s)) /\
  dom (index s1) = dom (index s) ∖ list_to_set (mjoin rules.*2).
Proof.
  revert s groups. induction rules as [|[iso gus] rules IH]; intros s groups;
    cbn [build_groups fmap list_fmap mjoin list_join snd fst].
  - intros [= <- <-] _. rewrite app_nil_r.
    split_and!; [done | constructor | by intros ? ?%elem_of_nil | set_solver].
  - destruct (takes s [] gus) as [s' [grp|e]] eqn:Hstep; [|done].
    intros Hrest Herr.
    pose proof (take_units_errors _ _ _ _ _ Hstep) as Hp1.
    pose proof (build_groups_errors _ _ _ _ _ Hrest) as Hp2.
    pose proof (prefix_squeeze _ _ _ Hp1 Hp2 Herr) as Herr1.
    destruct (take_units_clean _ _ _ _ _ Hstep Herr1) as (Hnd & Hin & Hdom).
    destruct (IH _ _ Hrest) as (Hkeys & Hnd' & Hin' & Hdom'); [congruence|].
    rewrite Hdom in Hin', Hdom'.
    split_and!.
    + rewrite Hkeys, fmap_app. simpl. by rewrite <- app_assoc.
    + apply NoDup_app. split_and!; [done | | done].
      intros gu Hgu Hgu'. specialize (Hin' _ Hgu'). set_solver.
    + intros gu [Hgu|Hgu]%elem_of_app; [by apply Hin|].
      specialize (Hin' _ Hgu). set_solver.
    + rewrite Hdom'. set_solver.
Qed.

(** [sorted_items] *)
Lemma insert_item_perm {A} (x : string * A) l : insert_item x l ≡ₚ x :: l.
Proof.
  induction l as [|y l IH]; simpl; [done|].
  destruct (str_le x.1 y.1); [done|]. rewrite IH. apply perm_swap.
Qed.

Lemma sorted_items_perm {A} (l : list (string * A)) : sorted_items l ≡ₚ l.
Proof.
  induction l as [|x l IH]; [done|].
  unfold sorted_items in *. simpl. by rewrite insert_item_perm, IH.
Qed.

(** The merge returns only when every union is valid as it stands. *)
Lemma merge_groups_Ok groups maps errs success err maps1 success1 :
  merge_groups Shape is_valid unary_union buffer0 groups maps errs success
    = (err, Ok (maps1, success1)) ->
  err = errs /\ success1 = success /\
  maps1 = maps ++ ((fun g => (g.1, unary_union g.2)) <$> groups) /\
  Forall (fun g => is_valid (unary_union g.2) = true) groups.
Proof.
  revert maps. induction groups as [|[iso gus] groups IH]; intros maps; simpl.
  - intros [= <- <- <-]. by rewrite app_nil_r.
  - destruct (is_valid (unary_union gus)) eqn:Hv; [|done].
    intros (-> & -> & -> & Hall)%IH. split_and!; [done | done | | by constructor].
    by rewrite <- app_assoc.
Qed.

Lemma union_keys (groups : list (string * list Shape)) :
  ((fun g => (g.1, unary_union g.2)) <$> groups).*1 = groups.*1.
Proof. induction groups as [|g groups IH]; simpl; [done | by f_equal]. Qed.

(** What a run that returns went through. *)
Lemma load_maps_Ok mapcoll rules ccs stderr maps crs :
  load_maps Raw Shape CRS asShape is_valid unary_union buffer0 mapcoll rules ccs
    = (stderr, Ok (maps, crs)) ->
  exists rules' s groups,
    stderr = [] /\
    check_rule_codes rules ccs = [] /\
    merge_rules rules (add_rules Raw (read_map Raw CRS rules ccs mapcoll).1) = Ok rules' /\
    check_coverage rules' ccs = [] /\
    build (mkGroupState Raw (all_gus Raw (read_map Raw CRS rules ccs mapcoll).1) None [])
      [] rules' = (s, Ok groups) /\
    errors s = [] /\
    maps = (fun g => (g.1, unary_union g.2)) <$> sorted_items groups /\
    Forall (fun g => is_valid (unary_union g.2) = true) (sorted_items groups).
Proof.
  unfold load_maps.
  destruct (read_map Raw CRS rules ccs mapcoll) as [rd map_crs] eqn:Hread.
  destruct (merge_rules rules (add_rules Raw rd)) as [rules'|e] eqn:Hmerge; [|done].
  cbn [fst].
  destruct (build_groups _ _ _ _ _ [] rules') as [s [groups|e]] eqn:Hbuild; [|done].
  case_bool_decide as Herr; [|done]. cbn [negb].
  destruct (merge_groups _ _ _ _ _ [] _ true) as [err [[maps' success]|e]] eqn:Hmg; [|done].
  apply merge_groups_Ok in Hmg as (-> & -> & -> & Hvalid). cbn [negb].
  destruct map_crs as [crs'|]; [|done]. intros [= <- <- <-].
  pose proof (build_groups_errors _ _ _ _ _ Hbuild) as Hpre. cbn [group_errors] in Hpre.
  rewrite Herr in Hpre. apply prefix_nil_inv in Hpre.
  apply app_eq_nil in Hpre as [Hpre Hcov]. apply app_eq_nil in Hpre as [Hcodes Hread'].
  rewrite Hcodes, Hread', Hcov in Hbuild. simpl in Hbuild.
  exists rules', s, groups. split_and!; try done.
Qed.

(** A run of [load_maps] that returns has written no error line and
    returns, for exactly the country codes of the table, one geometry
    each, valid as [unary_union] made it. *)
Theorem load_maps_returns_whole_map mapcoll rules ccs stderr maps crs :
  NoDup rules.*1 ->
  load_maps Raw Shape CRS asShape is_valid unary_union buffer0 mapcoll rules ccs
    = (stderr, Ok (maps, crs)) ->
  stderr = [] /\ NoDup maps.*1 /\
  (forall iso, iso ∈ maps.*1 <-> iso ∈ ccs.*1) /\
  Forall (fun m => is_valid m.2 = true) maps.
Proof.
  intros Hnd (rules' & s & groups & -> & Hcodes & Hmerge & Hcov & Hbuild & Herr &
              -> & Hvalid)%load_maps_Ok.
  destruct (merge_rules_keys _ _ _ Hmerge) as [Hkeys Hnd'].
  destruct (build_groups_clean _ _ _ _ _ Hbuild Herr) as (Hgroups & _).
  simpl in Hgroups.
  pose proof (read_map_implicit rules ccs mapcoll) as [_ Himp].
  assert (Hperm : ((fun g => (g.1, unary_union g.2)) <$> sorted_items groups).*1
                  ≡ₚ rules'.*1).
  { rewrite union_keys. by rewrite sorted_items_perm, Hgroups. }
  split_and!; [done | | |].
  - rewrite Hperm. by apply Hnd'.
  - intros iso. rewrite Hperm. split.
    + rewrite Hkeys. intros [Hin|Hin]%elem_of_app.
      * by eapply check_rule_codes_nil.
      * by apply Himp.
    + by apply check_coverage_nil.
  - apply Forall_fmap. eapply Forall_impl; [exact Hvalid|]. done.
Qed.

(** A run of [load_maps] that returns has found every unit its rules
    name in the map, and no unit is named twice, in one rule or in two:
    a unit belongs to at most one country. *)
Theorem load_maps_assigns_each_unit_once mapcoll rules ccs stderr maps crs :
  load_maps Raw Shape CRS asShape is_valid unary_union buffer0 mapcoll rules ccs
    = (stderr, Ok (maps, crs)) ->
  exists rules',
    merge_rules rules (add_rules Raw (read_map Raw CRS rules ccs mapcoll).1) = Ok rules' /\
    NoDup (mjoin rules'.*2) /\
    (forall gu, gu ∈ mjoin rules'.*2 ->
       gu ∈ dom (all_gus Raw (read_map Raw CRS rules ccs mapcoll).1)).
Proof.
  intros (rules' & s & groups & -> & Hcodes & Hmerge & Hcov & Hbuild & Herr &
          -> & Hvalid)%load_maps_Ok.
  destruct (build_groups_clean _ _ _ _ _ Hbuild Herr) as (_ & Hnd & Hin & _).
  exists rules'. split_and!; done.
Qed.
(** *** The geometry of a country *)

(** [sh] is the shape of the unit [gu] of the map, and is valid. *)
Definition taken (idx : gmap string Raw) (gu : string) (sh : Shape) : Prop :=
  exists g, idx !! gu = Some g /\ sh = asShape g /\ is_valid sh = true.

Lemma take_unit_shape s grp gu s1 grp1 :
  take1 (s, grp) gu = (s1, Ok grp1) ->
  errors s1 = errors s ->
  index s1 ⊆ index s /\ exists sh, grp1 = grp ++ [sh] /\ taken (index s) gu sh.
Proof.
  unfold take_unit.
  destruct (index s !! gu) as [g|] eqn:Hg; simpl.
  - destruct (is_valid (asShape g)) eqn:Hv; intros [= <- <-]; simpl; intros He.
    + split; [apply delete_subseteq|]. exists (asShape g). split; [done|]. by exists g.
    + exfalso. apply (f_equal length) in He. rewrite length_app in He. simpl in He. lia.
  - destruct (geo Raw s) as [g|]; simpl.
    + destruct (is_valid (asShape g)); intros [= <- <-]; simpl; intros He;
        exfalso; apply (f_equal length) in He; rewrite !length_app in He;
        simpl in He; lia.
    + done.
Qed.

Lemma taken_weaken idx1 idx2 gu sh : idx1 ⊆ idx2 -> taken idx1 gu sh -> taken idx2 gu sh.
Proof.
  intros Hsub (g & Hg & Hsh & Hv). exists g. split_and!; [|done..].
  by eapply lookup_weaken.
Qed.

Lemma take_units_shapes s grp gus s1 grp1 :
  takes s grp gus = (s1, Ok grp1) ->
  errors s1 = errors s ->
  index s1 ⊆ index s /\
  exists shapes, grp1 = grp ++ shapes /\ Forall2 (taken (index s)) gus shapes.
Proof.
  revert s grp. induction gus as [|gu gus IH]; intros s grp; cbn [take_units].
  - intros [= <- <-] _. split; [done|]. exists []. by rewrite app_nil_r.
  - destruct (take1 (s, grp) gu) as [s' [grp'|e]] eqn:Hstep; [|done].
    intros Hrest Herr.
    pose proof (take_unit_errors _ _ _ _ _ Hstep) as Hp1.
    pose proof (take_units_errors _ _ _ _ _ Hrest) as Hp2.
    pose proof (prefix_squeeze _ _ _ Hp1 Hp2 Herr) as Herr1.
    destruct (take_unit_shape _ _ _ _ _ Hstep Herr1) as (Hsub & sh & -> & Hsh).
    destruct (IH _ _ Hrest) as (Hsub' & shapes & -> & Hall); [congruence|].
    split; [by etrans|]. exists (sh :: shapes). rewrite <- app_assoc. split; [done|].
    constructor; [done|]. eapply Forall2_impl; [exact Hall|].
    intros gu' sh'. by apply taken_weaken.
Qed.

(** The group built for a rule: the shapes of its units, in order. *)
Definition group_of (idx : gmap string Raw) (rule : string * list string)
    (grp : string * list Shape) : Prop :=
  grp.1 = rule.1 /\ Forall2 (taken idx) rule.2 grp.2.

Lemma build_groups_shapes s groups rules s1 groups1 :
  build s groups rules = (s1, Ok groups1) ->
  errors s1 = errors s ->
  exists new, groups1 = groups ++ new /\ Forall2 (group_of (index s)) rules new.
Proof.
  revert s groups. induction rules as [|[iso gus] rules IH]; intros s groups;
    cbn [build_groups].
  - intros [= <- <-] _. exists []. by rewrite app_nil_r.
  - destruct (takes s [] gus) as [s' [grp|e]] eqn:Hstep; [|done].
    intros Hrest Herr.
    pose proof (take_units_errors _ _ _ _ _ Hstep) as Hp1.
    pose proof (build_groups_errors _ _ _ _ _ Hrest) as Hp2.
    pose proof (prefix_squeeze _ _ _ Hp1 Hp2 Herr) as Herr1.
    destruct (take_units_shapes _ _ _ _ _ Hstep Herr1) as (Hsub & shapes & -> & Hall).
    destruct (IH _ _ Hrest) as (new & -> & Hnew); [congruence|].
    exists ((iso, shapes) :: new). rewrite <- app_assoc. split; [done|].
    constructor; [by split|]. eapply Forall2_impl; [exact Hnew|].
    intros rule grp [Hk Hg]. split; [done|]. eapply Forall2_impl; [exact Hg|].
    intros gu sh. by apply taken_weaken.
Qed.

(** The geometry [load_maps] returns for a country is the union of the
    shapes of the units its rule names, in the order of the rule, each
    of them valid: an invalid unit, or a union that is invalid, is never
    handed back, mended or not. *)
Theorem load_maps_unions_named_units mapcoll rules ccs stderr maps crs iso sh :
  load_maps Raw Shape CRS asShape is_valid unary_union buffer0 mapcoll rules ccs
    = (stderr, Ok (maps, crs)) ->
  (iso, sh) ∈ maps ->
  exists rules' gus shapes,
    merge_rules rules (add_rules Raw (read_map Raw CRS rules ccs mapcoll).1) = Ok rules' /\
    (iso, gus) ∈ rules' /\
    Forall2 (taken (all_gus Raw (read_map Raw CRS rules ccs mapcoll).1)) gus shapes /\
    sh = unary_union shapes /\ is_valid sh = true.
Proof.
  intros (rules' & s & groups & -> & Hcodes & Hmerge & Hcov & Hbuild & Herr &
          -> & Hvalid)%load_maps_Ok Hin.
  apply list_elem_of_fmap in Hin as ([iso' shapes] & [= -> ->] & Hin).
  rewrite Forall_forall in Hvalid. specialize (Hvalid _ Hin). cbn [snd] in Hvalid.
  rewrite sorted_items_perm in Hin.
  destruct (build_groups_shapes _ _ _ _ _ Hbuild Herr) as (new & -> & Hnew).
  cbn [app] in Hin. apply list_elem_of_lookup in Hin as [n Hn].
  destruct (Forall2_lookup_r _ _ _ _ _ Hnew Hn) as ([iso0 gus] & Hrule & [Hk Hg]).
  cbn [fst snd] in Hk, Hg. subst iso0.
  exists rules', gus, shapes. split_and!; try done.
  by eapply list_elem_of_lookup_2.
Qed.

(** *** When the map is built *)

Lemma check_rule_codes_all rules ccs :
  (forall iso, iso ∈ rules.*1 -> iso ∈ ccs.*1) -> check_rule_codes rules ccs = [].
Proof.
  unfold check_rule_codes. induction rules.*1 as [|iso isos IH]; intros H; [done|].
  cbn [flat_map]. rewrite decide_True by (apply H; by left).
  apply IH. intros k Hk. apply H. by right.
Qed.

Lemma check_coverage_all rules ccs :
  (forall iso, iso ∈ ccs.*1 -> iso ∈ rules.*1) -> check_coverage rules ccs = [].
Proof.
  unfold check_coverage. induction ccs as [|c ccs IH]; intros H; [done|].
  cbn [flat_map]. rewrite decide_True by (apply H; by left).
  apply IH. intros k Hk. apply H. by right.
Qed.

(** The assertion of line 441 holds: an implicit rule is made only for a
    country without a rule. *)
Lemma merge_rules_Ok rules ccs add :
  implicit_ok rules ccs add -> merge_rules rules add = Ok (rules ++ add).
Proof.
  revert rules. induction add as [|[iso gus] add IH]; intros rules [Hnd Hin];
    cbn [merge_rules].
  - by rewrite app_nil_r.
  - cbn [fmap list_fmap fst] in Hnd, Hin. apply NoDup_cons in Hnd as [Hiso Hnd].
    rewrite decide_False by (apply Hin; by left).
    rewrite IH; [by rewrite <- app_assoc|]. split; [done|].
    intros k Hk. destruct (Hin k) as [Hc Hr]; [by right|]. split; [done|].
    rewrite fmap_app. intros [?|Hk']%elem_of_app; [done|].
    apply list_elem_of_singleton in Hk'. simpl in Hk'. by subst.
Qed.

(** The features are read without a report when no code comes twice. *)
Lemma read_features_errors rules ccs features st :
  read_errors Raw st `prefix_of`
    read_errors Raw (fold_left (read_feature Raw rules ccs) features st).
Proof.
  revert st. induction features as [|f features IH]; intros st; cbn [fold_left]; [done|].
  etrans; [|apply IH]. unfold read_feature. case_decide; [|done].
  by apply prefix_app_r.
Qed.

Lemma read_features_clean rules ccs features st :
  read_errors Raw (fold_left (read_feature Raw rules ccs) features st)
    = read_errors Raw st <->
  NoDup (GU_A3 Raw <$> features) /\
  forall f, f ∈ features -> GU_A3 Raw f ∉ dom (all_gus Raw st).
Proof.
  revert st. induction features as [|f features IH]; intros st; cbn [fold_left].
  - split; [|done]. intros _. split; [constructor | by intros f ?%elem_of_nil].
  - cbn [fmap list_fmap]. rewrite NoDup_cons.
    set (st1 := read_feature Raw rules ccs st f).
    pose proof (read_features_errors rules ccs features st1) as Hpre.
    destruct (decide (GU_A3 Raw f ∈ dom (all_gus Raw st))) as [Hdup|Hnew].
    + assert (He : read_errors Raw st1
                   = read_errors Raw st ++ [DuplicateGU (GU_A3 Raw f)]).
      { unfold st1, read_feature. by rewrite decide_True. }
      split.
      * intros Heq. exfalso. destruct Hpre as [k Hk]. rewrite Heq, He in Hk.
        apply (f_equal length) in Hk. rewrite !length_app in Hk. simpl in Hk. lia.
      * intros [_ Hall]. exfalso. apply (Hall f); [by left | done].
    + assert (He : read_errors Raw st1 = read_errors Raw st).
      { unfold st1, read_feature. by rewrite decide_False. }
      assert (Hg : all_gus Raw st1 = <[GU_A3 Raw f := geometry Raw f]> (all_gus Raw st)).
      { unfold st1, read_feature. by rewrite decide_False. }
      rewrite <- He, IH, Hg, dom_insert_L. split.
      * intros [Hnd Hall]. split_and!; [|done|].
        -- intros (f' & Heq & Hin)%list_elem_of_fmap.
           apply (Hall f' Hin). rewrite <- Heq. set_solver.
        -- intros f' [->|Hin]%elem_of_cons; [done|].
           specialize (Hall f' Hin). set_solver.
      * intros [[Hf Hnd] Hall]. split; [done|].
        intros f' Hin. apply not_elem_of_union. split; [|apply Hall; by right].
        intros Heq%elem_of_singleton. apply Hf. apply list_elem_of_fmap. by exists f'.
Qed.

Lemma read_map_clean rules ccs mapcoll crs :
  (read_errors Raw (read_map Raw CRS rules ccs mapcoll).1 = [] /\
   (read_map Raw CRS rules ccs mapcoll).2 = Some crs) <->
  exists features,
    mapcoll = Opened Raw CRS crs features None /\ NoDup (GU_A3 Raw <$> features).
Proof.
  destruct mapcoll as [e|crs' features [e|]]; cbn [read_map fst snd read_errors].
  - split; [by intros [? _] | by intros (? & ? & _)].
  - split; [|by intros (? & ? & _)]. intros [H _]. by apply app_eq_nil in H as [_ ?].
  - pose proof (read_features_clean rules ccs features (mkReadState Raw ∅ [] [])) as H.
    cbn [read_errors all_gus] in H. rewrite H. split.
    + intros [[Hnd _] [= ->]]. by exists features.
    + intros (features' & [= -> ->] & Hnd). split_and!; [done | | done].
      intros f _. rewrite dom_empty_L. apply not_elem_of_empty.
Qed.

Lemma taken_agree idx idx' gus shapes :
  (forall k, k ∈ gus -> idx' !! k = idx !! k) ->
  Forall2 (taken idx) gus shapes -> Forall2 (taken idx') gus shapes.
Proof.
  intros Hagree Hall. induction Hall as [|gu sh gus shapes (g & Hg & Hsh & Hv) _ IH].
  - constructor.
  - constructor.
    + exists g. split_and!; [|done..]. rewrite Hagree; [done | by left].
    + apply IH. intros k Hk. apply Hagree. by right.
Qed.

Lemma take_units_complete gus : forall s grp shapes,
  NoDup gus ->
  Forall2 (taken (index s)) gus shapes ->
  exists s', takes s grp gus = (s', Ok (grp ++ shapes)) /\
             errors s' = errors s /\
             forall k, k ∉ gus -> index s' !! k = index s !! k.
Proof.
  induction gus as [|gu gus IH]; intros s grp shapes Hnd Hall.
  - apply Forall2_nil_inv_l in Hall as ->. exists s. by rewrite app_nil_r.
  - apply Forall2_cons_inv_l in Hall as (sh & shapes' & (g & Hg & -> & Hv) & Hall & ->).
    apply NoDup_cons in Hnd as [Hgu Hnd].
    cbn [take_units]. unfold take_unit at 1. rewrite Hg. cbn [geo]. rewrite Hv.
    set (s1 := mkGroupState Raw (delete gu (index s)) (Some g) (errors s)).
    destruct (IH s1 (grp ++ [asShape g]) shapes' Hnd) as (s' & -> & Herr & Hidx).
    { apply (taken_agree (index s)); [|done]. intros k Hk. cbn [units s1].
      apply lookup_delete_ne. by intros ->. }
    exists s'. rewrite <- app_assoc. split_and!; [done | done |].
    intros k Hk. apply not_elem_of_cons in Hk as [Hne Hk].
    rewrite Hidx by done. cbn [units s1]. by apply lookup_delete_ne.
Qed.

Lemma build_groups_complete rules : forall s groups new,
  NoDup (mjoin rules.*2) ->
  Forall2 (group_of (index s)) rules new ->
  exists s', build s groups rules = (s', Ok (groups ++ new)) /\ errors s' = errors s.
Proof.
  induction rules as [|[iso gus] rules IH]; intros s groups new Hnd Hall.
  - apply Forall2_nil_inv_l in Hall as ->. exists s. by rewrite app_nil_r.
  - apply Forall2_cons_inv_l in Hall as ([iso' shapes] & new' & [Hk Hg] & Hall & ->).
    cbn [fst snd] in Hk, Hg. subst iso'.
    cbn [fmap list_fmap snd mjoin list_join] in Hnd.
    apply NoDup_app in Hnd as (Hnd1 & Hdisj & Hnd2).
    destruct (take_units_complete gus s [] shapes Hnd1 Hg) as (s1 & Htake & Herr & Hidx).
    cbn [build_groups]. rewrite Htake. cbn [app].
    destruct (IH s1 (groups ++ [(iso, shapes)]) new' Hnd2) as (s' & -> & Herr').
    { eapply Forall2_impl; [|].
      2:{ intros rule grp Hgrp. exact Hgrp. }
      clear -Hall Hidx Hdisj.
      induction Hall as [|rule grp rules new [Hk Hg] _ IH]; [constructor|].
      cbn [fmap list_fmap snd mjoin list_join] in Hdisj.
      constructor.
      - split; [done|]. apply (taken_agree (index s)); [|done].
        intros k Hk'. apply Hidx. intros Hin. apply (Hdisj k Hin).
        apply elem_of_app. by left.
      - apply IH. intros k Hin Hk'. apply (Hdisj k Hin). apply elem_of_app. by right. }
    exists s'. rewrite <- app_assoc. split; [done | congruence].
Qed.

Lemma merge_groups_complete groups maps errs success :
  Forall (fun g => is_valid (unary_union g.2) = true) groups ->
  merge_groups Shape is_valid unary_union buffer0 groups maps errs success
  = (errs, Ok (maps ++ ((fun g => (g.1, unary_union g.2)) <$> groups), success)).
Proof.
  intros Hall. revert maps.
  induction Hall as [|[iso gus] groups Hv _ IH]; intros maps; cbn [merge_groups].
  - by rewrite app_nil_r.
  - cbn [snd] in Hv. rewrite Hv, IH. by rewrite <- app_assoc.
Qed.

(** The map [mapcoll] and the rules build the groups [groups]: every
    rule names a country of the table; the map opens and is read to its
    end, and no unit code comes twice in it; with the implicit rules,
    every country of the table has a rule; no unit is named twice by the
    rules; each group holds, in order, the shapes of the units of its
    rule, all in the map and valid; and the union of each group is
    valid. *)
Definition built (mapcoll : MapFile Raw CRS) (rules : list (string * list string))
    (ccs : CountryInfoTable) (crs : CRS) (groups : list (string * list Shape)) : Prop :=
  let rd := (read_map Raw CRS rules ccs mapcoll).1 in
  let all_rules := rules ++ add_rules Raw rd in
  (forall iso, iso ∈ rules.*1 -> iso ∈ ccs.*1) /\
  (exists features,
     mapcoll = Opened Raw CRS crs features None /\ NoDup (GU_A3 Raw <$> features)) /\
  (forall iso, iso ∈ ccs.*1 -> iso ∈ all_rules.*1) /\
  NoDup (mjoin all_rules.*2) /\
  Forall2 (group_of (all_gus Raw rd)) all_rules groups /\
  Forall (fun g => is_valid (unary_union g.2) = true) groups.

(** [load_maps] returns exactly when the map and the rules build one
    group per rule, and it returns the unions of the groups in the order
    of the country codes; in every other case it raises. *)
Theorem load_maps_returns_iff mapcoll rules ccs stderr maps crs :
  load_maps Raw Shape CRS asShape is_valid unary_union buffer0 mapcoll rules ccs
    = (stderr, Ok (maps, crs)) <->
  stderr = [] /\
  exists groups,
    built mapcoll rules ccs crs groups /\
    maps = (fun g => (g.1, unary_union g.2)) <$> sorted_items groups.
Proof.
  pose proof (merge_rules_Ok rules ccs _ (read_map_implicit rules ccs mapcoll))
    as Hmerge.
  split.
  - unfold load_maps.
    destruct (read_map Raw CRS rules ccs mapcoll) as [rd map_crs] eqn:Hread.
    cbn [fst] in Hmerge. rewrite Hmerge.
    destruct (build_groups _ _ _ _ _ [] _) as [s [groups|e]] eqn:Hbuild; [|done].
    case_bool_decide as Herr; [|done]. cbn [negb].
    destruct (merge_groups _ _ _ _ _ [] _ true) as [err [[maps' success]|e]] eqn:Hmg;
      [|done].
    apply merge_groups_Ok in Hmg as (-> & -> & -> & Hvalid). cbn [negb].
    destruct map_crs as [crs'|]; [|done]. intros [= <- <- <-].
    pose proof (build_groups_errors _ _ _ _ _ Hbuild) as Hpre.
    cbn [group_errors] in Hpre.
    rewrite Herr in Hpre. apply prefix_nil_inv in Hpre.
    apply app_eq_nil in Hpre as [Hpre Hcov]. apply app_eq_nil in Hpre as [Hcodes Hrd].
    rewrite Hcodes, Hrd, Hcov in Hbuild. cbn [app] in Hbuild.
    destruct (build_groups_clean _ _ _ _ _ Hbuild Herr) as (_ & Hnd & _ & _).
    destruct (build_groups_shapes _ _ _ _ _ Hbuild Herr) as (new & Hnew & Hall).
    cbn [app] in Hnew. subst new. cbn [units] in Hall.
    split; [done|]. exists groups. split; [|done].
    unfold built. rewrite Hread. cbn [fst]. split_and!.
    + intros iso. by apply check_rule_codes_nil.
    + apply (read_map_clean rules ccs mapcoll crs'). by rewrite Hread.
    + intros iso. by apply check_coverage_nil.
    + done.
    + done.
    + by rewrite <- (sorted_items_perm groups).
  - intros (-> & groups & Hbuilt & ->). unfold built in Hbuilt.
    destruct Hbuilt as (Hcodes & Hmap & Hcov & Hnd & Hall & Hvalid).
    apply (read_map_clean rules ccs mapcoll crs) in Hmap as [Hrd Hcrs].
    unfold load_maps.
    destruct (read_map Raw CRS rules ccs mapcoll) as [rd map_crs] eqn:Hread.
    cbn [fst snd] in *. subst map_crs.
    rewrite Hmerge, (check_rule_codes_all _ _ Hcodes), Hrd,
      (check_coverage_all _ _ Hcov). cbn [app].
    destruct (build_groups_complete _ (mkGroupState Raw (all_gus Raw rd) None []) []
                groups Hnd Hall) as (s' & -> & Herr).
    cbn [group_errors app] in *. rewrite Herr.
    rewrite bool_decide_eq_true_2 by done. cbn [negb].
    rewrite merge_groups_complete by by rewrite sorted_items_perm.
    done.
Qed.

End WithShapely.

(** Toy shapes for running the definitions: a tile is sound or not, and
    a seamed tile makes the union it is part of unsound until buffered. *)
Inductive tile :=
  | Tile (name : string) (sound seamed : bool)
  | Patch (parts : list string) (sound : bool).

Definition tile_is_valid (t : tile) : bool :=
  match t with Tile _ b _ | Patch _ b => b end.

Definition tile_seamed (t : tile) : bool :=
  match t with Tile _ _ b => b | Patch _ _ => false end.

Definition tile_name (t : tile) : string :=
  match t with Tile name _ _ => name | Patch parts _ => join "+" parts end.

Definition tile_union (parts : list tile) : tile :=
  Patch (tile_name <$> parts) (negb (existsb tile_seamed parts)).

Definition tile_buffer0 (t : tile) : tile :=
  match t with
  | Patch parts _ => Patch parts true
  | Tile name _ seamed => Tile name true seamed
  end.

Definition tile_load_maps :=
  load_maps tile tile unit (fun t => t) tile_is_valid tile_union tile_buffer0.

Definition unit_of (gu sov : string) : Feature tile :=
  mkFeature tile gu sov (Tile gu true false).

Definition seamed_unit_of (gu sov : string) : Feature tile :=
  mkFeature tile gu sov (Tile gu true true).

Definition country (iso : string) : string * CountryInfo :=
  (iso, mkCountryInfo iso (String.substring 0 2 iso) iso).

(** A run that succeeds: explicit rules for AAA, an implicit one for BBB. *)
Lemma load_maps_example :
  tile_load_maps
    (Opened tile unit tt [unit_of "XA" "AAA"; unit_of "XB" "ZZZ"; unit_of "BBB" "BBB"] None)
    [("AAA", ["XA"; "XB"])] [country "BBB"; country "AAA"]
  = ([], Ok ([("AAA", Patch ["XA"; "XB"] true); ("BBB", Patch ["BBB"] true)], tt)).
Proof. vm_refl. Qed.

(** C2 (the code departs from it).  Two rules each name a unit the map
    does not have: the first is reported, then the unbound local [geo] is
    read and the run dies of [UnboundLocalError] before the second is
    looked at, so the errors are not reported together.  And a union
    that is invalid but mended by the zero-width buffer is not accepted:
    [sh.is_valid()] calls a [bool] and the run dies of [TypeError]. *)
Theorem load_maps_errors_not_aggregated :
  tile_load_maps (Opened tile unit tt [unit_of "XC" "CCC"] None)
    [("AAA", ["XA"]); ("BBB", ["XB"])] [country "AAA"; country "BBB"]
  = ([GUNotFound "XA"], Raise (UnboundLocalError "geo")) /\
  tile_load_maps
    (Opened tile unit tt [unit_of "XA" "AAA"; seamed_unit_of "XB" "AAA"] None)
    [("AAA", ["XA"; "XB"])] [country "AAA"]
  = ([], Raise (TypeError "'bool' object is not callable")).
Proof. split; vm_refl. Qed.

(** C9 (the code departs from it).  XA is named by the rules of BBB and
    of CCC, but an earlier rule names a unit the map does not have: the
    run dies of [UnboundLocalError] after reporting that one, and the
    second reference to XA is never reported.  When the run does reach a
    second reference it reports it and then files the geometry popped
    last under the second country as well. *)
Theorem load_maps_second_reference_not_reported :
  tile_load_maps (Opened tile unit tt [unit_of "XA" "ZZZ"] None)
    [("AAA", ["ZZ"]); ("BBB", ["XA"]); ("CCC", ["XA"])]
    [country "AAA"; country "BBB"; country "CCC"]
  = ([GUNotFound "ZZ"], Raise (UnboundLocalError "geo")) /\
  build_groups tile tile (fun t => t) tile_is_valid
    (mkGroupState tile {["XA" := Tile "XA" true false]} None []) []
    [("BBB", ["XA"]); ("CCC", ["XA"])]
  = (mkGroupState tile ∅ (Some (Tile "XA" true false)) [GUNotFound "XA"],
     Ok [("BBB", [Tile "XA" true false]); ("CCC", [Tile "XA" true false])]).
Proof. split; vm_refl. Qed.

Lemma load_maps_returns_whole_map_witness :
  @nil diag = [] /\
  NoDup [("AAA", Patch ["XA"; "XB"] true); ("BBB", Patch ["BBB"] true)].*1 /\
  (forall iso, iso ∈ [("AAA", Patch ["XA"; "XB"] true); ("BBB", Patch ["BBB"] true)].*1
               <-> iso ∈ [country "BBB"; country "AAA"].*1) /\
  Forall (fun m => tile_is_valid m.2 = true)
    [("AAA", Patch ["XA"; "XB"] true); ("BBB", Patch ["BBB"] true)].
Proof.
  apply (load_maps_returns_whole_map tile tile unit (fun t => t) tile_is_valid
           tile_union tile_buffer0
           (Opened tile unit tt
              [unit_of "XA" "AAA"; unit_of "XB" "ZZZ"; unit_of "BBB" "BBB"] None)
           [("AAA", ["XA"; "XB"])] [country "BBB"; country "AAA"] [] _ tt).
  - apply (bool_decide_unpack _). vm_compute. exact I.
  - exact load_maps_example.
Defined.

Lemma load_maps_assigns_each_unit_once_witness :
  exists rules',
    merge_rules [("AAA", ["XA"; "XB"])]
      (add_rules tile
         (read_map tile unit [("AAA", ["XA"; "XB"])] [country "BBB"; country "AAA"]
            (Opened tile unit tt
               [unit_of "XA" "AAA"; unit_of "XB" "ZZZ"; unit_of "BBB" "BBB"] None)).1)
      = Ok rules' /\
    NoDup (mjoin rules'.*2) /\
    (forall gu, gu ∈ mjoin rules'.*2 ->
       gu ∈ dom (all_gus tile
         (read_map tile unit [("AAA", ["XA"; "XB"])] [country "BBB"; country "AAA"]
            (Opened tile unit tt
               [unit_of "XA" "AAA"; unit_of "XB" "ZZZ"; unit_of "BBB" "BBB"] None)).1)).
Proof.
  apply (load_maps_assigns_each_unit_once tile tile unit (fun t => t) tile_is_valid
           tile_union tile_buffer0
           (Opened tile unit tt
              [unit_of "XA" "AAA"; unit_of "XB" "ZZZ"; unit_of "BBB" "BBB"] None)
           [("AAA", ["XA"; "XB"])] [country "BBB"; country "AAA"] []
           [("AAA", Patch ["XA"; "XB"] true); ("BBB", Patch ["BBB"] true)] tt).
  exact load_maps_example.
Defined.

Lemma load_maps_unions_named_units_witness :
  exists rules' gus shapes,
    merge_rules [("AAA", ["XA"; "XB"])]
      (add_rules tile
         (read_map tile unit [("AAA", ["XA"; "XB"])] [country "BBB"; country "AAA"]
            (Opened tile unit tt
               [unit_of "XA" "AAA"; unit_of "XB" "ZZZ"; unit_of "BBB" "BBB"] None)).1)
      = Ok rules' /\
    ("AAA", gus) ∈ rules' /\
    Forall2 (taken tile tile (fun t => t) tile_is_valid
               (all_gus tile
                  (read_map tile unit [("AAA", ["XA"; "XB"])]
                     [country "BBB"; country "AAA"]
                     (Opened tile unit tt
                        [unit_of "XA" "AAA"; unit_of "XB" "ZZZ"; unit_of "BBB" "BBB"]
                        None)).1))
      gus shapes /\
    Patch ["XA"; "XB"] true = tile_union shapes /\
    tile_is_valid (Patch ["XA"; "XB"] true) = true.
Proof.
  apply (load_maps_unions_named_units tile tile unit (fun t => t) tile_is_valid
           tile_union tile_buffer0
           (Opened tile unit tt
              [unit_of "XA" "AAA"; unit_of "XB" "ZZZ"; unit_of "BBB" "BBB"] None)
           [("AAA", ["XA"; "XB"])] [country "BBB"; country "AAA"] []
           [("AAA", Patch ["XA"; "XB"] true); ("BBB", Patch ["BBB"] true)] tt).
  - vm_refl.
  - by left.
Defined.

End LoadMapsFacts.

(** ** The result writer *)

Module Writer.

(** *** Files *)

(** A file: what it holds, and whether that has reached the disk. *)
Record file := mkFile { data : string; durable : bool }.

(** The operations [atomic_rewrite] performs on the file system. *)
Inductive op :=
  | Mkstemp (path : string)
  | Append (path text : string)
  | Fsync (path : string)
  | Link (src dst : string)
  | Replace (src dst : string)
  | Unlink (path : string).

Definition exec_op (fs : gmap string file) (o : op) : result (gmap string file) :=
  match o with
  | Mkstemp p =>
      if decide (p ∈ dom fs) then Raise (FileExistsError p)
      else Ok (<[p := mkFile "" false]> fs)
  | Append p s =>
      match fs !! p with
      | Some f => Ok (<[p := mkFile (data f +:+ s) false]> fs)
      | None => Raise (OSError "no such file")
      end
  | Fsync p =>
      match fs !! p with
      | Some f => Ok (<[p := mkFile (data f) true]> fs)
      | None => Raise (OSError "no such file")
      end
  | Link src dst =>
      match fs !! src with
      | Some f =>
          if decide (dst ∈ dom fs) then Raise (FileExistsError dst)
          else Ok (<[dst := f]> fs)
      | None => Raise (OSError "no such file")
      end
  | Replace src dst =>
      match fs !! src with
      | Some f => Ok (<[dst := f]> (delete src fs))
      | None => Raise (OSError "no such file")
      end
  | Unlink p => Ok (delete p fs)
  end.

(** What happens to a run from outside: nothing, the process is killed
    before its [n]-th file operation, or that operation fails. *)
Inductive event :=
  | Undisturbed
  | Killed (before : nat)
  | IOFails (at_op : nat).

#[export] Instance event_eq_dec : EqDecision event.
Proof. solve_decision. Defined.

Inductive outcome :=
  | Returned
  | Raised (e : exn)
  | Dead.

(** A step of a script: a file operation, or an exception raised by the
    code between two operations. *)
Inductive action :=
  | Do (o : op)
  | Fail (e : exn).

Fixpoint run (ev : event) (i : nat) (script : list action) (fs : gmap string file)
    : gmap string file * outcome :=
  match script with
  | [] => (fs, Returned)
  | a :: script' =>
      if bool_decide (ev = Killed i) then (fs, Dead)
      else match a with
           | Fail e => (fs, Raised e)
           | Do o =>
               if bool_decide (ev = IOFails i) then (fs, Raised (OSError "input/output error"))
               else match exec_op fs o with
                    | Ok fs' => run ev (S i) script' fs'
                    | Raise e => (fs, Raised e)
                    end
           end
  end.

(** *** Names *)

(** The destination as [os.path] takes it apart: [dirname(name)] and
    [splitext(basename(name))]. *)
Record Dest := mkDest { dest_dir : string; dest_base : string; dest_ext : string }.

(** [os.path.join(dir, file)] for a directory without trailing slash. *)
Definition path_join (dir file : string) : string :=
  if decide (dir = "") then file else dir +:+ "/" +:+ file.

Definition dest_name (d : Dest) : string :=
  path_join (dest_dir d) (dest_base d +:+ dest_ext d).

(** The name [NamedTemporaryFile] tries for a random infix. *)
Definition temp_name (d : Dest) (random : string) : string :=
  path_join (dest_dir d) ((dest_base d +:+ "-") +:+ random +:+ dest_ext d).

(** [tempfile] goes through its random names until one is free. *)
Fixpoint mkstemp (fs : gmap string file) (d : Dest) (randoms : list string)
    : result string :=
  match randoms with
  | [] => Raise (FileExistsError "No usable temporary file name found")
  | r :: randoms' =>
      if decide (temp_name d r ∈ dom fs) then mkstemp fs d randoms'
      else Ok (temp_name d r)
  end.

(** *** Compression by extension *)

Inductive codec := Gzip | Bz2 | Xz | LzmaAlone.

(** What [open_with_auto_compression] is given as [name]. *)
Inductive opened := ByPath (path : string) | ByFileObject (path : string).

Definition strip_dot (ext : string) : string :=
  match ext with
  | String c rest => if Ascii.eqb c (Ascii.ascii_of_nat 46) then rest else ext
  | _ => ext
  end.

(** [open_with_auto_compression(name, mode, ext=ext)] with [ext] given:
    the codec the text goes through, [None] for a plain [open]. *)
Definition open_with_auto_compression (name : opened) (ext : string)
    : result (option codec) :=
  let ext := strip_dot ext in
  if decide (ext = "gz") then Ok (Some Gzip)
  else if decide (ext = "bz2") then Ok (Some Bz2)
  else if decide (ext = "xz") then Ok (Some Xz)
  else if decide (ext = "lzma") then Ok (Some LzmaAlone)
  else match name with
       | ByPath _ => Ok None
       | ByFileObject _ => Raise AssertionError
       end.

Section WithCodecs.
(** The bytes a codec turns a text into. *)
Variable compress : codec -> string -> string.

Definition encode (c : option codec) (text : string) : string :=
  match c with Some c => compress c text | None => text end.

(** *** atomic_rewrite *)

Definition write_modes : list string := ["w"; "wb"; "wt"; "w+"; "w+b"; "w+t"].

(** What the [with] block of the caller does with the file object: the
    text it writes, and the exception it raises after that, if any. *)
Definition Body : Type := string * option exn.

(** The steps inside [with NamedTemporaryFile(...) as tfp], lines 193 to
    217, for the temporary file [tmp]. *)
Definition rewrite_script (d : Dest) (tmp : string) (body : Body) : list action :=
  Do (Mkstemp tmp) ::
  match open_with_auto_compression (ByFileObject tmp) (dest_ext d) with
  | Raise e => [Fail e]
  | Ok c =>
      Do (Append tmp (encode c body.1)) ::
      match body.2 with
      | Some e => [Fail e]
      | None =>
          [Do (Fsync tmp); Do (Link tmp (tmp +:+ "."));
           Do (Replace (tmp +:+ ".") (dest_name d))]
      end
  end.

(** [atomic_rewrite]: the file system it leaves, and how it ends.  Unless
    the process was killed, leaving [NamedTemporaryFile] removes the
    temporary file. *)
Definition atomic_rewrite (ev : event) (fs : gmap string file) (name : Dest)
    (mode : string) (randoms : list string) (body : Body)
    : gmap string file * outcome :=
  if negb (bool_decide (mode ∈ write_modes))
  then (fs, Raised (ValueError "inappropriate open mode for atomic_rewrite"))
  else match mkstemp fs name randoms with
       | Raise e => (fs, Raised e)
       | Ok tmp =>
           match run ev 0 (rewrite_script name tmp body) fs with
           | (fs', Dead) => (fs', Dead)
           | (fs', out) =>
               if bool_decide (ev = Killed (length (rewrite_script name tmp body)))
               then (fs', Dead)
               else (delete tmp fs', out)
           end
       end.

(** *** rewrite_results *)

Section WithCsv.
(** [str(v)] as [format] and the [csv] module take it, and the line the
    writer of dialect [unix] makes of the fields of one record. *)
Variable str_of : pyval -> string.
Variable csv_record : list string -> string.

Definition nl : string := String (Ascii.ascii_of_nat 10) "".

(** Lines 613 to 621: the message for a record whose keys differ. *)
Definition bad_record (expected_keys : gset string) (row : gmap string pyval)
    : result string :=
  let r_keys := dom row in
  let extra := r_keys ∖ expected_keys in
  let missing := expected_keys ∖ r_keys in
  addr ← getitem row "addr";
  let msg := "internal error: bad record for " +:+ str_of addr +:+ ":" +:+ nl in
  let msg :=
    if decide (extra = ∅) then msg
    else msg +:+ "    extra keys: " +:+ join ", " (sorted (elements extra)) +:+ nl in
  let msg :=
    if decide (missing = ∅) then msg
    else msg +:+ "  missing keys: " +:+ join ", " (sorted (elements missing)) +:+ nl in
  Ok msg.

(** Lines 611 to 621. *)
Fixpoint check_rows (expected_keys : gset string) (results : list (gmap string pyval))
    : result unit :=
  match results with
  | [] => Ok tt
  | row :: results' =>
      if decide (dom row = expected_keys) then check_rows expected_keys results'
      else msg ← bad_record expected_keys row; Raise (SystemExit (ExitMsg msg))
  end.

(** [a < b] on the keys of the sort.  Addresses of one version order by
    value, addresses of different versions do not compare. *)
Definition key_lt (a b : pyval) : result bool :=
  match a, b with
  | PAddr x, PAddr y =>
      if decide (version x = version y) then Ok (ip_int x <? ip_int y)%N
      else Raise (TypeError "addresses are not of the same version")
  | PStr x, PStr y => Ok (String.ltb x y)
  | _, _ => Raise (TypeError "'<' not supported")
  end.

(** [list.sort(key=...)]: a stable sort that only asks [<]. *)
Fixpoint insert_by_key (x : pyval * gmap string pyval)
    (l : list (pyval * gmap string pyval)) : result (list (pyval * gmap string pyval)) :=
  match l with
  | [] => Ok [x]
  | y :: l' =>
      lt ← key_lt y.1 x.1;
      if lt : bool then l'' ← insert_by_key x l'; Ok (y :: l'')
      else Ok (x :: l)
  end.

Fixpoint sort_by_key (l : list (pyval * gmap string pyval))
    : result (list (pyval * gmap string pyval)) :=
  match l with
  | [] => Ok []
  | x :: l' => s ← sort_by_key l'; insert_by_key x s
  end.

Fixpoint keyed (results : list (gmap string pyval))
    : result (list (pyval * gmap string pyval)) :=
  match results with
  | [] => Ok []
  | row :: results' =>
      k ← getitem row "addr"; l ← keyed results'; Ok ((k, row) :: l)
  end.

(** Line 623. *)
Definition sort_results (results : list (gmap string pyval))
    : result (list (gmap string pyval)) :=
  l ← keyed results; s ← sort_by_key l; Ok s.*2.

(** Lines 632 to 648. *)
Definition fixed_columns : list string := ["addr"; "latitude"; "longitude"].

Definition dist_columns (expected_keys : gset string) (ccs : CountryInfoTable)
    : list string :=
  sorted (filter (fun k => (k ∉ fixed_columns) /\ (k ∈ ccs.*1)) (elements expected_keys)).

Definition meta_columns (expected_keys : gset string) (ccs : CountryInfoTable)
    : list string :=
  sorted (filter (fun k => (k ∉ fixed_columns) /\ (k ∉ ccs.*1)) (elements expected_keys)).

Definition columns_of (expected_keys : gset string) (ccs : CountryInfoTable)
    : list string :=
  ["addr"] ++ meta_columns expected_keys ccs ++ ["longitude"; "latitude"]
  ++ dist_columns expected_keys ccs.

(** Lines 606 to 648: everything before the file is opened.  The columns
    and the records in the order they will be written. *)
Definition prepare (results : list (gmap string pyval)) (ccs : CountryInfoTable)
    : result (list string * list (gmap string pyval)) :=
  match results with
  | [] => Raise IndexError
  | first :: _ =>
      let expected_keys := dom first in
      if negb (bool_decide ("addr" ∈ expected_keys)) then Raise AssertionError
      else if negb (bool_decide ("longitude" ∈ expected_keys)) then Raise AssertionError
      else if negb (bool_decide ("latitude" ∈ expected_keys)) then Raise AssertionError
      else
        _ ← check_rows expected_keys results;
        rows ← sort_results results;
        Ok (columns_of expected_keys ccs, rows)
  end.

(** [DictWriter.writerow]: a key that is no column is an error, a column
    the record lacks is written empty, and so is [None]. *)
Definition cell (row : gmap string pyval) (column : string) : string :=
  match row !! column with
  | Some PNone | None => ""
  | Some v => str_of v
  end.

Definition writerow (columns : list string) (row : gmap string pyval) : result string :=
  if decide (dom row ⊆ list_to_set columns) then Ok (csv_record (cell row <$> columns))
  else Raise (ValueError "dict contains fields not in fieldnames").

(** Lines 651 to 656: the text written, and the exception that stops the
    loop, if any. *)
Fixpoint writerows (columns : list string) (rows : list (gmap string pyval))
    (written : string) : Body :=
  match rows with
  | [] => (written, None)
  | row :: rows' =>
      match writerow columns row with
      | Ok line => writerows columns rows' (written +:+ line)
      | Raise e => (written, Some e)
      end
  end.

Definition csv_body (columns : list string) (rows : list (gmap string pyval)) : Body :=
  writerows columns rows (csv_record columns).

Definition rewrite_results (ev : event) (fs : gmap string file) (randoms : list string)
    (results_file : Dest) (results : list (gmap string pyval)) (ccs : CountryInfoTable)
    : gmap string file * outcome :=
  match prepare results ccs with
  | Raise e => (fs, Raised e)
  | Ok (columns, rows) =>
      atomic_rewrite ev fs results_file "wt" randoms (csv_body columns rows)
  end.

End WithCsv.

End WithCodecs.

End Writer.

(** ** Properties of the result writer *)

Module WriterFacts.
Import Writer.

(** *** Names of temporary files *)

Lemma length_append (a b : string) :
  String.length (a +:+ b) = String.length a + String.length b.
Proof. induction a as [|c a IH]; simpl; [done | by rewrite IH]. Qed.

Lemma path_join_length dir file :
  String.length (path_join dir file) =
    (if decide (dir = "") then 0 else String.length dir + 1) + String.length file.
Proof.
  unfold path_join. case_decide; [done|].
  rewrite !length_append. simpl. lia.
Qed.

Lemma temp_name_length d r :
  String.length (temp_name d r) = String.length (dest_name d) + 1 + String.length r.
Proof.
  unfold temp_name, dest_name. rewrite !path_join_length, !length_append. simpl. lia.
Qed.

Lemma temp_name_fresh d r : temp_name d r <> dest_name d.
Proof. intros H. pose proof (temp_name_length d r) as Hl. rewrite H in Hl. lia. Qed.

Lemma temp_link_fresh d r : temp_name d r +:+ "." <> dest_name d.
Proof.
  intros H. pose proof (temp_name_length d r) as Hl.
  assert (Hd : String.length (temp_name d r +:+ ".") = String.length (dest_name d)).
  { by rewrite H. }
  rewrite length_append in Hd. simpl in Hd. lia.
Qed.

Lemma temp_link_neq_temp s : s +:+ "." <> s.
Proof.
  intros H. assert (Hl : String.length (s +:+ ".") = String.length s).
  { by rewrite H. }
  rewrite length_append in Hl. simpl in Hl. lia.
Qed.

Lemma mkstemp_Ok fs d randoms tmp :
  mkstemp fs d randoms = Ok tmp ->
  (tmp ∉ dom fs) /\ exists r, r ∈ randoms /\ tmp = temp_name d r.
Proof.
  induction randoms as [|r randoms IH]; simpl; [done|].
  case_decide as Hin.
  - intros (Hfresh & r' & Hr' & ->)%IH. split; [done|].
    exists r'. split; [by right | done].
  - intros [= <-]. split; [done|]. exists r. split; [by left | done].
Qed.

(** *** Sorted strings *)

Definition str_sorted (l : list string) : Prop :=
  Sorted (fun a b => str_le a b = true) l.

Lemma insert_sorted_perm x l : insert_sorted x l ≡ₚ x :: l.
Proof.
  induction l as [|y l IH]; simpl; [done|].
  destruct (str_le x y); [done|]. rewrite IH. apply perm_swap.
Qed.

Lemma sorted_perm l : sorted l ≡ₚ l.
Proof.
  induction l as [|x l IH]; simpl; [done|].
  unfold sorted in *. simpl. by rewrite insert_sorted_perm, IH.
Qed.

Lemma insert_sorted_sorted x l : str_sorted l -> str_sorted (insert_sorted x l).
Proof.
  unfold str_sorted. induction l as [|y l IH]; simpl; intros Hs.
  - by repeat constructor.
  - destruct (str_le x y) eqn:Hxy.
    + constructor; [done|]. by constructor.
    + apply Sorted_inv in Hs as [Hs Hhd].
      constructor; [by apply IH|].
      assert (Hyx : str_le y x = true).
      { destruct (String.leb_total x y) as [H|H]; [unfold str_le in Hxy; congruence | done]. }
      destruct l as [|z l]; simpl; [by constructor|].
      destruct (str_le x z); constructor; [done|].
      by apply HdRel_inv in Hhd.
Qed.

Lemma sorted_sorted l : str_sorted (sorted l).
Proof.
  induction l as [|x l IH]; [constructor|].
  unfold sorted in *. simpl. by apply insert_sorted_sorted.
Qed.

(** [ks] lists, in order and once each, the keys with property [P]. *)
Definition lists_keys (ks : list string) (P : string -> Prop) : Prop :=
  str_sorted ks /\ NoDup ks /\ forall k, k ∈ ks <-> P k.

Lemma sorted_elements_lists (X : gset string) :
  lists_keys (sorted (elements X)) (fun k => k ∈ X).
Proof.
  split_and!.
  - apply sorted_sorted.
  - rewrite sorted_perm. apply NoDup_elements.
  - intros k. rewrite sorted_perm. apply elem_of_elements.
Qed.

Lemma sorted_filter_lists (X : gset string) (P : string -> Prop)
    `{!forall k, Decision (P k)} :
  lists_keys (sorted (filter P (elements X))) (fun k => k ∈ X /\ P k).
Proof.
  split_and!.
  - apply sorted_sorted.
  - rewrite sorted_perm. apply NoDup_filter, NoDup_elements.
  - intros k. rewrite sorted_perm, list_elem_of_filter, elem_of_elements. tauto.
Qed.

Lemma append_assoc (a b c : string) : (a +:+ b) +:+ c = a +:+ (b +:+ c).
Proof.
  induction a as [|x a IH]; [done|].
  change (String x ((a +:+ b) +:+ c) = String x (a +:+ (b +:+ c))). by f_equal.
Qed.

Lemma append_empty_r (a : string) : a +:+ "" = a.
Proof.
  induction a as [|x a IH]; [done|].
  change (String x (a +:+ "") = String x a). by f_equal.
Qed.

Section WithCodecs.
Variable compress : codec -> string -> string.

(** The destination holds the whole new text, encoded, and on disk. *)
Definition rewritten (fs' : gmap string file) (name : Dest) (body : Body) : Prop :=
  exists c, open_with_auto_compression (ByFileObject "") (dest_ext name) = Ok c /\
            body.2 = None /\
            fs' !! dest_name name = Some (mkFile (encode compress c body.1) true).

(** The guarantees of one call, for the file system [fs'] it leaves and
    the way [out] it ends. *)
Definition atomic (ev : event) (fs : gmap string file) (name : Dest) (body : Body)
    (fs' : gmap string file) (out : outcome) : Prop :=
  (fs' !! dest_name name = fs !! dest_name name \/ rewritten fs' name body) /\
  (forall e, out = Raised e -> fs' !! dest_name name = fs !! dest_name name) /\
  (forall k, ev = Killed k -> k <= 4 -> fs' !! dest_name name = fs !! dest_name name) /\
  (out = Returned -> rewritten fs' name body).

Lemma run_script_atomic ev fs name tmp body fs' out :
  tmp ∉ dom fs -> tmp <> dest_name name -> tmp +:+ "." <> dest_name name ->
  run ev 0 (rewrite_script compress name tmp body) fs = (fs', out) ->
  atomic ev fs name body fs' out.
Proof.
  intros Hfresh Hne1 Hne2.
  pose proof (temp_link_neq_temp tmp) as Hne3.
  apply not_elem_of_dom in Hfresh.
  unfold rewrite_script, atomic, rewritten.
  replace (open_with_auto_compression (ByFileObject tmp) (dest_ext name))
    with (open_with_auto_compression (ByFileObject "") (dest_ext name)) by done.
  destruct (open_with_auto_compression (ByFileObject "") (dest_ext name)) as [c|e0];
    destruct body as [text [eb|]];
    destruct ev as [|[|[|[|[|[|k]]]]]|[|[|[|[|[|k]]]]]];
    cbn -[dest_name encode]; rewrite ?decide_False by (by apply not_elem_of_dom);
    cbn -[dest_name encode]; simplify_map_eq;
    repeat (case_decide; cbn -[dest_name encode]; simplify_map_eq);
    intros [= <- <-]; simplify_map_eq; simpl;
    (split_and!;
     [ eauto 10
     | by intros
     | first [by intros | intros ? [= <-]; lia]
     | first [done | eauto 10] ]).
Qed.

(** What [atomic_rewrite] never does.  Whatever happens to a call (it
    runs through, the caller's block raises, a file operation fails, the
    process is killed at any point), the destination afterwards is either
    exactly the file it was or the whole new text, encoded and synced to
    disk, never a part of it; it is the file it was whenever the call
    raises, and whenever the process is killed before the rename; and it
    is the new text when the call returns. *)
Theorem atomic_rewrite_is_atomic ev fs name mode randoms body :
  atomic ev fs name body
    (atomic_rewrite compress ev fs name mode randoms body).1
    (atomic_rewrite compress ev fs name mode randoms body).2.
Proof.
  unfold atomic_rewrite.
  destruct (negb (bool_decide (mode ∈ write_modes))).
  { unfold atomic. simpl. split_and!; try done; by left. }
  destruct (mkstemp fs name randoms) as [tmp|e] eqn:Htmp.
  2:{ unfold atomic. simpl. split_and!; try done; by left. }
  apply mkstemp_Ok in Htmp as (Hfresh & r & _ & ->).
  destruct (run ev 0 _ fs) as [fs' out] eqn:Hrun.
  pose proof (run_script_atomic _ _ _ _ _ _ _ Hfresh (temp_name_fresh name r)
                (temp_link_fresh name r) Hrun) as (H1 & H2 & H3 & H4).
  assert (Hdel : delete (temp_name name r) fs' !! dest_name name = fs' !! dest_name name).
  { apply lookup_delete_ne, temp_name_fresh. }
  unfold atomic, rewritten in *.
  destruct out; simpl; try case_bool_decide; simpl; rewrite ?Hdel;
    split_and!; try done; try (intros; by eauto).
  all: intros k ->; try done.
  all: intros Hk; match goal with H : Killed _ = Killed _ |- _ => injection H as -> end.
  all: destruct H1 as [H1|(c & Hc & Hb & H1)]; [done|].
  all: exfalso; revert Hk; unfold rewrite_script;
    replace (open_with_auto_compression (ByFileObject (temp_name name r)) (dest_ext name))
      with (open_with_auto_compression (ByFileObject "") (dest_ext name)) by done;
    rewrite Hc, Hb; simpl; lia.
Qed.


(** A destination whose extension names none of the four compression
    formats is not written: [open_with_auto_compression] is handed the
    temporary file object, its assertion that [name] is a path or a
    descriptor fails, and the file system is left as it was. *)
Theorem atomic_rewrite_plain_extension_raises fs name mode randoms body tmp :
  mode ∈ write_modes ->
  mkstemp fs name randoms = Ok tmp ->
  open_with_auto_compression (ByPath (dest_name name)) (dest_ext name) = Ok None ->
  atomic_rewrite compress Undisturbed fs name mode randoms body
    = (fs, Raised AssertionError).
Proof.
  intros Hmode Htmp Hplain. unfold atomic_rewrite.
  rewrite bool_decide_eq_true_2 by done. cbn [negb]. rewrite Htmp.
  apply mkstemp_Ok in Htmp as [Hfresh _].
  assert (Hopen : open_with_auto_compression (ByFileObject tmp) (dest_ext name)
                  = Raise AssertionError).
  { revert Hplain. unfold open_with_auto_compression.
    repeat case_decide; done. }
  unfold rewrite_script. rewrite Hopen.
  cbn. rewrite decide_False by done. cbn.
  f_equal. apply delete_insert_id. by apply not_elem_of_dom.
Qed.

(** When the process is not killed, the temporary file is gone after the
    call however it ends, and no file other than the destination is
    changed, but for one case: when [os.replace] fails, the hard link
    made for it (the temporary name with a dot appended) is left behind. *)
Theorem atomic_rewrite_discards_temporary_file ev fs name mode randoms body tmp :
  (forall k, ev <> Killed k) ->
  mkstemp fs name randoms = Ok tmp ->
  (tmp ∉ dom (atomic_rewrite compress ev fs name mode randoms body).1) /\
  (forall p, p <> dest_name name -> p <> tmp +:+ "." ->
     (atomic_rewrite compress ev fs name mode randoms body).1 !! p = fs !! p) /\
  ((atomic_rewrite compress ev fs name mode randoms body).1 !! (tmp +:+ ".")
     = fs !! (tmp +:+ ".") \/ ev = IOFails 4).
Proof.
  intros Hev Htmp. unfold atomic_rewrite.
  destruct (negb (bool_decide (mode ∈ write_modes))).
  { apply mkstemp_Ok in Htmp as [Hfresh _]. simpl. split_and!; try done. by left. }
  rewrite Htmp. apply mkstemp_Ok in Htmp as (Hfresh & r & _ & ->).
  pose proof (temp_link_neq_temp (temp_name name r)) as Hne3.
  pose proof (temp_name_fresh name r) as Hne1.
  pose proof (temp_link_fresh name r) as Hne2.
  set (tmp := temp_name name r) in *.
  apply not_elem_of_dom in Hfresh.
  unfold rewrite_script.
  replace (open_with_auto_compression (ByFileObject tmp) (dest_ext name))
    with (open_with_auto_compression (ByFileObject "") (dest_ext name)) by done.
  destruct (open_with_auto_compression (ByFileObject "") (dest_ext name)) as [c|e0];
    destruct body as [text [eb|]];
    destruct ev as [|k|[|[|[|[|[|k]]]]]]; try (by destruct (Hev k));
    cbn -[dest_name encode tmp]; rewrite ?decide_False by (by apply not_elem_of_dom);
    cbn -[dest_name encode tmp]; simplify_map_eq;
    repeat (case_decide; cbn -[dest_name encode tmp]; simplify_map_eq);
    (split_and!;
      [ apply not_elem_of_dom; by simplify_map_eq
      | intros p Hp1 Hp2; destruct (decide (p = tmp)) as [->|Hp3]; by simplify_map_eq
      | first [ by right | left; by simplify_map_eq
              | left; symmetry; apply not_elem_of_dom; set_solver ] ]).
Qed.

Section WithCsv.
Variable str_of : pyval -> string.
Variable csv_record : list string -> string.

(** The three fixed fields of a landmark record. *)
Definition is_landmark (row : gmap string pyval) : Prop :=
  "addr" ∈ dom row /\ "longitude" ∈ dom row /\ "latitude" ∈ dom row.

(** A line of the message: empty when there is no key to list, else the
    label and the keys in order, separated by commas. *)
Definition key_line (label : string) (keys : gset string) (line : string) : Prop :=
  (keys = ∅ /\ line = "") \/
  (keys <> ∅ /\ exists ks, lists_keys ks (fun k => k ∈ keys) /\
                           line = label +:+ join ", " ks +:+ nl).

Lemma bad_record_message expected_keys row a :
  row !! "addr" = Some a ->
  exists extra_line missing_line,
    key_line "    extra keys: " (dom row ∖ expected_keys) extra_line /\
    key_line "  missing keys: " (expected_keys ∖ dom row) missing_line /\
    bad_record str_of expected_keys row =
      Ok ("internal error: bad record for " +:+ str_of a +:+ ":" +:+ nl
          +:+ extra_line +:+ missing_line).
Proof.
  intros Ha. unfold bad_record, getitem. rewrite Ha. cbn [mbind result_bind].
  set (extra := dom row ∖ expected_keys). set (missing := expected_keys ∖ dom row).
  exists (if decide (extra = ∅) then ""
          else "    extra keys: " +:+ join ", " (sorted (elements extra)) +:+ nl),
         (if decide (missing = ∅) then ""
          else "  missing keys: " +:+ join ", " (sorted (elements missing)) +:+ nl).
  split_and!.
  - unfold key_line. case_decide; [by left|]. right. split; [done|].
    exists (sorted (elements extra)). split; [apply sorted_elements_lists | done].
  - unfold key_line. case_decide; [by left|]. right. split; [done|].
    exists (sorted (elements missing)). split; [apply sorted_elements_lists | done].
  - f_equal. do 2 case_decide; rewrite ?append_assoc, ?append_empty_r; try done.
    all: repeat (rewrite ?append_assoc; f_equal).
Qed.

Lemma check_rows_ok expected_keys results :
  Forall (fun row => dom row = expected_keys) results ->
  check_rows str_of expected_keys results = Ok tt.
Proof.
  induction 1 as [|row results Hrow _ IH]; simpl; [done|]. by rewrite decide_True.
Qed.

Lemma check_rows_bad expected_keys results :
  Forall (fun row => "addr" ∈ dom row) results ->
  Exists (fun row => dom row <> expected_keys) results ->
  exists row a msg,
    row ∈ results /\ dom row <> expected_keys /\ row !! "addr" = Some a /\
    bad_record str_of expected_keys row = Ok msg /\
    check_rows str_of expected_keys results = Raise (SystemExit (ExitMsg msg)).
Proof.
  induction results as [|row results IH]; intros Hall Hex.
  - by apply Exists_nil in Hex.
  - apply Forall_cons in Hall as [Haddr Hall]. simpl.
    destruct (decide (dom row = expected_keys)) as [Heq|Hne].
    + apply Exists_cons in Hex as [Hex|Hex]; [done|].
      destruct (IH Hall Hex) as (row' & a & msg & Hin & Hne & Ha & Hmsg & Hrun).
      exists row', a, msg. split_and!; try done. by right.
    + apply elem_of_dom in Haddr as [a Ha].
      destruct (bad_record_message expected_keys row a Ha) as (el & ml & _ & _ & Hmsg).
      eexists row, a, _. split_and!; [by left | done | done | exact Hmsg |].
      rewrite Hmsg. done.
Qed.

(** C6.  When the records have the three fixed fields and some record
    after the first has another key set than the first, [rewrite_results]
    raises [SystemExit] with a message that names the address of such a
    record and lists, in order, the keys it has beyond the first record's
    and the keys it lacks, and the file system is as it was. *)
Theorem rewrite_results_rejects_differing_keys ev fs randoms results_file first rest ccs :
  Forall is_landmark (first :: rest) ->
  Exists (fun row => dom row <> dom first) rest ->
  exists row a extra_line missing_line,
    row ∈ rest /\ dom row <> dom first /\ row !! "addr" = Some a /\
    key_line "    extra keys: " (dom row ∖ dom first) extra_line /\
    key_line "  missing keys: " (dom first ∖ dom row) missing_line /\
    rewrite_results compress str_of csv_record ev fs randoms results_file
      (first :: rest) ccs
    = (fs, Raised (SystemExit (ExitMsg
         ("internal error: bad record for " +:+ str_of a +:+ ":" +:+ nl
          +:+ extra_line +:+ missing_line)))).
Proof.
  intros Hall Hex.
  apply Forall_cons in Hall as [(Ha & Hlon & Hlat) Hall].
  assert (Haddrs : Forall (fun row => "addr" ∈ dom row) rest).
  { eapply Forall_impl; [exact Hall|]. by intros row (? & _). }
  destruct (check_rows_bad (dom first) rest Haddrs Hex)
    as (row & a & msg & Hin & Hne & Hrow & Hmsg & Hrun).
  destruct (bad_record_message (dom first) row a Hrow) as (el & ml & Hel & Hml & Hmsg').
  exists row, a, el, ml. split_and!; try done.
  unfold rewrite_results, prepare.
  rewrite !bool_decide_eq_true_2 by done. cbn [negb].
  cbn [check_rows]. rewrite decide_True by done.
  rewrite Hrun. cbn [mbind result_bind]. congruence.
Qed.
(** *** Sorting by address *)

(** Ascending addresses, on records and on keyed records. *)
Definition addr_le (r1 r2 : gmap string pyval) : Prop :=
  exists a b, r1 !! "addr" = Some (PAddr a) /\ r2 !! "addr" = Some (PAddr b) /\
              (ip_int a <= ip_int b)%N.

Definition keyed_by_addr (ver : nat) (kr : pyval * gmap string pyval) : Prop :=
  exists a, kr.1 = PAddr a /\ version a = ver /\ kr.2 !! "addr" = Some (PAddr a).

Definition keyed_le (x y : pyval * gmap string pyval) : Prop := addr_le x.2 y.2.

Lemma keyed_le_of ver x y a b :
  keyed_by_addr ver x -> keyed_by_addr ver y ->
  x.1 = PAddr a -> y.1 = PAddr b -> (ip_int a <= ip_int b)%N -> keyed_le x y.
Proof.
  intros (a' & Ha' & _ & Hx) (b' & Hb' & _ & Hy) Ha Hb Hle.
  exists a, b. split_and!; [congruence | congruence | done].
Qed.

Lemma insert_by_key_ok ver x l :
  keyed_by_addr ver x -> Forall (keyed_by_addr ver) l -> Sorted keyed_le l ->
  exists l', insert_by_key x l = Ok l' /\ l' ≡ₚ x :: l /\ Sorted keyed_le l' /\
             (forall z, HdRel keyed_le z l -> keyed_le z x -> HdRel keyed_le z l').
Proof.
  intros Hx Hall Hs. induction l as [|y l IH].
  - exists [x]. split_and!; [done | done | by repeat constructor |].
    intros z _ Hz. by constructor.
  - apply Forall_cons in Hall as [Hy Hall]. apply Sorted_inv in Hs as [Hs Hhd].
    pose proof Hx as (a & Ha & Hva & _). pose proof Hy as (b & Hb & Hvb & _).
    cbn [insert_by_key]. unfold key_lt. rewrite Ha, Hb.
    rewrite decide_True by congruence. cbn [mbind result_bind].
    destruct (ip_int b <? ip_int a)%N eqn:Hlt.
    + destruct (IH Hall Hs) as (l' & -> & Hperm & Hs' & Hhd').
      cbn [mbind result_bind]. exists (y :: l'). split_and!; [done | | |].
      * rewrite Hperm. apply perm_swap.
      * constructor; [done|]. apply Hhd'; [done|].
        apply N.ltb_lt in Hlt. eapply keyed_le_of; eauto. lia.
      * intros z Hz _. constructor. by apply HdRel_inv in Hz.
    + exists (x :: y :: l). split_and!; [done | done | |].
      * constructor; [by constructor|]. constructor.
        apply N.ltb_ge in Hlt. eapply keyed_le_of; eauto.
      * intros z _ Hz. by constructor.
Qed.

Lemma sort_by_key_ok ver l :
  Forall (keyed_by_addr ver) l ->
  exists s, sort_by_key l = Ok s /\ s ≡ₚ l /\ Sorted keyed_le s.
Proof.
  induction 1 as [|x l Hx Hall IH]; [by exists []|].
  destruct IH as (s & Hsort & Hperm & Hs).
  assert (Hall' : Forall (keyed_by_addr ver) s) by by rewrite Hperm.
  destruct (insert_by_key_ok ver x s Hx Hall' Hs) as (s' & Hins & Hperm' & Hs' & _).
  exists s'. cbn [sort_by_key]. rewrite Hsort. cbn [mbind result_bind].
  split_and!; [done | by rewrite Hperm', Hperm | done].
Qed.

Lemma keyed_ok ver results :
  Forall (fun row => exists a, row !! "addr" = Some (PAddr a) /\ version a = ver) results ->
  exists l, keyed results = Ok l /\ l.*2 = results /\ Forall (keyed_by_addr ver) l.
Proof.
  induction 1 as [|row results (a & Ha & Hv) _ (l & Hl & Hrows & Hall)]; [by exists []|].
  exists ((PAddr a, row) :: l). cbn [keyed]. unfold getitem. rewrite Ha, Hl.
  cbn [mbind result_bind]. split_and!; [done | by simpl; f_equal |].
  constructor; [|done]. by exists a.
Qed.

Lemma sort_results_ok ver results :
  Forall (fun row => exists a, row !! "addr" = Some (PAddr a) /\ version a = ver) results ->
  exists rows, sort_results results = Ok rows /\ rows ≡ₚ results /\ Sorted addr_le rows.
Proof.
  intros (l & Hl & Hrows & Hall)%keyed_ok.
  destruct (sort_by_key_ok ver l Hall) as (s & Hs & Hperm & Hsorted).
  exists s.*2. unfold sort_results. rewrite Hl. cbn [mbind result_bind].
  rewrite Hs. cbn [mbind result_bind]. split_and!; [done | by rewrite Hperm, Hrows |].
  clear -Hsorted. induction Hsorted as [|x s _ IH Hhd]; [constructor|].
  cbn [fmap list_fmap]. constructor; [done|].
  destruct Hhd; constructor. done.
Qed.

(** *** Columns and lines *)

Lemma columns_cover (keys : gset string) ccs :
  keys ⊆ list_to_set (columns_of keys ccs).
Proof.
  intros k Hk. apply elem_of_list_to_set. unfold columns_of.
  destruct (decide (k ∈ fixed_columns)) as [Hfix|Hfix].
  - unfold fixed_columns in Hfix.
    repeat (apply elem_of_cons in Hfix as [->|Hfix]); [by left | | | by apply elem_of_nil in Hfix];
      right; apply elem_of_app; right; set_solver.
  - destruct (decide (k ∈ ccs.*1)) as [Hc|Hc].
    + do 3 (apply elem_of_app; right).
      apply (sorted_filter_lists keys (fun k => (k ∉ fixed_columns) /\ (k ∈ ccs.*1))). done.
    + apply elem_of_app; right. apply elem_of_app; left.
      apply (sorted_filter_lists keys (fun k => (k ∉ fixed_columns) /\ (k ∉ ccs.*1))). done.
Qed.

(** The lines of the records, one after the other. *)
Definition record_lines (columns : list string) (rows : list (gmap string pyval))
    : string :=
  foldr (fun row rest => csv_record (cell str_of row <$> columns) +:+ rest) "" rows.

Definition csv_text (columns : list string) (rows : list (gmap string pyval)) : string :=
  csv_record columns +:+ record_lines columns rows.

Lemma writerows_ok columns rows written :
  Forall (fun row => dom row ⊆ list_to_set columns) rows ->
  writerows str_of csv_record columns rows written
    = (written +:+ record_lines columns rows, None).
Proof.
  intros Hall. revert written.
  induction Hall as [|row rows Hrow _ IH]; intros written; simpl.
  - by rewrite append_empty_r.
  - unfold writerow. rewrite decide_True by done. rewrite IH. by rewrite append_assoc.
Qed.


End WithCsv.

End WithCodecs.

(** *** A run on small tables *)

(** Toy renderings for running the definitions: the text of a value, one
    comma-separated line per record, and a codec that brackets its input. *)
Definition show_val (v : pyval) : string :=
  match v with
  | PNone => "None"
  | PStr s => s
  | PNum (NInt z) => pretty z
  | PNum (NFloat f) =>
      match int_SF (Prim2SF f) with Ok z => pretty z | Raise _ => "nan" end
  | PAddr (IPv4Address n) => "v4:" +:+ pretty n
  | PAddr (IPv6Address n) => "v6:" +:+ pretty n
  end.

Definition show_record (fields : list string) : string := join "," fields +:+ nl.

Definition bracket (c : codec) (text : string) : string := "gz(" +:+ text +:+ ")".

Definition toy_rewrite_results :=
  rewrite_results bracket show_val show_record.

Definition results_gz : Dest := mkDest "out" "results.csv" ".gz".

Definition disk : gmap string file :=
  {[ "out/results.csv.gz" := mkFile "gz(old)" true ]}.

Definition record (a : IpAddress) (city usa : string) : gmap string pyval :=
  <["USA" := PStr usa]> (<["city" := PStr city]>
    (ReconcileFacts.landmark_at a 2 48)).

Definition record_v4 : gmap string pyval :=
  record (IPv4Address 7) "Paris" "5840000".
Definition record_v4' : gmap string pyval :=
  record (IPv4Address 3) "Lyon" "6100000".
Definition record_town : gmap string pyval :=
  <["town" := PStr "Lille"]> (delete "city" record_v4').

(** Differing keys: the message, and the disk untouched. *)
Lemma rewrite_results_example_bad_record :
  toy_rewrite_results Undisturbed disk ["k3x"] results_gz
    [record_v4; record_town] ReconcileFacts.ccs_usa
  = (disk, Raised (SystemExit (ExitMsg
      ("internal error: bad record for v4:3:" +:+ nl +:+
       "    extra keys: town" +:+ nl +:+ "  missing keys: city" +:+ nl)))).
Proof. vm_refl. Qed.

Lemma rewrite_results_rejects_differing_keys_witness :
  exists row a extra_line missing_line,
    row ∈ [record_town] /\ dom row <> dom record_v4 /\ row !! "addr" = Some a /\
    key_line "    extra keys: " (dom row ∖ dom record_v4) extra_line /\
    key_line "  missing keys: " (dom record_v4 ∖ dom row) missing_line /\
    toy_rewrite_results Undisturbed disk ["k3x"] results_gz
      [record_v4; record_town] ReconcileFacts.ccs_usa
    = (disk, Raised (SystemExit (ExitMsg
         ("internal error: bad record for " +:+ show_val a +:+ ":" +:+ nl
          +:+ extra_line +:+ missing_line)))).
Proof.
  apply (rewrite_results_rejects_differing_keys bracket show_val show_record
           Undisturbed disk ["k3x"] results_gz record_v4 [record_town]
           ReconcileFacts.ccs_usa).
  - repeat constructor; apply (bool_decide_unpack _); vm_compute; exact I.
  - apply Exists_cons_hd. apply (bool_decide_unpack _). vm_compute. exact I.
Defined.

(** Same keys, one IP version: the file written. *)
Lemma rewrite_results_example :
  toy_rewrite_results Undisturbed disk ["k3x"] results_gz
    [record_v4; record_v4'] ReconcileFacts.ccs_usa
  = ({[ "out/results.csv.gz" :=
          mkFile ("gz(addr,city,longitude,latitude,USA" +:+ nl +:+
                  "v4:3,Lyon,2,48,6100000" +:+ nl +:+
                  "v4:7,Paris,2,48,5840000" +:+ nl +:+ ")") true ]},
     Returned).
Proof. vm_refl. Qed.

(** An earlier table under a name without compressing extension. *)
Definition disk_csv : gmap string file :=
  {[ "out/results.csv" := mkFile "old" true ]}.

(** C8 (the code departs from it).  The destination [out/results.csv]
    has no compressing extension and holds an earlier table; nothing
    disturbs the call and the caller's block does not raise.  Whatever
    the text and the codecs, no text is written to a temporary file,
    synced and renamed over the destination: line 199 hands the
    temporary file object to [open_with_auto_compression], whose last
    branch asserts that it is given a path or a descriptor, the call
    raises [AssertionError] and the earlier table stays.  The same call
    for [out/results.csv.gz] does what the claim says. *)
Theorem atomic_rewrite_refuses_plain_destination
    (compress : codec -> string -> string) (text : string) :
  atomic_rewrite compress Undisturbed disk_csv (mkDest "out" "results" ".csv") "wt"
    ["k3x"] (text, None)
  = (disk_csv, Raised AssertionError) /\
  atomic_rewrite compress Undisturbed disk results_gz "wt" ["k3x"] (text, None)
  = ({[ "out/results.csv.gz" := mkFile (compress Gzip text) true ]}, Returned).
Proof. split; vm_refl. Qed.

(** The destination has no compressing extension: the assertion of
    [open_with_auto_compression] fails on the file object, nothing is
    written. *)
Lemma rewrite_results_example_plain_csv :
  toy_rewrite_results Undisturbed disk ["k3x"] (mkDest "out" "results" ".csv")
    [record_v4; record_v4'] ReconcileFacts.ccs_usa
  = (disk, Raised AssertionError).
Proof. vm_refl. Qed.

Lemma atomic_rewrite_plain_extension_raises_witness :
  atomic_rewrite bracket Undisturbed disk (mkDest "out" "results" ".csv") "wt"
    ["k3x"] ("text", None)
  = (disk, Raised AssertionError).
Proof.
  apply (atomic_rewrite_plain_extension_raises bracket disk
           (mkDest "out" "results" ".csv") "wt" ["k3x"] ("text", None)
           "out/results-k3x.csv").
  - apply (bool_decide_unpack _). vm_compute. exact I.
  - vm_refl.
  - vm_refl.
Defined.


(** [os.replace] fails: the old file stays, the temporary file is
    removed, the link is left with the new text. *)
Lemma atomic_rewrite_example_replace_fails :
  atomic_rewrite bracket (IOFails 4) disk results_gz "wt" ["k3x"] ("new", None)
  = (<["out/results.csv-k3x.gz." := mkFile "gz(new)" true]> disk,
     Raised (OSError "input/output error")).
Proof. vm_refl. Qed.

Lemma atomic_rewrite_discards_temporary_file_witness :
  ("out/results.csv-k3x.gz" ∉
     dom (atomic_rewrite bracket (IOFails 4) disk results_gz "wt" ["k3x"]
            ("new", None)).1) /\
  (forall p, p <> dest_name results_gz -> p <> "out/results.csv-k3x.gz" +:+ "." ->
     (atomic_rewrite bracket (IOFails 4) disk results_gz "wt" ["k3x"]
        ("new", None)).1 !! p = disk !! p) /\
  ((atomic_rewrite bracket (IOFails 4) disk results_gz "wt" ["k3x"]
      ("new", None)).1 !! ("out/results.csv-k3x.gz" +:+ ".")
     = disk !! ("out/results.csv-k3x.gz" +:+ ".") \/ IOFails 4 = IOFails 4).
Proof.
  apply (atomic_rewrite_discards_temporary_file bracket (IOFails 4) disk results_gz
           "wt" ["k3x"] ("new", None) "out/results.csv-k3x.gz").
  - intros k. discriminate.
  - vm_refl.
Defined.



End WriterFacts.

(** ** The input files *)

Module Loaders.

(** The exceptions the loaders and [main] meet besides those of [exn]. *)
Inductive raised :=
  | Exn (e : exn)
  | AttributeError (what : string)
  | FileNotFoundError (path : string).

Inductive answer (A : Type) :=
  | Gives (a : A)
  | Throws (e : raised).
Arguments Gives {A} a.
Arguments Throws {A} e.

#[export] Instance answer_ret : MRet answer := @Gives.
#[export] Instance answer_bind : MBind answer :=
  fun A B f r => match r with Gives a => f a | Throws e => Throws e end.

Definition of_result {A} (r : result A) : answer A :=
  match r with Ok a => Gives a | Raise e => Throws (Exn e) end.

(** *** Merge rules *)

(** [d[k] = v] on a dictionary kept in insertion order: a key already
    there keeps its place and takes the new value. *)
Fixpoint setitem {V} (k : string) (v : V) (d : list (string * V)) : list (string * V) :=
  match d with
  | [] => [(k, v)]
  | (k', v') :: d' =>
      if decide (k' = k) then (k', v) :: d' else (k', v') :: setitem k v d'
  end.

Section WithStr.
(** [str.upper] and [str.strip]. *)
Variables upper strip : string -> string.

(** [load_merge_rules], from the mapping [yaml.load] returns for a file
    that maps names to lists of names, given by its items in order. *)
Definition load_merge_rules (doc : list (string * list string))
    : list (string * list string) :=
  fold_left (fun d kv => setitem (upper kv.1) (upper <$> kv.2) d) doc [].

(** *** Rows of a CSV file *)

(** A row as [csv.DictReader] yields it: the cells by column name in the
    order of the header, [None] for a column the line was too short for.
    (A line longer than the header, whose surplus the reader files under
    the key [None], is not represented.) *)
Definition Row := list (string * option string).

(** [fieldnames] is [None] for an empty file. *)
Record CsvFile := mkCsvFile {
  fieldnames : option (list string);
  rows : list Row
}.

(** [row[k]] *)
Fixpoint row_get (row : Row) (k : string) : option (option string) :=
  match row with
  | [] => None
  | (k', v) :: row' => if decide (k' = k) then Some v else row_get row' k
  end.

(** *** The country table *)

Inductive code_diag :=
  | DuplicateName (name : string)
  | DuplicateA2 (code : string)
  | DuplicateA3 (code : string).

(** [row[k].strip()] *)
Definition stripped (row : Row) (k : string) : answer string :=
  match row_get row k with
  | None => Throws (Exn (KeyError k))
  | Some None => Throws (AttributeError "'NoneType' object has no attribute 'strip'")
  | Some (Some s) => Gives (strip s)
  end.

Record CodesState := mkCodesState {
  rv : CountryInfoTable;
  dupe_A2 : gset string;
  dupe_NM : gset string;
  code_errors : list code_diag
}.

(** Lines 278 to 305: one row. *)
Definition add_code (st : CodesState) (row : Row) : answer CodesState :=
  a3 ← stripped row "ISO_A3"; let a3 := upper a3 in
  a2 ← stripped row "ISO_A2"; let a2 := upper a2 in
  nm ← stripped row "NAME";
  let '(names, e1) :=
    if decide (nm ∈ dupe_NM st) then (dupe_NM st, [DuplicateName nm])
    else ({[nm]} ∪ dupe_NM st, []) in
  let '(codes, e2) :=
    if decide (a2 ∈ dupe_A2 st) then (dupe_A2 st, [DuplicateA2 a2])
    else ({[a2]} ∪ dupe_A2 st, []) in
  let '(table, e3) :=
    if decide (a3 ∈ (rv st).*1) then (rv st, [DuplicateA3 a3])
    else (rv st ++ [(a3, mkCountryInfo a3 a2 nm)], []) in
  Gives (mkCodesState table codes names (code_errors st ++ e1 ++ e2 ++ e3)).

Fixpoint read_codes (st : CodesState) (rows : list Row) : CodesState * option raised :=
  match rows with
  | [] => (st, None)
  | row :: rows' =>
      match add_code st row with
      | Gives st' => read_codes st' rows'
      | Throws e => (st, Some e)
      end
  end.

(** [load_country_codes]: the lines written to [sys.stderr] (by kind and
    subject) and the outcome. *)
Definition load_country_codes (ccs_file : string) (file : CsvFile)
    : list code_diag * answer CountryInfoTable :=
  let wrong := Throws (Exn (SystemExit (ExitMsg (ccs_file +:+ ": wrong set of fields")))) in
  match fieldnames file with
  | None => ([], wrong)
  | Some names =>
      if negb (bool_decide (sorted names = ["ISO_A2"; "ISO_A3"; "NAME"])) then ([], wrong)
      else
        match read_codes (mkCodesState [] ∅ ∅ []) (rows file) with
        | (st, Some e) => (code_errors st, Throws e)
        | (st, None) =>
            if negb (bool_decide (code_errors st = []))
            then (code_errors st, Throws (Exn (SystemExit (ExitCode 1))))
            else (code_errors st, Gives (rv st))
        end
  end.

End WithStr.

(** *** Landmarks *)

Section WithParsers.
(** [float(s)] and [ipaddress.ip_address(s)] of a string; both raise
    [ValueError] on a text they cannot read. *)
Variable float_of_str : string -> result float.
Variable ip_address : string -> result IpAddress.

(** [float(row[k])] and [ipaddress.ip_address(row[k])]. *)
Definition float_cell (v : option string) : result float :=
  match v with
  | Some s => float_of_str s
  | None => Raise (TypeError "float() argument must be a string or a number, not 'NoneType'")
  end.

Definition addr_cell (v : option string) : result IpAddress :=
  match v with
  | Some s => ip_address s
  | None => Raise (ValueError "None does not appear to be an IPv4 or IPv6 address")
  end.

Definition text_cell (v : option string) : pyval :=
  match v with Some s => PStr s | None => PNone end.

(** Lines 342 to 350: the loop over the keys of one row; [addr] is the
    local variable of that name. *)
Fixpoint read_row (row : Row) (xrow : gmap string pyval) (addr : option IpAddress)
    : result (gmap string pyval * option IpAddress) :=
  match row with
  | [] => Ok (xrow, addr)
  | (k, v) :: row' =>
      if decide (k = "longitude" \/ k = "latitude") then
        f ← float_cell v; read_row row' (<[k := PNum (NFloat f)]> xrow) addr
      else if decide (k = "addr") then
        a ← addr_cell v; read_row row' (<[k := PAddr a]> xrow) (Some a)
      else read_row row' (<[k := text_cell v]> xrow) addr
  end.

(** Lines 339 to 360: the loop over the rows. *)
Fixpoint read_landmarks (lm_file : string) (rows : list Row) (rv : LandmarksTable)
    : result LandmarksTable :=
  match rows with
  | [] => Ok rv
  | row :: rows' =>
      '(xrow, addr) ← read_row row ∅ None;
      match addr with
      | None => Raise AssertionError
      | Some addr =>
          if decide (addr ∈ rv.*1) then
            text ← match row_get row "addr" with
                   | Some (Some s) => Ok s
                   | Some None => Ok "None"
                   | None => Raise (KeyError "addr")
                   end;
            Raise (SystemExit (ExitMsg
              (lm_file +:+ ": duplicate entry for landmark " +:+ text)))
          else read_landmarks lm_file rows' (rv ++ [(addr, xrow)])
      end
  end.

(** [load_landmarks], [file] being what the file holds, [None] when
    there is no such file. *)
Definition load_landmarks (lm_file : string) (file : option CsvFile)
    : answer LandmarksTable :=
  match file with
  | None => Throws (FileNotFoundError lm_file)
  | Some file =>
      let fields := default [] (fieldnames file) in
      if negb (bool_decide ("longitude" ∈ fields /\ "latitude" ∈ fields /\ "addr" ∈ fields))
      then Throws (Exn (SystemExit (ExitMsg (lm_file +:+ ": wrong set of columns"))))
      else of_result (read_landmarks lm_file (rows file) [])
  end.

End WithParsers.

End Loaders.

(** ** Properties of the loaders *)

Module LoadersFacts.
Import Loaders ReconcileFacts.

(** *** Dictionaries in insertion order *)

Lemma setitem_keys {V} k (v : V) d :
  (setitem k v d).*1 = if decide (k ∈ d.*1) then d.*1 else d.*1 ++ [k].
Proof.
  induction d as [|[k' v'] d IH]; cbn [setitem fmap list_fmap fst].
  - rewrite decide_False; [done | apply not_elem_of_nil].
  - destruct (decide (k' = k)) as [->|Hne]; cbn [fmap list_fmap fst].
    + rewrite decide_True; [done | by left].
    + change (list_fmap _ _ fst ?l) with (l.*1).
      rewrite IH. destruct (decide (k ∈ d.*1)) as [Hin|Hnin].
      * rewrite decide_True; [done | by right].
      * rewrite decide_False; [done|]. intros [->|?]%elem_of_cons; done.
Qed.

Lemma setitem_NoDup {V} k (v : V) d : NoDup d.*1 -> NoDup (setitem k v d).*1.
Proof.
  intros Hnd. rewrite setitem_keys. case_decide; [done|].
  apply NoDup_app. split_and!; [done | | apply NoDup_singleton].
  intros x Hx ->%list_elem_of_singleton. done.
Qed.

Lemma setitem_elem {V} k (v : V) d K W :
  NoDup d.*1 ->
  (K, W) ∈ setitem k v d <-> (K = k /\ W = v) \/ (K <> k /\ (K, W) ∈ d).
Proof.
  induction d as [|[k' v'] d IH]; simpl; intros Hnd.
  - rewrite list_elem_of_singleton. split.
    + intros [= -> ->]. by left.
    + intros [[-> ->]|[_ H]]; [done | by apply elem_of_nil in H].
  - apply NoDup_cons in Hnd as [Hhd Hnd].
    destruct (decide (k' = k)) as [->|Hne].
    + rewrite !elem_of_cons. split.
      * intros [[= -> ->]|Hin]; [by left|]. right. split; [|by right].
        intros ->. apply Hhd. apply list_elem_of_fmap. by exists (k, W).
      * intros [[-> ->]|[Hne [[= -> ->]|Hin]]]; [by left | done | by right].
    + rewrite !elem_of_cons, (IH Hnd). split.
      * intros [[= -> ->]|[[-> ->]|[HK Hin]]].
        -- right. split; [done | by left].
        -- by left.
        -- right. split; [done | by right].
      * intros [[-> ->]|[HK [[= -> ->]|Hin]]].
        -- right. by left.
        -- by left.
        -- right. right. done.
Qed.

Section WithStr.
Variables upper strip : string -> string.

Abbreviation rules_of := (load_merge_rules upper).

Lemma load_merge_rules_snoc doc k v :
  rules_of (doc ++ [(k, v)]) = setitem (upper k) (upper <$> v) (rules_of doc).
Proof. unfold load_merge_rules. by rewrite fold_left_app. Qed.

Lemma load_merge_rules_NoDup doc : NoDup (rules_of doc).*1.
Proof.
  induction doc as [|[k v] doc IH] using rev_ind; [constructor|].
  rewrite load_merge_rules_snoc. by apply setitem_NoDup.
Qed.

(** The rules have one entry per name in upper case: the names and the
    units are put in upper case, and of two names of the file that are
    the same in upper case only the later one's list is kept. *)
Theorem load_merge_rules_last_wins doc K W :
  (K, W) ∈ load_merge_rules upper doc <->
  exists i k v,
    doc !! i = Some (k, v) /\ K = upper k /\ W = upper <$> v /\
    forall j k' v', i < j -> doc !! j = Some (k', v') -> upper k' <> K.
Proof.
  revert K W. induction doc as [|[k v] doc IH] using rev_ind; intros K W.
  - split; [by intros ?%elem_of_nil | by intros (i & ? & ? & ? & _)].
  - rewrite load_merge_rules_snoc, setitem_elem by apply load_merge_rules_NoDup.
    rewrite IH. split.
    + intros [[-> ->]|[HK (i & k0 & v0 & Hi & -> & -> & Hlast)]].
      * exists (length doc), k, v. split_and!; try done.
        -- by rewrite lookup_app_r, Nat.sub_diag by lia.
        -- intros j k' v' Hj Hl. apply lookup_lt_Some in Hl.
           rewrite length_app in Hl. simpl in Hl. lia.
      * exists i, k0, v0. split_and!; try done.
        -- rewrite lookup_app_l; [done | by eapply lookup_lt_Some].
        -- intros j k' v' Hj Hl.
           destruct (decide (j < length doc)) as [Hlt|Hge].
           ++ rewrite lookup_app_l in Hl by done. by eapply Hlast.
           ++ rewrite lookup_app_r in Hl by lia.
              destruct (j - length doc) as [|n] eqn:Hn; simpl in Hl; [|done].
              injection Hl as <- <-. done.
    + intros (i & k0 & v0 & Hi & -> & -> & Hlast).
      destruct (decide (i < length doc)) as [Hlt|Hge].
      * rewrite lookup_app_l in Hi by done. right. split.
        -- apply not_eq_sym. apply (Hlast (length doc) k v); [done|].
           by rewrite lookup_app_r, Nat.sub_diag by lia.
        -- exists i, k0, v0. split_and!; try done.
           intros j k' v' Hj Hl. apply (Hlast j k' v' Hj).
           rewrite lookup_app_l; [done | by eapply lookup_lt_Some].
      * rewrite lookup_app_r in Hi by lia.
        destruct (i - length doc) as [|n] eqn:Hn; simpl in Hi; [|done].
        injection Hi as <- <-. by left.
Qed.

(** *** The country table *)

(** The entry a row gives, when its three cells are there. *)
Definition code_of (row : Row) : option CountryInfo :=
  match row_get row "ISO_A3", row_get row "ISO_A2", row_get row "NAME" with
  | Some (Some a3), Some (Some a2), Some (Some nm) =>
      Some (mkCountryInfo (upper (strip a3)) (upper (strip a2)) (strip nm))
  | _, _, _ => None
  end.

Definition filed (infos : list CountryInfo) : CountryInfoTable :=
  (fun c => (ISO_A3 c, c)) <$> infos.

(** No alpha-3 code, no alpha-2 code and no name comes twice. *)
Definition unique_codes (infos : list CountryInfo) : Prop :=
  NoDup (ISO_A3 <$> infos) /\ NoDup (ISO_A2 <$> infos) /\ NoDup (NAME <$> infos).

Definition fresh_code (infos : list CountryInfo) (c : CountryInfo) : Prop :=
  (ISO_A3 c ∉ ISO_A3 <$> infos) /\ (ISO_A2 c ∉ ISO_A2 <$> infos) /\
  (NAME c ∉ NAME <$> infos).

(** The state of the loop after the rows [infos], none of them reported. *)
Definition clean (st : CodesState) (infos : list CountryInfo) : Prop :=
  rv st = filed infos /\
  dupe_A2 st = list_to_set (ISO_A2 <$> infos) /\
  dupe_NM st = list_to_set (NAME <$> infos) /\
  code_errors st = [].

Lemma filed_keys infos : (filed infos).*1 = ISO_A3 <$> infos.
Proof. unfold filed. rewrite <- list_fmap_compose. done. Qed.

Lemma unique_codes_snoc infos c :
  unique_codes (infos ++ [c]) <-> unique_codes infos /\ fresh_code infos c.
Proof.
  unfold unique_codes, fresh_code. rewrite !fmap_app. simpl.
  rewrite !NoDup_app.
  split.
  - intros ((H1 & H2 & _) & (H3 & H4 & _) & (H5 & H6 & _)).
    split_and!; try done.
    + intros Hin. by apply (H2 _ Hin), list_elem_of_singleton.
    + intros Hin. by apply (H4 _ Hin), list_elem_of_singleton.
    + intros Hin. by apply (H6 _ Hin), list_elem_of_singleton.
  - intros ((H1 & H2 & H3) & (H4 & H5 & H6)).
    split_and!; try done; try apply NoDup_singleton.
    + by intros x Hx ->%list_elem_of_singleton.
    + by intros x Hx ->%list_elem_of_singleton.
    + by intros x Hx ->%list_elem_of_singleton.
Qed.

Lemma add_code_code_of st row st' :
  add_code upper strip st row = Gives st' -> is_Some (code_of row).
Proof.
  unfold add_code, code_of, stripped.
  destruct (row_get row "ISO_A3") as [[a3|]|]; [|done..].
  destruct (row_get row "ISO_A2") as [[a2|]|]; [|done..].
  destruct (row_get row "NAME") as [[nm|]|]; [|done..].
  by eexists.
Qed.

Lemma add_code_Throws st row :
  code_of row = None -> exists e, add_code upper strip st row = Throws e.
Proof.
  unfold add_code, code_of, stripped.
  destruct (row_get row "ISO_A3") as [[a3|]|]; [|by eexists..].
  destruct (row_get row "ISO_A2") as [[a2|]|]; [|by eexists..].
  destruct (row_get row "NAME") as [[nm|]|]; [|by eexists..].
  done.
Qed.

Lemma add_code_errors st row st' :
  add_code upper strip st row = Gives st' ->
  exists e, code_errors st' = code_errors st ++ e.
Proof.
  unfold add_code, stripped.
  destruct (row_get row "ISO_A3") as [[a3|]|]; [|done..].
  destruct (row_get row "ISO_A2") as [[a2|]|]; [|done..].
  destruct (row_get row "NAME") as [[nm|]|]; [|done..].
  cbn [mbind answer_bind].
  repeat case_decide; intros [= <-]; by eexists.
Qed.

Lemma add_code_clean st infos row c :
  clean st infos -> code_of row = Some c ->
  exists st', add_code upper strip st row = Gives st' /\
    (fresh_code infos c -> clean st' (infos ++ [c])) /\
    (~ fresh_code infos c -> code_errors st' <> []).
Proof.
  intros (Hrv & Ha2 & Hnm & Herr). unfold add_code, code_of, stripped, fresh_code.
  destruct (row_get row "ISO_A3") as [[a3|]|]; [|done..].
  destruct (row_get row "ISO_A2") as [[a2|]|]; [|done..].
  destruct (row_get row "NAME") as [[nm|]|]; [|done..].
  intros [= <-]. cbn [mbind answer_bind ISO_A3 ISO_A2 NAME].
  rewrite Hrv, Ha2, Hnm, Herr, filed_keys.
  destruct (decide (strip nm ∈ _)) as [Hn|Hn]; rewrite elem_of_list_to_set in Hn;
    (destruct (decide (upper (strip a2) ∈ _)) as [H2|H2];
     rewrite elem_of_list_to_set in H2);
    (destruct (decide (upper (strip a3) ∈ ISO_A3 <$> infos)) as [H3|H3]);
    eexists; (split; [reflexivity|]); cbn [code_errors app].
  all: try (split; [by intros (? & ? & ?) | by intros _]).
  split; [|by intros []].
  intros _. unfold clean, filed. cbn [rv dupe_A2 dupe_NM code_errors].
  rewrite !fmap_app. cbn [fmap list_fmap ISO_A2 NAME].
  split_and!; [done | set_solver | set_solver | done].
Qed.

Lemma read_codes_errors rows st st' r :
  read_codes upper strip st rows = (st', r) ->
  exists e, code_errors st' = code_errors st ++ e.
Proof.
  revert st. induction rows as [|row rows IH]; intros st; simpl.
  - intros [= <- <-]. exists []. by rewrite app_nil_r.
  - destruct (add_code upper strip st row) as [st1|e] eqn:Hadd.
    + intros (e2 & He2)%IH. apply add_code_errors in Hadd as (e1 & He1).
      exists (e1 ++ e2). by rewrite He2, He1, app_assoc.
    + intros [= <- <-]. exists []. by rewrite app_nil_r.
Qed.

Lemma read_codes_sound rows st infos0 st' :
  clean st infos0 -> unique_codes infos0 ->
  read_codes upper strip st rows = (st', None) -> code_errors st' = [] ->
  exists infos,
    Forall2 (fun row c => code_of row = Some c) rows infos /\
    clean st' (infos0 ++ infos) /\ unique_codes (infos0 ++ infos).
Proof.
  revert st infos0. induction rows as [|row rows IH]; intros st infos0 Hclean Huniq; simpl.
  - intros [= <-] _. exists []. rewrite app_nil_r. by split_and!.
  - destruct (add_code upper strip st row) as [st1|e] eqn:Hadd; [|done].
    intros Hrun Herr.
    destruct (add_code_code_of _ _ _ Hadd) as [c Hc].
    destruct (add_code_clean _ _ _ _ Hclean Hc) as (st1' & Hadd' & Hfresh & Hstale).
    rewrite Hadd in Hadd'. injection Hadd' as <-.
    destruct (decide (fresh_code infos0 c)) as [Hf|Hnf].
    + destruct (IH st1 (infos0 ++ [c]) (Hfresh Hf)) as (infos & Hall & Hcl & Hun);
        [by apply unique_codes_snoc | done | done |].
      exists (c :: infos). rewrite <- app_assoc in Hcl, Hun. split_and!; try done.
      by constructor.
    + exfalso. apply (Hstale Hnf).
      destruct (read_codes_errors _ _ _ _ Hrun) as (e & He).
      rewrite Herr in He. symmetry in He. by apply app_eq_nil in He as [? _].
Qed.

Lemma unique_codes_app_l infos1 infos2 :
  unique_codes (infos1 ++ infos2) -> unique_codes infos1.
Proof.
  unfold unique_codes. rewrite !fmap_app, !NoDup_app. naive_solver.
Qed.

Lemma read_codes_complete rows st infos0 infos :
  clean st infos0 ->
  Forall2 (fun row c => code_of row = Some c) rows infos ->
  unique_codes (infos0 ++ infos) ->
  exists st', read_codes upper strip st rows = (st', None) /\ clean st' (infos0 ++ infos).
Proof.
  intros Hclean Hall. revert st infos0 Hclean.
  induction Hall as [|row c rows infos Hc _ IH]; intros st infos0 Hclean Huniq; simpl.
  - exists st. by rewrite app_nil_r.
  - destruct (add_code_clean _ _ _ _ Hclean Hc) as (st1 & -> & Hfresh & _).
    replace (infos0 ++ c :: infos) with ((infos0 ++ [c]) ++ infos) in *
      by (by rewrite <- app_assoc).
    apply IH; [|done]. apply Hfresh.
    by apply unique_codes_app_l, unique_codes_snoc in Huniq as [_ ?].
Qed.

Lemma sorted_three names :
  sorted names = ["ISO_A2"; "ISO_A3"; "NAME"] <-> names ≡ₚ ["ISO_A3"; "ISO_A2"; "NAME"].
Proof.
  split.
  - intros H. rewrite <- (WriterFacts.sorted_perm names), H. apply perm_swap.
  - intros H.
    assert (Hlen : length names = 3) by (by rewrite H).
    destruct names as [|x [|y [|z [|]]]]; try done.
    assert (Hx : x ∈ ["ISO_A3"; "ISO_A2"; "NAME"]) by (rewrite <- H; set_solver).
    assert (Hy : y ∈ ["ISO_A3"; "ISO_A2"; "NAME"]) by (rewrite <- H; set_solver).
    assert (Hz : z ∈ ["ISO_A3"; "ISO_A2"; "NAME"]) by (rewrite <- H; set_solver).
    assert (H3 : "ISO_A3" ∈ [x; y; z]) by (rewrite H; set_solver).
    assert (H2 : "ISO_A2" ∈ [x; y; z]) by (rewrite H; set_solver).
    assert (Hn : "NAME" ∈ [x; y; z]) by (rewrite H; set_solver).
    clear H Hlen. set_unfold.
    destruct Hx as [Hx|[Hx|[Hx|[]]]], Hy as [Hy|[Hy|[Hy|[]]]], Hz as [Hz|[Hz|[Hz|[]]]];
      subst x y z; first [ reflexivity | exfalso; naive_solver ].
Qed.

(** [load_country_codes] returns exactly when the header is made of the
    three column names, every row has its three cells, and no alpha-3
    code, alpha-2 code or name (stripped, the codes in upper case) comes
    twice; the table then has one entry per row, in the order of the
    rows, filed under its alpha-3 code, and nothing was reported. *)
Theorem load_country_codes_returns_iff ccs_file file err table :
  load_country_codes upper strip ccs_file file = (err, Gives table) <->
  err = [] /\
  (exists names, fieldnames file = Some names /\
                 names ≡ₚ ["ISO_A3"; "ISO_A2"; "NAME"]) /\
  exists infos,
    Forall2 (fun row c => code_of row = Some c) (rows file) infos /\
    unique_codes infos /\
    table = (fun c => (ISO_A3 c, c)) <$> infos.
Proof.
  unfold load_country_codes.
  assert (Hstart : clean (mkCodesState [] ∅ ∅ []) []) by done.
  assert (Hnone : unique_codes []) by (repeat split; constructor).
  split.
  - destruct (fieldnames file) as [names|]; [|done].
    case_bool_decide as Hnames; cbn [negb]; [|done].
    destruct (read_codes _ _ _ _) as [st [e|]] eqn:Hrun; [done|].
    case_bool_decide as Herr; cbn [negb]; [|done].
    intros [= <- <-].
    destruct (read_codes_sound _ _ _ _ Hstart Hnone Hrun Herr)
      as (infos & Hall & (Hrv & _) & Huniq).
    split_and!; [done | |].
    + exists names. split; [done | by apply sorted_three].
    + exists infos. done.
  - intros (-> & (names & -> & Hnames) & infos & Hall & Huniq & ->).
    rewrite bool_decide_eq_true_2 by (by apply sorted_three). cbn [negb].
    destruct (read_codes_complete _ _ _ _ Hstart Hall Huniq)
      as (st' & -> & (Hrv & _ & _ & Herr)).
    rewrite bool_decide_eq_true_2 by done. cbn [negb].
    by rewrite Herr, Hrv.
Qed.

End WithStr.

(** *** Landmarks *)

Section WithParsers.
Variable float_of_str : string -> result float.
Variable ip_address : string -> result IpAddress.

Abbreviation landmarks_of := (load_landmarks float_of_str ip_address).

(** The three columns [load_landmarks] reads. *)
Definition typed_column (k : string) : Prop :=
  k = "longitude" \/ k = "latitude" \/ k = "addr".

(** The record [lm], filed under [a], is what the row holds: the same
    columns, the address and the coordinates parsed, every other cell as
    the text it is ([None] where the line was short). *)
Definition loaded (row : Row) (lm : gmap string pyval) (a : IpAddress) : Prop :=
  dom lm = list_to_set row.*1 /\
  (exists s, (("addr", Some s) ∈ row) /\ ip_address s = Ok a /\
             lm !! "addr" = Some (PAddr a)) /\
  (forall k v, (k, v) ∈ row -> k = "longitude" \/ k = "latitude" ->
     exists s f, v = Some s /\ float_of_str s = Ok f /\
                 lm !! k = Some (PNum (NFloat f))) /\
  (forall k v, (k, v) ∈ row -> ~ typed_column k -> lm !! k = Some (text_cell v)).

Lemma read_row_spec row : forall xrow addr lm addr',
  NoDup row.*1 ->
  read_row float_of_str ip_address row xrow addr = Ok (lm, addr') ->
  dom lm = dom xrow ∪ list_to_set row.*1 /\
  (forall k, k ∉ row.*1 -> lm !! k = xrow !! k) /\
  (("addr" ∉ row.*1) -> addr' = addr) /\
  (forall v, ("addr", v) ∈ row ->
     exists s a, v = Some s /\ ip_address s = Ok a /\ addr' = Some a /\
                 lm !! "addr" = Some (PAddr a)) /\
  (forall k v, (k, v) ∈ row -> k = "longitude" \/ k = "latitude" ->
     exists s f, v = Some s /\ float_of_str s = Ok f /\
                 lm !! k = Some (PNum (NFloat f))) /\
  (forall k v, (k, v) ∈ row -> ~ typed_column k -> lm !! k = Some (text_cell v)).
Proof.
  induction row as [|[k v] row IH]; intros xrow addr lm addr' Hnd; cbn [read_row].
  - intros [= <- <-]. split_and!; try done.
    + set_solver.
    + by intros v ?%elem_of_nil.
    + by intros k v ?%elem_of_nil.
    + by intros k v ?%elem_of_nil.
  - cbn [fmap list_fmap fst] in Hnd. apply NoDup_cons in Hnd as [Hk Hnd].
    change (list_fmap _ _ fst row) with (row.*1) in *.
    assert (Hfresh : forall v', (k, v') ∈ row -> False).
    { intros v' Hin. apply Hk. apply list_elem_of_fmap. by exists (k, v'). }
    destruct (decide (k = "longitude" \/ k = "latitude")) as [Hll|Hll];
      [|destruct (decide (k = "addr")) as [->|Haddr]].
    + destruct v as [s|]; cbn [float_cell]; [|done].
      destruct (float_of_str s) as [f|e] eqn:Hf; [|done]. cbn [mbind result_bind].
      intros (Hdom & Hout & Hno & Ha & Hl & Ht)%IH; [|done].
      assert (Hlm : lm !! k = Some (PNum (NFloat f))).
      { rewrite Hout by done. by rewrite lookup_insert_eq. }
      split_and!.
      * rewrite Hdom, dom_insert_L. cbn [fmap list_fmap fst]. set_solver.
      * intros k' Hk'. apply not_elem_of_cons in Hk' as [Hne Hk'].
        rewrite Hout by done. by rewrite lookup_insert_ne.
      * intros Hna. apply Hno. by apply not_elem_of_cons in Hna as [_ ?].
      * intros v' [[= <- ->]|Hin]%elem_of_cons; [|by apply Ha].
        destruct Hll; done.
      * intros k' v' [[= -> ->]|Hin]%elem_of_cons; [|by apply Hl].
        intros _. by exists s, f.
      * intros k' v' [[= -> ->]|Hin]%elem_of_cons; [|by apply Ht].
        intros Hnt. exfalso. apply Hnt. unfold typed_column. tauto.
    + destruct v as [s|]; cbn [addr_cell]; [|done].
      destruct (ip_address s) as [a|e] eqn:Hip; [|done]. cbn [mbind result_bind].
      intros (Hdom & Hout & Hno & Ha & Hl & Ht)%IH; [|done].
      assert (Hlm : lm !! "addr" = Some (PAddr a)).
      { rewrite Hout by done. by rewrite lookup_insert_eq. }
      split_and!.
      * rewrite Hdom, dom_insert_L. cbn [fmap list_fmap fst]. set_solver.
      * intros k' Hk'. apply not_elem_of_cons in Hk' as [Hne Hk'].
        rewrite Hout by done. by rewrite lookup_insert_ne.
      * intros Hna. exfalso. apply Hna. by left.
      * intros v' [[= ->]|Hin]%elem_of_cons; [|by destruct (Hfresh v')].
        exists s, a. split_and!; try done. by apply Hno.
      * intros k' v' [[= -> ->]|Hin]%elem_of_cons; [|by apply Hl].
        intros []; done.
      * intros k' v' [[= -> ->]|Hin]%elem_of_cons; [|by apply Ht].
        intros Hnt. exfalso. apply Hnt. unfold typed_column. tauto.
    + intros (Hdom & Hout & Hno & Ha & Hl & Ht)%IH; [|done].
      assert (Hlm : lm !! k = Some (text_cell v)).
      { rewrite Hout by done. by rewrite lookup_insert_eq. }
      split_and!.
      * rewrite Hdom, dom_insert_L. cbn [fmap list_fmap fst]. set_solver.
      * intros k' Hk'. apply not_elem_of_cons in Hk' as [Hne Hk'].
        rewrite Hout by done. by rewrite lookup_insert_ne.
      * intros Hna. apply Hno. by apply not_elem_of_cons in Hna as [_ ?].
      * intros v' [[= <- ->]|Hin]%elem_of_cons; [done | by apply Ha].
      * intros k' v' [[= -> ->]|Hin]%elem_of_cons; [done | by apply Hl].
      * intros k' v' [[= -> ->]|Hin]%elem_of_cons; [done | by apply Ht].
Qed.

Lemma read_row_loaded row lm addr' :
  NoDup row.*1 ->
  read_row float_of_str ip_address row ∅ None = Ok (lm, addr') ->
  match addr' with
  | Some a => loaded row lm a
  | None => "addr" ∉ row.*1
  end.
Proof.
  intros Hnd (Hdom & Hout & Hno & Ha & Hl & Ht)%read_row_spec; [|done].
  destruct (decide ("addr" ∈ row.*1)) as [Hin|Hnin].
  - apply list_elem_of_fmap in Hin as ([k v] & Hk & Hin). simpl in Hk. subst k.
    destruct (Ha v Hin) as (s & a & -> & Hip & -> & Hlm).
    unfold loaded. split_and!; try done.
    + rewrite Hdom, dom_empty_L. set_solver.
    + by exists s.
  - rewrite (Hno Hnin). done.
Qed.

Lemma read_landmarks_spec lm_file rows : forall rv t,
  Forall (fun row => NoDup row.*1) rows ->
  read_landmarks float_of_str ip_address lm_file rows rv = Ok t ->
  NoDup rv.*1 ->
  exists new, t = rv ++ new /\ NoDup t.*1 /\
              Forall2 (fun row e => loaded row e.2 e.1) rows new.
Proof.
  induction rows as [|row rows IH]; intros rv t Hrows; cbn [read_landmarks].
  - intros [= <-] Hnd. exists []. rewrite app_nil_r. by split_and!.
  - apply Forall_cons in Hrows as [Hrow Hrows].
    destruct (read_row _ _ row ∅ None) as [[xrow addr]|e] eqn:Hread; [|done].
    cbn [mbind result_bind]. apply read_row_loaded in Hread; [|done].
    destruct addr as [a|]; [|done].
    case_decide as Hin.
    { destruct (row_get row "addr") as [[s|]|]; done. }
    intros Hrun Hnd.
    assert (Hnd1 : NoDup (rv ++ [(a, xrow)]).*1).
    { rewrite fmap_app. apply NoDup_app. split_and!; [done | | apply NoDup_singleton].
      intros x Hx ->%list_elem_of_singleton. done. }
    destruct (IH _ _ Hrows Hrun Hnd1) as (new & -> & Hnd' & Hall).
    exists ((a, xrow) :: new). rewrite <- app_assoc in Hnd' |- *.
    split_and!; try done. by constructor.
Qed.

(** A table [load_landmarks] returns has one record per row, in the
    order of the rows, each holding what its row holds and filed under
    the address of its own [addr] column; no address comes twice. *)
Lemma load_landmarks_sound lm_file file t :
  Forall (fun row => NoDup row.*1) (rows file) ->
  load_landmarks float_of_str ip_address lm_file (Some file) = Gives t ->
  NoDup t.*1 /\ Forall filed_under_addr t /\
  Forall2 (fun row e => loaded row e.2 e.1) (rows file) t.
Proof.
  intros Hrows. unfold load_landmarks.
  destruct (negb _); [done|].
  destruct (read_landmarks _ _ _ _ _) as [t'|e] eqn:Hrun; [|done].
  intros [= <-].
  destruct (read_landmarks_spec _ _ _ _ Hrows Hrun) as (new & -> & Hnd & Hall);
    [constructor|].
  simpl in *. split_and!; try done.
  clear -Hall. induction Hall as [|row [a lm] rows new Hl _ IH]; constructor; [|done].
  destruct Hl as (_ & (s & _ & _ & Hlm) & _). done.
Qed.

Lemma read_landmarks_app lm_file rows1 rows2 rv :
  read_landmarks float_of_str ip_address lm_file (rows1 ++ rows2) rv =
  read_landmarks float_of_str ip_address lm_file rows1 rv ≫=
    read_landmarks float_of_str ip_address lm_file rows2.
Proof.
  revert rv. induction rows1 as [|row rows1 IH]; intros rv; [done|].
  cbn [app read_landmarks].
  destruct (read_row _ _ row ∅ None) as [[xrow [a|]]|e]; try done.
  cbn [mbind result_bind]. case_decide; [|apply IH].
  destruct (row_get row "addr") as [[s|]|]; done.
Qed.

(** A row whose address an earlier row has already given stops the
    loading: [SystemExit] with a message that names the address as the
    later row writes it. *)
Theorem load_landmarks_rejects_duplicate lm_file names rows1 row rows2 t1 a lm s :
  load_landmarks float_of_str ip_address lm_file (Some (mkCsvFile names rows1))
    = Gives t1 ->
  load_landmarks float_of_str ip_address lm_file (Some (mkCsvFile names [row]))
    = Gives [(a, lm)] ->
  a ∈ t1.*1 ->
  row_get row "addr" = Some (Some s) ->
  load_landmarks float_of_str ip_address lm_file
    (Some (mkCsvFile names (rows1 ++ row :: rows2)))
  = Throws (Exn (SystemExit (ExitMsg
      (lm_file +:+ ": duplicate entry for landmark " +:+ s)))).
Proof.
  unfold load_landmarks. cbn [fieldnames rows].
  destruct (negb _); [done|].
  destruct (read_landmarks _ _ _ rows1 []) as [t1'|e] eqn:H1; [|done].
  intros [= <-].
  rewrite read_landmarks_app, H1. cbn [mbind result_bind read_landmarks].
  destruct (read_row _ _ row ∅ None) as [[xrow [a'|]]|e]; try done.
  cbn [mbind result_bind]. rewrite decide_False by apply not_elem_of_nil.
  intros [= <- <-] Hin Hs.
  rewrite decide_True by done. by rewrite Hs.
Qed.

Lemma row_cell_unique (row : Row) k v1 v2 :
  NoDup row.*1 -> (k, v1) ∈ row -> (k, v2) ∈ row -> v1 = v2.
Proof.
  induction row as [|[k' v'] row IH]; cbn [fmap list_fmap fst]; intros Hnd H1 H2.
  - by apply elem_of_nil in H1.
  - apply NoDup_cons in Hnd as [Hk Hnd].
    apply elem_of_cons in H1 as [[= -> ->]|H1];
      apply elem_of_cons in H2 as [[= ->]|H2]; try done.
    + exfalso. apply Hk. apply list_elem_of_fmap. by exists (k', v2).
    + subst. exfalso. apply Hk. apply list_elem_of_fmap. by exists (k', v1).
    + by apply IH.
Qed.

(** A row has one reading. *)
Lemma loaded_unique row lm a lm' a' :
  NoDup row.*1 -> loaded row lm a -> loaded row lm' a' -> lm = lm' /\ a = a'.
Proof.
  intros Hnd (Hdom & (s & Hs & Hip & Ha) & Hnum & Htext)
             (Hdom' & (s' & Hs' & Hip' & Ha') & Hnum' & Htext').
  assert (Hsame : Some s = Some s') by by eapply row_cell_unique.
  injection Hsame as <-. rewrite Hip in Hip'. injection Hip' as <-.
  split; [|done]. apply map_eq. intros k.
  destruct (decide (k ∈ row.*1)) as [Hin|Hnin].
  - apply list_elem_of_fmap in Hin as ([k0 v] & Hk & Hin). simpl in Hk. subst k0.
    destruct (decide (k = "longitude" \/ k = "latitude")) as [Hll|Hll].
    + destruct (Hnum k v Hin Hll) as (t & f & -> & Hf & ->).
      destruct (Hnum' k (Some t) Hin Hll) as (t' & f' & [= <-] & Hf' & ->).
      congruence.
    + destruct (decide (k = "addr")) as [->|Haddr]; [congruence|].
      rewrite (Htext k v Hin), (Htext' k v Hin); [done | |];
        unfold typed_column; tauto.
  - assert (lm !! k = None) as ->.
    { apply not_elem_of_dom. rewrite Hdom. by rewrite elem_of_list_to_set. }
    symmetry. apply not_elem_of_dom. rewrite Hdom'. by rewrite elem_of_list_to_set.
Qed.

Lemma read_row_Ok row : forall xrow addr,
  (forall k v, (k, v) ∈ row -> k = "longitude" \/ k = "latitude" ->
     exists s, v = Some s /\ is_Ok (float_of_str s)) ->
  (forall v, ("addr", v) ∈ row -> exists s, v = Some s /\ is_Ok (ip_address s)) ->
  is_Ok (read_row float_of_str ip_address row xrow addr).
Proof.
  induction row as [|[k v] row IH]; intros xrow addr Hnum Haddr; cbn [read_row].
  - apply is_Ok_Ok.
  - assert (Hnum' : forall k v, (k, v) ∈ row -> k = "longitude" \/ k = "latitude" ->
              exists s, v = Some s /\ is_Ok (float_of_str s)).
    { intros k' v' Hin. apply Hnum. by right. }
    assert (Haddr' : forall v, ("addr", v) ∈ row ->
              exists s, v = Some s /\ is_Ok (ip_address s)).
    { intros v' Hin. apply Haddr. by right. }
    destruct (decide (k = "longitude" \/ k = "latitude")) as [Hll|Hll];
      [|destruct (decide (k = "addr")) as [->|Hk]].
    + destruct (Hnum k v) as (s & -> & f & Hf); [by left | done |].
      cbn [float_cell]. rewrite Hf. cbn [mbind result_bind]. by apply IH.
    + destruct (Haddr v) as (s & -> & a & Ha); [by left|].
      cbn [addr_cell]. rewrite Ha. cbn [mbind result_bind]. by apply IH.
    + by apply IH.
Qed.

Lemma read_row_complete row lm a :
  NoDup row.*1 -> loaded row lm a ->
  read_row float_of_str ip_address row ∅ None = Ok (lm, Some a).
Proof.
  intros Hnd Hl. pose proof Hl as (Hdom & (s & Hs & Hip & Ha) & Hnum & Htext).
  destruct (read_row_Ok row ∅ None) as [[lm' addr'] Hread].
  { intros k v Hin Hll. destruct (Hnum k v Hin Hll) as (t & f & -> & Hf & _).
    exists t. split; [done | by exists f]. }
  { intros v Hin. assert (v = Some s) as -> by by eapply row_cell_unique.
    exists s. split; [done | by exists a]. }
  rewrite Hread. pose proof (read_row_loaded _ _ _ Hnd Hread) as Hl'.
  destruct addr' as [a'|].
  - destruct (loaded_unique _ _ _ _ _ Hnd Hl Hl') as [-> ->]. done.
  - exfalso. apply Hl'. apply list_elem_of_fmap. by exists ("addr", Some s).
Qed.

Lemma read_landmarks_complete lm_file rows : forall rv new,
  Forall (fun row => NoDup row.*1) rows ->
  Forall2 (fun row e => loaded row e.2 e.1) rows new ->
  NoDup (rv ++ new).*1 ->
  read_landmarks float_of_str ip_address lm_file rows rv = Ok (rv ++ new).
Proof.
  induction rows as [|row rows IH]; intros rv new Hrows Hall Hnd.
  - apply Forall2_nil_inv_l in Hall as ->. by rewrite app_nil_r.
  - apply Forall2_cons_inv_l in Hall as ([a lm] & new' & Hl & Hall & ->).
    apply Forall_cons in Hrows as [Hrow Hrows]. cbn [fst snd] in Hl.
    cbn [read_landmarks]. rewrite (read_row_complete row lm a Hrow Hl).
    cbn [mbind result_bind].
    rewrite decide_False.
    2:{ rewrite fmap_app in Hnd. apply NoDup_app in Hnd as (_ & Hdisj & _).
        intros Hin. apply (Hdisj a Hin). by left. }
    replace (rv ++ (a, lm) :: new') with ((rv ++ [(a, lm)]) ++ new') in *
      by (by rewrite <- app_assoc).
    by apply IH.
Qed.

(** [load_landmarks] returns a table exactly when the header has the
    columns [longitude], [latitude] and [addr], every row has its
    address and its coordinates and they parse, and no address comes
    twice; the table then has one record per row, in the order of the
    rows, each holding what its row holds and filed under the address of
    its own [addr] column.  In every other case it raises. *)
Theorem load_landmarks_returns_iff lm_file file t :
  Forall (fun row => NoDup row.*1) (rows file) ->
  load_landmarks float_of_str ip_address lm_file (Some file) = Gives t <->
  ("longitude" ∈ default [] (fieldnames file) /\
   "latitude" ∈ default [] (fieldnames file) /\
   "addr" ∈ default [] (fieldnames file)) /\
  NoDup t.*1 /\ Forall filed_under_addr t /\
  Forall2 (fun row e => loaded row e.2 e.1) (rows file) t.
Proof.
  intros Hrows. split.
  - intros Hload.
    destruct (load_landmarks_sound _ _ _ Hrows Hload) as (Hnd & Hfiled & Hall).
    split_and!; try done; unfold load_landmarks in Hload;
      case_bool_decide as Hh; try done; tauto.
  - intros (Hh & Hnd & _ & Hall). unfold load_landmarks.
    rewrite bool_decide_eq_true_2 by done. cbn [negb].
    by rewrite (read_landmarks_complete lm_file (rows file) [] t Hrows Hall Hnd).
Qed.

End WithParsers.

(** *** Loading small files *)

(** Toy readers for running the definitions: ASCII upper case, blanks
    stripped at both ends, a float or an IPv4 address written as a
    natural number in decimal. *)
Definition upper_char (c : Ascii.ascii) : Ascii.ascii :=
  let n := Ascii.nat_of_ascii c in
  if (97 <=? n)%nat && (n <=? 122)%nat then Ascii.ascii_of_nat (n - 32) else c.

Fixpoint ascii_upper (s : string) : string :=
  match s with
  | EmptyString => EmptyString
  | String c s' => String (upper_char c) (ascii_upper s')
  end.

Fixpoint lstrip (s : string) : string :=
  match s with
  | String c s' => if Ascii.eqb c (Ascii.ascii_of_nat 32) then lstrip s' else s
  | EmptyString => EmptyString
  end.

Fixpoint rstrip (s : string) : string :=
  match s with
  | EmptyString => EmptyString
  | String c s' =>
      let r := rstrip s' in
      if Ascii.eqb c (Ascii.ascii_of_nat 32) && String.eqb r EmptyString
      then EmptyString else String c r
  end.

Definition blank_strip (s : string) : string := rstrip (lstrip s).

Fixpoint decimal (s : string) (acc : N) : option N :=
  match s with
  | EmptyString => Some acc
  | String c s' =>
      let n := Ascii.nat_of_ascii c in
      if (48 <=? n)%nat && (n <=? 57)%nat
      then decimal s' (10 * acc + N.of_nat (n - 48))
      else None
  end.

Definition natural (s : string) : option N :=
  match s with EmptyString => None | _ => decimal s 0 end.

Definition float_of_natural (s : string) : result float :=
  match natural s with
  | Some n => Ok (PrimFloat.of_uint63 (Uint63.of_Z (Z.of_N n)))
  | None => Raise (ValueError "could not convert string to float")
  end.

Definition ipv4_of_natural (s : string) : result IpAddress :=
  match natural s with
  | Some n => Ok (IPv4Address n)
  | None => Raise (ValueError "does not appear to be an IPv4 or IPv6 address")
  end.

Definition codes_csv : CsvFile :=
  mkCsvFile (Some ["ISO_A3"; "ISO_A2"; "NAME"])
    [[("ISO_A3", Some "usa"); ("ISO_A2", Some "us"); ("NAME", Some " United States")];
     [("ISO_A3", Some "CAN"); ("ISO_A2", Some "ca "); ("NAME", Some "Canada")]].

Definition codes : CountryInfoTable :=
  [("USA", mkCountryInfo "USA" "US" "United States");
   ("CAN", mkCountryInfo "CAN" "CA" "Canada")].

Definition landmark_row (addr city lon lat : string) : Row :=
  [("addr", Some addr); ("city", Some city); ("longitude", Some lon);
   ("latitude", Some lat)].

Definition landmarks_csv : CsvFile :=
  mkCsvFile (Some ["addr"; "city"; "longitude"; "latitude"])
    [landmark_row "7" "Paris" "2" "48"; landmark_row "3" "Lyon" "4" "45";
     landmark_row "5" "Nice" "7" "43"].

Definition result_row (addr city lon lat can usa : string) : Row :=
  [("addr", Some addr); ("city", Some city); ("longitude", Some lon);
   ("latitude", Some lat); ("CAN", Some can); ("USA", Some usa)].

(** An earlier table: Lyon analyzed, Nice with an empty cell, and a
    landmark that is no longer listed. *)
Definition results_csv : CsvFile :=
  mkCsvFile (Some ["addr"; "city"; "longitude"; "latitude"; "CAN"; "USA"])
    [result_row "3" "Lyon" "4" "45" "5000000" "6000000";
     result_row "5" "Nice" "7" "43" "" "6100000";
     result_row "9" "Oslo" "10" "59" "4000000" "5500000"].

(** The country table: the codes stripped and put in upper case. *)
Lemma load_country_codes_example :
  load_country_codes ascii_upper blank_strip "codes.csv" codes_csv = ([], Gives codes).
Proof. vm_refl. Qed.

(** Two spellings of one name: the later list replaces the earlier one,
    in the place of the earlier one. *)
Lemma load_merge_rules_example :
  load_merge_rules ascii_upper
    [("can", ["can"; "que"]); ("usa", ["usa"]); ("Can", ["can"])]
  = [("CAN", ["CAN"]); ("USA", ["USA"])].
Proof. vm_refl. Qed.

(** The tables the files load to. *)
Definition toy_load := load_landmarks float_of_natural ipv4_of_natural.

Definition loaded_landmark (a : N) (city : string) (lon lat : float)
    : IpAddress * gmap string pyval :=
  (IPv4Address a, <["city" := PStr city]> (landmark_at (IPv4Address a) lon lat)).

Definition toy_new : LandmarksTable :=
  [loaded_landmark 7 "Paris" 2 48; loaded_landmark 3 "Lyon" 4 45;
   loaded_landmark 5 "Nice" 7 43].

Definition loaded_result (a : N) (city : string) (lon lat : float) (can usa : string)
    : IpAddress * gmap string pyval :=
  (IPv4Address a,
   <["USA" := PStr usa]> (<["CAN" := PStr can]> (loaded_landmark a city lon lat).2)).

Definition toy_old : LandmarksTable :=
  [loaded_result 3 "Lyon" 4 45 "5000000" "6000000";
   loaded_result 5 "Nice" 7 43 "" "6100000";
   loaded_result 9 "Oslo" 10 59 "4000000" "5500000"].

Lemma load_landmarks_example :
  toy_load "landmarks.csv" (Some landmarks_csv) = Gives toy_new /\
  toy_load "out/results.csv.gz" (Some results_csv) = Gives toy_old.
Proof. split; vm_refl. Qed.

Lemma load_landmarks_returns_iff_witness :
  toy_load "landmarks.csv" (Some landmarks_csv) = Gives toy_new <->
  ("longitude" ∈ default [] (fieldnames landmarks_csv) /\
   "latitude" ∈ default [] (fieldnames landmarks_csv) /\
   "addr" ∈ default [] (fieldnames landmarks_csv)) /\
  NoDup toy_new.*1 /\ Forall filed_under_addr toy_new /\
  Forall2 (fun row e => loaded float_of_natural ipv4_of_natural row e.2 e.1)
    (rows landmarks_csv) toy_new.
Proof.
  apply (load_landmarks_returns_iff float_of_natural ipv4_of_natural "landmarks.csv"
           landmarks_csv toy_new).
  repeat constructor; apply (bool_decide_unpack _); vm_compute; exact I.
Defined.

Lemma load_landmarks_rejects_duplicate_witness :
  toy_load "landmarks.csv"
    (Some (mkCsvFile (Some ["addr"; "city"; "longitude"; "latitude"])
             ([landmark_row "7" "Paris" "2" "48"; landmark_row "3" "Lyon" "4" "45"]
              ++ landmark_row "07" "Paris" "2" "48" :: [landmark_row "x" "y" "z" "w"])))
  = Throws (Exn (SystemExit (ExitMsg
      ("landmarks.csv" +:+ ": duplicate entry for landmark " +:+ "07")))).
Proof.
  apply (load_landmarks_rejects_duplicate float_of_natural ipv4_of_natural
           "landmarks.csv" (Some ["addr"; "city"; "longitude"; "latitude"])
           [landmark_row "7" "Paris" "2" "48"; landmark_row "3" "Lyon" "4" "45"]
           (landmark_row "07" "Paris" "2" "48") [landmark_row "x" "y" "z" "w"]
           [loaded_landmark 7 "Paris" 2 48; loaded_landmark 3 "Lyon" 4 45]
           (IPv4Address 7) (loaded_landmark 7 "Paris" 2 48).2 "07").
  - vm_refl.
  - vm_refl.
  - apply (bool_decide_unpack _). vm_compute. exact I.
  - reflexivity.
Defined.


End LoadersFacts.

(** ** The command *)

Module Main.
Import Loaders LoadMaps Reconcile Analyze Writer.

(** The parsed command line. *)
Record Args := mkArgs {
  results : Dest;
  landmarks : string;
  countrycodes : string;
  parallel : Z;
  resolution : number
}.

(** What the input files hold when the command starts. *)
Record Files (Raw CRS : Type) := mkFiles {
  rules_doc : list (string * list string);
  countrycodes_file : CsvFile;
  landmarks_file : option CsvFile;
  results_file : option CsvFile;
  map_file : MapFile Raw CRS
}.
Arguments rules_doc {Raw CRS} _.
Arguments countrycodes_file {Raw CRS} _.
Arguments landmarks_file {Raw CRS} _.
Arguments results_file {Raw CRS} _.
Arguments map_file {Raw CRS} _.

(** How the command ends. *)
Inductive ending :=
  | Returns
  | Raises (e : raised)
  | Killed.

Definition ending_of (o : outcome) : ending :=
  match o with
  | Returned => Returns
  | Raised e => Raises (Exn e)
  | Dead => Killed
  end.

Section WithLibraries.
Variables upper strip : string -> string.
Variable float_of_str : string -> result float.
Variable ip_address : string -> result IpAddress.
Variables c_sin c_cos c_asin : float -> float.
(** Shapely and pyproj.  [buffer0] is [buffer(0)] where [load_maps]
    calls it, [buffer0_caught] where [analyze_landmark] calls it inside
    its [try]; [from_crs] and [sh_transform] are the calls of pyproj in
    [analyze_landmark]. *)
Variables Raw Shape CRS : Type.
Variable asShape : Raw -> Shape.
Variable is_valid : Shape -> bool.
Variable unary_union : list Shape -> Shape.
Variable buffer0 : Shape -> Shape.
Variable Transformer : Type.
Variable from_crs : CRS -> float -> float -> result Transformer.
Variable sh_transform : Transformer -> Shape -> result Shape.
Variable buffer0_caught : Shape -> option Shape.
Variable distance : Shape -> float.
Variable intersects : Shape -> bool.
Variable compress : codec -> string -> string.
Variable str_of : pyval -> string.
Variable csv_record : list string -> string.
(** The order in which [imap_unordered] hands back the records it was
    given: the order in which the workers finish. *)
Variable arrival : list (gmap string pyval) -> list (gmap string pyval).

(** Lines 811 to 815: [load_landmarks(args.results)], where a missing
    file counts as an empty table. *)
Definition load_old_landmarks (name : string) (file : option CsvFile)
    : answer LandmarksTable :=
  match load_landmarks float_of_str ip_address name file with
  | Throws (FileNotFoundError _) => Gives []
  | r => r
  end.

(** Lines 842 to 856: the loop over the results of the pool, each worker
    having the [WORKER_DATA] of the parent. *)
Fixpoint analyze_each (WORKER_DATA : option (WorkerData Shape CRS))
    (todo : list (gmap string pyval)) : result (list (gmap string pyval)) :=
  match todo with
  | [] => Ok []
  | lm :: todo' =>
      r ← analyze_landmark Shape CRS Transformer from_crs sh_transform is_valid
            buffer0_caught distance intersects WORKER_DATA lm;
      rs ← analyze_each WORKER_DATA todo';
      Ok (r :: rs)
  end.

(** Lines 830 to 866: the records to write, [None] when the command
    returns early because nothing has changed. *)
Definition analyze_incomplete (args : Args) (files : Files Raw CRS)
    (rules : list (string * list string)) (ccs : CountryInfoTable)
    (old_landmarks new_landmarks : LandmarksTable)
    (lm_complete lm_incomplete : list (gmap string pyval))
    : answer (option (list (gmap string pyval))) :=
  match lm_incomplete with
  | _ :: _ =>
      '(maps, crs) ← of_result
        (load_maps Raw Shape CRS asShape is_valid unary_union buffer0
           (map_file files) rules ccs).2;
      done ← of_result
        (analyze_each (Some (maps, crs, resolution args)) (arrival lm_incomplete));
      Gives (Some (lm_complete ++ done))
  | [] =>
      if bool_decide (old_landmarks.*1 ⊆ new_landmarks.*1 /\
                      new_landmarks.*1 ⊆ old_landmarks.*1)
      then Gives None
      else Gives (Some lm_complete)
  end.

(** [main], from the parsed arguments on: the file system it leaves and
    how it ends.  Progress reports and the lines of the loaders on
    [sys.stderr] are left out. *)
Definition main (args : Args) (files : Files Raw CRS) (ev : event)
    (fs : gmap string file) (randoms : list string) : gmap string file * ending :=
  if (parallel args <? 1)%Z then (fs, Raises (Exn (SystemExit (ExitCode 2))))
  else
    let rules := load_merge_rules upper (rules_doc files) in
    let prepared :=
      ccs ← (load_country_codes upper strip (countrycodes args)
               (countrycodes_file files)).2;
      new_landmarks ← load_landmarks float_of_str ip_address (landmarks args)
                        (landmarks_file files);
      old_landmarks ← load_old_landmarks (dest_name (results args)) (results_file files);
      '(lm_complete, lm_incomplete) ← of_result
        (reconcile_landmarks c_sin c_cos c_asin old_landmarks new_landmarks ccs);
      if negb (length lm_complete + length lm_incomplete =? length new_landmarks)%nat
      then Throws (Exn AssertionError)
      else
        todo ← analyze_incomplete args files rules ccs old_landmarks new_landmarks
                 lm_complete lm_incomplete;
        match todo with
        | None => Gives None
        | Some lm_complete =>
            if negb (length lm_complete =? length new_landmarks)%nat
            then Throws (Exn AssertionError)
            else Gives (Some (lm_complete, ccs))
        end in
    match prepared with
    | Throws e => (fs, Raises e)
    | Gives None => (fs, Returns)
    | Gives (Some (lm_complete, ccs)) =>
        let '(fs', out) :=
          rewrite_results compress str_of csv_record ev fs randoms (results args)
            lm_complete ccs in
        (fs', ending_of out)
    end.

End WithLibraries.

End Main.

(** ** Properties of the command *)

Module MainFacts.
Import Loaders LoadersFacts LoadMaps Reconcile Analyze Writer WriterFacts Main.
Import ReconcileFacts AnalyzeFacts.

(** *** What reconciliation returns *)

Section Reconciled.
Variables c_sin c_cos c_asin : float -> float.

Lemma reconcile_loop_rows old_landmarks isos rows st st' :
  reconcile_loop c_sin c_cos c_asin old_landmarks isos rows st = Ok st' ->
  Forall (fun row => is_Ok (not_same_location c_sin c_cos c_asin row.2 EMPTY_LM)) rows.
Proof.
  revert st. induction rows as [|[addr lm] rows IH]; intros st; cbn [reconcile_loop].
  - constructor.
  - intros (st1 & Hstep & Hrun)%bind_Ok. constructor; [|by eapply IH].
    unfold reconcile_step in Hstep. apply bind_Ok in Hstep as (moved & Hm & _).
    by exists moved.
Qed.

Lemma reconcile_outputs old_landmarks new_landmarks ccs complete incomplete :
  reconcile_landmarks c_sin c_cos c_asin old_landmarks new_landmarks ccs
    = Ok (complete, incomplete) ->
  exists outs,
    outputs_of c_sin c_cos c_asin old_landmarks ccs.*1 new_landmarks outs /\
    complete = (filter (fun o => o.2 = false) outs).*1 /\
    incomplete = (filter (fun o => o.2 = true) outs).*1.
Proof.
  unfold reconcile_landmarks. intros Hrun.
  destruct (reconcile_loop_outputs c_sin c_cos c_asin old_landmarks ccs.*1
              new_landmarks ([], []) (reconcile_loop_rows _ _ _ _ _ Hrun))
    as (outs & Houts & Hrun').
  rewrite Hrun in Hrun'. injection Hrun' as -> ->. by exists outs.
Qed.

Lemma row_output_dom old_landmarks isos row moved :
  dom (row_output old_landmarks isos row moved).1 = dom row.2 ∪ list_to_set isos.
Proof.
  apply set_eq. intros k. unfold row_output.
  rewrite elem_of_union, !elem_of_dom, fill_countries_lookup, elem_of_list_to_set.
  case_decide; [|tauto]. split; [by right | by eexists].
Qed.

Lemma row_output_other old_landmarks isos row moved k :
  k ∉ isos -> (row_output old_landmarks isos row moved).1 !! k = row.2 !! k.
Proof.
  intros Hk. unfold row_output. by rewrite fill_countries_lookup, decide_False.
Qed.

(** A returned record has the keys of its new record and the country
    codes, and under every key that is no country code the value of the
    new record: only country columns are taken from the old table. *)
Definition keeps_new_columns (isos : list string)
    (row : IpAddress * gmap string pyval) (out : gmap string pyval) : Prop :=
  dom out = dom row.2 ∪ list_to_set isos /\
  forall k, k ∉ isos -> out !! k = row.2 !! k.

Theorem reconcile_landmarks_keeps_new_columns
    old_landmarks new_landmarks ccs complete incomplete :
  reconcile_landmarks c_sin c_cos c_asin old_landmarks new_landmarks ccs
    = Ok (complete, incomplete) ->
  exists outs,
    complete ++ incomplete ≡ₚ outs /\
    Forall2 (keeps_new_columns ccs.*1) new_landmarks outs.
Proof.
  intros (outs & Houts & -> & ->)%reconcile_outputs.
  exists outs.*1. split.
  - rewrite <- fmap_app. by rewrite split_by_flag.
  - apply Forall2_fmap_r. eapply Forall2_impl; [exact Houts|].
    intros row out (moved & _ & ->). split.
    + apply row_output_dom.
    + intros k. apply row_output_other.
Qed.

End Reconciled.

(** *** What the analysis returns *)

Section Analyzed.
Variables Shape CRS Transformer : Type.
Variable from_crs : CRS -> float -> float -> result Transformer.
Variable sh_transform : Transformer -> Shape -> result Shape.
Variable is_valid : Shape -> bool.
Variable buffer0_caught : Shape -> option Shape.
Variable distance : Shape -> float.
Variable intersects : Shape -> bool.

Abbreviation analyze :=
  (analyze_landmark Shape CRS Transformer from_crs sh_transform is_valid
     buffer0_caught distance intersects).
Abbreviation analyze_all :=
  (analyze_each Shape CRS is_valid Transformer from_crs sh_transform
     buffer0_caught distance intersects).

Lemma analyze_landmark_same_keys wd lm lm' :
  analyze wd lm = Ok lm' ->
  dom lm' = dom lm /\
  forall k v, lm !! k = Some v -> v <> PNone -> lm' !! k = Some v.
Proof.
  intros (maps & map_crs & res & lon & lat & vlon & vlat & to_aeqd & -> &
          _ & _ & _ & _ & _ & Hloop)%analyze_landmark_inv.
  split.
  - apply set_eq. intros k. rewrite !elem_of_dom.
    destruct (analyze_loop_changes _ _ _ _ _ _ _ _ _ _ _ _ k Hloop)
      as [->|[-> [d ->]]]; [done|]. split; by eexists.
  - intros k v. by eapply analyze_loop_keeps.
Qed.

Lemma analyze_each_Forall2 wd todo finished :
  analyze_all wd todo = Ok finished ->
  Forall2 (fun lm r => analyze wd lm = Ok r) todo finished.
Proof.
  revert finished. induction todo as [|lm todo IH]; intros finished; cbn [analyze_each].
  - intros [= <-]. constructor.
  - intros (r & Hr & H)%bind_Ok. apply bind_Ok in H as (rs & Hrs & [= <-]).
    constructor; [done | by apply IH].
Qed.

Lemma analyze_each_Ok wd todo finished :
  Forall2 (fun lm r => analyze wd lm = Ok r) todo finished ->
  analyze_all wd todo = Ok finished.
Proof.
  induction 1 as [|lm r todo finished Hr _ IH]; cbn [analyze_each]; [done|].
  rewrite Hr. cbn [mbind result_bind]. by rewrite IH.
Qed.

(** The records come back as they were analyzed, whatever the order. *)
Lemma analyze_each_perm wd todo1 todo2 finished1 :
  todo1 ≡ₚ todo2 ->
  analyze_all wd todo1 = Ok finished1 ->
  exists finished2, analyze_all wd todo2 = Ok finished2 /\ finished1 ≡ₚ finished2.
Proof.
  intros Hperm. revert finished1.
  induction Hperm as [|x l1 l2 _ IH|x y l|l1 l2 l3 _ IH1 _ IH2]; intros finished1.
  - intros [= <-]. by exists [].
  - cbn [analyze_each]. intros (r & Hr & H)%bind_Ok.
    apply bind_Ok in H as (rs & Hrs & [= <-]).
    destruct (IH _ Hrs) as (rs2 & -> & Hp). rewrite Hr. cbn [mbind result_bind].
    exists (r :: rs2). split; [done | by constructor].
  - cbn [analyze_each]. intros (ry & Hy & H)%bind_Ok.
    apply bind_Ok in H as (rs & H & [= <-]).
    apply bind_Ok in H as (rx & Hx & H). apply bind_Ok in H as (rl & Hl & [= <-]).
    rewrite Hx, Hy, Hl. cbn [mbind result_bind].
    exists (rx :: ry :: rl). split; [done | apply perm_swap].
  - intros H1. destruct (IH1 _ H1) as (f2 & H2 & Hp12).
    destruct (IH2 _ H2) as (f3 & H3 & Hp23).
    exists f3. split; [done | by etrans].
Qed.

End Analyzed.

(** *** What the writer is handed *)

Section Written.
Variable compress : codec -> string -> string.
Variable str_of : pyval -> string.
Variable csv_record : list string -> string.

(** Records with the keys [keys] and an address of version [ver]. *)
Definition uniform (keys : gset string) (ver : nat) (r : gmap string pyval) : Prop :=
  dom r = keys /\ exists a, r !! "addr" = Some (PAddr a) /\ version a = ver.

Lemma prepare_uniform keys ver results ccs :
  results <> [] ->
  Forall (uniform keys ver) results ->
  "addr" ∈ keys -> "longitude" ∈ keys -> "latitude" ∈ keys ->
  exists rows,
    rows ≡ₚ results /\ Sorted addr_le rows /\
    prepare str_of results ccs = Ok (columns_of keys ccs, rows) /\
    csv_body str_of csv_record (columns_of keys ccs) rows
      = (csv_text str_of csv_record (columns_of keys ccs) rows, None).
Proof.
  intros Hne Hall Ha Hlon Hlat.
  destruct results as [|first rest]; [done|].
  assert (Hfirst : dom first = keys).
  { apply Forall_cons in Hall as [[? _] _]. done. }
  destruct (sort_results_ok ver (first :: rest)) as (rows & Hsort & Hperm & Hsorted).
  { eapply Forall_impl; [exact Hall|]. by intros r [_ ?]. }
  exists rows. split_and!; try done.
  - unfold prepare. rewrite Hfirst.
    rewrite !bool_decide_eq_true_2 by done. cbn [negb].
    rewrite (check_rows_ok str_of keys (first :: rest)).
    2:{ eapply Forall_impl; [exact Hall|]. by intros r [? _]. }
    cbn [mbind result_bind]. by rewrite Hsort.
  - unfold csv_body, csv_text. apply writerows_ok.
    rewrite Hperm. eapply Forall_impl; [exact Hall|].
    intros r [-> _]. apply columns_cover.
Qed.

Lemma addr_le_trans r1 r2 r3 : addr_le r1 r2 -> addr_le r2 r3 -> addr_le r1 r3.
Proof.
  intros (a & b & Ha & Hb & Hab) (b' & c & Hb' & Hc & Hbc).
  rewrite Hb in Hb'. injection Hb' as <-.
  exists a, c. split_and!; [done | done | lia].
Qed.

Lemma same_addr_same_record (l : list (gmap string pyval)) x y :
  NoDup (addr_of <$> l) -> x ∈ l -> y ∈ l -> addr_of x = addr_of y -> x = y.
Proof.
  induction l as [|z l IH]; cbn [fmap list_fmap]; intros Hnd Hx Hy Heq.
  - by apply elem_of_nil in Hx.
  - apply NoDup_cons in Hnd as [Hz Hnd].
    apply elem_of_cons in Hx as [->|Hx]; apply elem_of_cons in Hy as [->|Hy].
    + done.
    + exfalso. apply Hz. rewrite Heq. apply list_elem_of_fmap. by exists y.
    + exfalso. apply Hz. rewrite <- Heq. apply list_elem_of_fmap. by exists x.
    + by apply IH.
Qed.

(** Records with distinct addresses of one version have one ascending
    order. *)
Lemma sorted_rows_unique keys ver results rows1 rows2 :
  Forall (uniform keys ver) results ->
  NoDup (addr_of <$> results) ->
  rows1 ≡ₚ results -> rows2 ≡ₚ results ->
  Sorted addr_le rows1 -> Sorted addr_le rows2 ->
  rows1 = rows2.
Proof.
  intros Hall Hnd Hp1 Hp2 Hs1 Hs2.
  assert (Htrans : Transitive addr_le) by (intros ???; apply addr_le_trans).
  apply (Sorted_unique_strong addr_le); [|done|done|by rewrite Hp1, Hp2].
  intros x y Hx Hy (a & b & Ha & Hb & Hab) (b' & a' & Hb' & Ha' & Hba).
  rewrite Hb in Hb'. injection Hb' as <-. rewrite Ha in Ha'. injection Ha' as <-.
  rewrite Hp1 in Hx. rewrite Hp2 in Hy.
  apply (same_addr_same_record results); [done..|].
  unfold addr_of. rewrite Ha, Hb. do 2 f_equal.
  rewrite Forall_forall in Hall.
  destruct (Hall x Hx) as (_ & a1 & Ha1 & Hv1).
  destruct (Hall y Hy) as (_ & b1 & Hb1 & Hv2).
  rewrite Ha in Ha1. injection Ha1 as <-. rewrite Hb in Hb1. injection Hb1 as <-.
  assert (Hint : ip_int a = ip_int b) by lia.
  destruct a, b; simpl in *; congruence.
Qed.

End Written.

(** *** The whole run *)

Section WithLibraries.
Variables upper strip : string -> string.
Variable float_of_str : string -> result float.
Variable ip_address : string -> result IpAddress.
Variables c_sin c_cos c_asin : float -> float.
Variables Raw Shape CRS : Type.
Variable asShape : Raw -> Shape.
Variable is_valid : Shape -> bool.
Variable unary_union : list Shape -> Shape.
Variable buffer0 : Shape -> Shape.
Variable Transformer : Type.
Variable from_crs : CRS -> float -> float -> result Transformer.
Variable sh_transform : Transformer -> Shape -> result Shape.
Variable buffer0_caught : Shape -> option Shape.
Variable distance : Shape -> float.
Variable intersects : Shape -> bool.
Variable compress : codec -> string -> string.
Variable str_of : pyval -> string.
Variable csv_record : list string -> string.

Abbreviation run arrival :=
  (main upper strip float_of_str ip_address c_sin c_cos c_asin Raw Shape CRS
     asShape is_valid unary_union buffer0 Transformer from_crs sh_transform
     buffer0_caught distance intersects
     compress str_of csv_record arrival).
Abbreviation todo_of arrival :=
  (analyze_incomplete Raw Shape CRS asShape is_valid unary_union buffer0
     Transformer from_crs sh_transform buffer0_caught distance intersects arrival).
Abbreviation load_old := (load_old_landmarks float_of_str ip_address).
Abbreviation write := (rewrite_results compress str_of csv_record).
Abbreviation analyze_with :=
  (analyze_each Shape CRS is_valid Transformer from_crs sh_transform
     buffer0_caught distance intersects).

(** The inputs load and reconcile: the country table is [ccs], the new
    landmarks file has the header [names] on every row and loads to
    [new_landmarks], all its addresses of IP version [ver], the results
    file loads to [old_landmarks] (empty when there is none), and
    reconciliation returns [complete] and [incomplete]. *)
Definition ready (args : Args) (files : Files Raw CRS) (ccs : CountryInfoTable)
    (names : list string) (ver : nat) (old_landmarks new_landmarks : LandmarksTable)
    (complete incomplete : list (gmap string pyval)) : Prop :=
  (1 <= parallel args)%Z /\
  (load_country_codes upper strip (countrycodes args) (countrycodes_file files)).2
    = Gives ccs /\
  ("addr" ∉ ccs.*1) /\
  (exists lines, landmarks_file files = Some (mkCsvFile (Some names) lines) /\
                 Forall (fun row => row.*1 = names) lines) /\
  NoDup names /\
  load_landmarks float_of_str ip_address (landmarks args) (landmarks_file files)
    = Gives new_landmarks /\
  Forall (fun a => version a = ver) new_landmarks.*1 /\
  load_old (dest_name (results args)) (results_file files) = Gives old_landmarks /\
  reconcile_landmarks c_sin c_cos c_asin old_landmarks new_landmarks ccs
    = Ok (complete, incomplete).

(** The keys of every record of the run. *)
Definition keys_of (names : list string) (ccs : CountryInfoTable) : gset string :=
  list_to_set names ∪ list_to_set ccs.*1.

Lemma ready_new args files ccs names ver old_t new_t c i :
  ready args files ccs names ver old_t new_t c i ->
  NoDup new_t.*1 /\
  Forall (fun e => filed_under_addr e /\ dom e.2 = list_to_set names /\
                   version e.1 = ver) new_t /\
  "addr" ∈ names /\ "longitude" ∈ names /\ "latitude" ∈ names.
Proof.
  intros (_ & _ & _ & (lines & Hfile & Hlines) & Hnames & Hnew & Hver & _).
  rewrite Hfile in Hnew.
  assert (Hkeys : Forall (fun row : Row => NoDup row.*1)
                    (rows (mkCsvFile (Some names) lines))).
  { cbn [rows]. eapply Forall_impl; [exact Hlines|]. by intros row ->. }
  destruct (load_landmarks_sound _ _ _ _ _ Hkeys Hnew) as (Hnd & Hfiled & Hall).
  cbn [rows] in Hall.
  split_and!; [done | | | |].
  - apply Forall_forall. intros [a lm] Hin. cbn [fst snd].
    rewrite Forall_forall in Hfiled. split_and!; [by apply Hfiled | |].
    + apply list_elem_of_lookup in Hin as [n Hn].
      destruct (Forall2_lookup_r _ _ _ _ _ Hall Hn) as (row & Hrow & (Hdom & _)).
      cbn [snd] in Hdom. rewrite Hdom.
      rewrite Forall_forall in Hlines. rewrite (Hlines row); [done|].
      by eapply list_elem_of_lookup_2.
    + rewrite Forall_forall in Hver. apply Hver.
      apply list_elem_of_fmap. by exists (a, lm).
  - unfold load_landmarks in Hnew. cbn [fieldnames default] in Hnew.
    case_bool_decide as Hh; [tauto | done].
  - unfold load_landmarks in Hnew. cbn [fieldnames default] in Hnew.
    case_bool_decide as Hh; [tauto | done].
  - unfold load_landmarks in Hnew. cbn [fieldnames default] in Hnew.
    case_bool_decide as Hh; [tauto | done].
Qed.

Lemma ready_outs args files ccs names ver old_t new_t c i :
  ready args files ccs names ver old_t new_t c i ->
  exists outs : list (gmap string pyval * bool),
    c = (filter (fun o => o.2 = false) outs).*1 /\
    i = (filter (fun o => o.2 = true) outs).*1 /\
    Forall (fun o => uniform (keys_of names ccs) ver o.1) outs /\
    addr_of <$> outs.*1 = (fun row => Some (PAddr row.1)) <$> new_t.
Proof.
  intros Hready.
  destruct (ready_new _ _ _ _ _ _ _ _ _ Hready) as (Hnd & Hnew & _).
  destruct Hready as (_ & _ & Haddr & _ & _ & _ & _ & _ & Hrec).
  apply reconcile_outputs in Hrec as (outs & Houts & -> & ->).
  exists outs. split_and!; [done | done | |].
  - clear -Houts Hnew Haddr.
    induction Houts as [|row out rows outs (moved & _ & ->) _ IH]; [constructor|].
    apply Forall_cons in Hnew as [(Hfiled & Hdom & Hver) Hnew].
    constructor; [|by apply IH]. split.
    + rewrite row_output_dom, Hdom. done.
    + exists row.1. split; [|done]. by rewrite row_output_other.
  - apply (outputs_addrs old_t ccs.*1).
    + eapply Forall_impl; [exact Hnew|]. by intros e (? & _).
    + eapply outputs_of_ok; [exact Haddr | exact Houts].
Qed.

(** The analysis, or any other step that keeps the keys and the address
    of a record. *)
Definition same_shape (lm r : gmap string pyval) : Prop :=
  dom r = dom lm /\
  forall k v, lm !! k = Some v -> v <> PNone -> r !! k = Some v.

Lemma same_shape_uniform keys ver todo finished :
  Forall2 same_shape todo finished ->
  Forall (uniform keys ver) todo ->
  Forall (uniform keys ver) finished /\ addr_of <$> finished = addr_of <$> todo.
Proof.
  induction 1 as [|lm r todo finished [Hdom Hkeep] _ IH]; intros Hall; [done|].
  apply Forall_cons in Hall as [[Hk (a & Ha & Hv)] Hall].
  destruct (IH Hall) as [IH1 IH2].
  assert (Hr : r !! "addr" = Some (PAddr a)) by by apply Hkeep.
  split.
  - constructor; [|done]. split; [congruence|]. by exists a.
  - cbn [fmap list_fmap]. unfold addr_of at 1 3. by rewrite Hr, Ha, IH2.
Qed.

Lemma results_shape args files ccs names ver old_t new_t c i todo finished :
  ready args files ccs names ver old_t new_t c i ->
  todo ≡ₚ i ->
  Forall2 same_shape todo finished ->
  Forall (uniform (keys_of names ccs) ver) (c ++ finished) /\
  addr_of <$> (c ++ finished) ≡ₚ (fun row => Some (PAddr row.1)) <$> new_t /\
  NoDup (addr_of <$> (c ++ finished)) /\
  length (c ++ finished) = length new_t /\
  length c + length i = length new_t.
Proof.
  intros Hready Hperm Hshape.
  destruct (ready_new _ _ _ _ _ _ _ _ _ Hready) as (Hnd & _).
  destruct (ready_outs _ _ _ _ _ _ _ _ _ Hready) as (outs & -> & -> & Hall & Haddrs).
  set (c := (filter (fun o => o.2 = false) outs).*1) in *.
  set (i := (filter (fun o => o.2 = true) outs).*1) in *.
  assert (Hci : c ++ i ≡ₚ outs.*1).
  { unfold c, i. rewrite <- fmap_app. by rewrite split_by_flag. }
  assert (Hall' : Forall (uniform (keys_of names ccs) ver) (c ++ i)).
  { rewrite Hci. by apply Forall_fmap. }
  apply Forall_app in Hall' as [Hc Hi].
  destruct (same_shape_uniform (keys_of names ccs) ver _ _ Hshape) as [Hfin Hfa];
    [by rewrite Hperm|].
  assert (Haddr : addr_of <$> (c ++ finished)
                  ≡ₚ (fun row => Some (PAddr row.1)) <$> new_t).
  { rewrite <- Haddrs, <- Hci, !fmap_app, Hfa. by rewrite Hperm. }
  split_and!.
  - by apply Forall_app.
  - done.
  - rewrite Haddr.
    replace ((fun row : IpAddress * gmap string pyval => Some (PAddr row.1)) <$> new_t)
      with ((fun a => Some (PAddr a)) <$> new_t.*1) by (by rewrite <- list_fmap_compose).
    apply NoDup_fmap_2; [|done]. by intros a b [= ->].
  - apply Permutation_length in Haddr. by rewrite !length_fmap in Haddr.
  - apply Permutation_length in Hci. rewrite length_app, length_fmap in Hci.
    rewrite Hci. apply (f_equal length) in Haddrs. by rewrite !length_fmap in Haddrs.
Qed.

Lemma main_steps arrival args files ev fs randoms ccs names ver old_t new_t c i :
  ready args files ccs names ver old_t new_t c i ->
  run arrival args files ev fs randoms =
    match todo_of arrival args files (load_merge_rules upper (rules_doc files))
            ccs old_t new_t c i with
    | Throws e => (fs, Raises e)
    | Gives None => (fs, Returns)
    | Gives (Some r) =>
        if negb (length r =? length new_t)%nat then (fs, Raises (Exn AssertionError))
        else let '(fs', out) := write ev fs randoms (results args) r ccs in
             (fs', ending_of out)
    end.
Proof.
  intros Hready.
  destruct (results_shape _ _ _ _ _ _ _ _ _ i i Hready) as (_ & _ & _ & _ & Hlen).
  { done. }
  { apply Forall2_same_length_lookup_2; [done|]. intros n x y Hx Hy.
    rewrite Hx in Hy. injection Hy as <-. by split. }
  destruct Hready as (Hpar & Hccs & _ & _ & _ & Hnew & _ & Hold & Hrec).
  unfold main.
  replace (parallel args <? 1)%Z with false by (symmetry; apply Z.ltb_ge; lia).
  rewrite Hccs. cbn [mbind answer_bind]. rewrite Hnew. cbn [mbind answer_bind].
  rewrite Hold. cbn [mbind answer_bind]. rewrite Hrec. cbn [of_result mbind answer_bind].
  rewrite Hlen, Nat.eqb_refl. cbn [negb].
  destruct (todo_of _ _ _ _ _ _ _ _ _) as [[r|]|e]; cbn [mbind answer_bind]; try done.
  by destruct (negb _).
Qed.

Lemma write_uniform ev fs randoms results_file results ccs keys ver :
  results <> [] ->
  Forall (uniform keys ver) results ->
  "addr" ∈ keys -> "longitude" ∈ keys -> "latitude" ∈ keys ->
  exists rows,
    rows ≡ₚ results /\ Sorted addr_le rows /\
    write ev fs randoms results_file results ccs
    = atomic_rewrite compress ev fs results_file "wt" randoms
        (csv_text str_of csv_record (columns_of keys ccs) rows, None).
Proof.
  intros Hne Hall Ha Hlon Hlat.
  destruct (prepare_uniform str_of csv_record keys ver results ccs Hne Hall Ha Hlon Hlat)
    as (rows & Hperm & Hsorted & Hprep & Hbody).
  exists rows. split_and!; [done | done |].
  unfold rewrite_results. by rewrite Hprep, Hbody.
Qed.

Lemma keys_of_names names ccs k : k ∈ names -> k ∈ keys_of names ccs.
Proof. unfold keys_of. set_solver. Qed.

(** What the run has to write, once the analysis is through. *)
Lemma todo_finished arrival args files ccs names ver old_t new_t c i
    diags maps crs finished :
  ready args files ccs names ver old_t new_t c i ->
  (forall l, arrival l ≡ₚ l) ->
  (i <> [] ->
   load_maps Raw Shape CRS asShape is_valid unary_union buffer0 (map_file files)
     (load_merge_rules upper (rules_doc files)) ccs = (diags, Ok (maps, crs)) /\
   analyze_with (Some (maps, crs, resolution args)) (arrival i) = Ok finished) ->
  (i = [] -> ~ (old_t.*1 ⊆ new_t.*1 /\ new_t.*1 ⊆ old_t.*1)) ->
  exists results,
    todo_of arrival args files (load_merge_rules upper (rules_doc files))
      ccs old_t new_t c i = Gives (Some results) /\
    (i <> [] -> results = c ++ finished) /\
    Forall (uniform (keys_of names ccs) ver) results /\
    addr_of <$> results ≡ₚ (fun row => Some (PAddr row.1)) <$> new_t /\
    NoDup (addr_of <$> results) /\
    length results = length new_t.
Proof.
  intros Hready Harr Hwork Hchanged. unfold analyze_incomplete.
  destruct i as [|lm i].
  - rewrite bool_decide_eq_false_2 by by apply Hchanged.
    exists c. split_and!; [done | done | ..];
      destruct (results_shape _ _ _ _ _ _ _ _ _ [] [] Hready) as (H1 & H2 & H3 & H4 & _);
      try done; try constructor; by rewrite app_nil_r in *.
  - destruct Hwork as [Hmaps Hfin]; [done|].
    rewrite Hmaps. cbn [snd of_result mbind answer_bind].
    rewrite Hfin. cbn [of_result mbind answer_bind].
    exists (c ++ finished). split_and!; [done | done | ..];
      destruct (results_shape _ _ _ _ _ _ _ _ _ (arrival (lm :: i)) finished Hready)
        as (H1 & H2 & H3 & H4 & _); try done.
    all: try apply Harr.
    all: apply analyze_each_Forall2 in Hfin.
    all: eapply Forall2_impl; [exact Hfin|].
    all: by intros x r ?%analyze_landmark_same_keys.
Qed.

(** When the inputs load, the new file lists a landmark, there is
    something to write (a record is incomplete, or the results file and
    the new file do not list the same addresses: otherwise the run
    returns before it writes) and the map loads and the analysis of
    every incomplete record returns, the run hands [atomic_rewrite] a
    table with exactly one line for every landmark of the new file, in
    ascending order of address, every record with the columns of the new
    file and the country codes: neither of the two length assertions nor
    the check of the keys fails, whatever the order in which the workers
    finish. *)
Theorem main_writes_every_new_landmark arrival args files ev fs randoms
    ccs names ver old_t new_t c i diags maps crs finished :
  ready args files ccs names ver old_t new_t c i ->
  (forall l, arrival l ≡ₚ l) ->
  new_t <> [] ->
  (i <> [] ->
   load_maps Raw Shape CRS asShape is_valid unary_union buffer0 (map_file files)
     (load_merge_rules upper (rules_doc files)) ccs = (diags, Ok (maps, crs)) /\
   analyze_with (Some (maps, crs, resolution args)) (arrival i) = Ok finished) ->
  (i = [] -> ~ (old_t.*1 ⊆ new_t.*1 /\ new_t.*1 ⊆ old_t.*1)) ->
  exists rows,
    Sorted addr_le rows /\
    addr_of <$> rows ≡ₚ (fun row => Some (PAddr row.1)) <$> new_t /\
    Forall (fun r => dom r = keys_of names ccs) rows /\
    main upper strip float_of_str ip_address c_sin c_cos c_asin Raw Shape CRS
      asShape is_valid unary_union buffer0 Transformer from_crs sh_transform
     buffer0_caught distance intersects
      compress str_of csv_record arrival args files ev fs randoms
    = ((atomic_rewrite compress ev fs (results args) "wt" randoms
          (csv_text str_of csv_record (columns_of (keys_of names ccs) ccs) rows,
           None)).1,
       ending_of
         (atomic_rewrite compress ev fs (results args) "wt" randoms
            (csv_text str_of csv_record (columns_of (keys_of names ccs) ccs) rows,
             None)).2).
Proof.
  intros Hready Harr Hne Hwork Hchanged.
  destruct (todo_finished _ _ _ _ _ _ _ _ _ _ _ _ _ _ Hready Harr Hwork Hchanged)
    as (final & Htodo & _ & Hall & Haddrs & _ & Hlen).
  destruct (ready_new _ _ _ _ _ _ _ _ _ Hready) as (_ & _ & Ha & Hlon & Hlat).
  destruct (write_uniform ev fs randoms (results args) final ccs
              (keys_of names ccs) ver) as (rows & Hperm & Hsorted & Hwrite);
    [| done | by apply keys_of_names.. |].
  { intros ->. destruct new_t; done. }
  exists rows. split_and!; [done | by rewrite Hperm | |].
  - rewrite Hperm. eapply Forall_impl; [exact Hall|]. by intros r [? _].
  - rewrite (main_steps _ _ _ _ _ _ _ _ _ _ _ _ _ Hready), Htodo, Hlen, Nat.eqb_refl.
    cbn [negb]. rewrite Hwrite. by destruct (atomic_rewrite _ _ _ _ _ _ _).
Qed.

(** The file written does not depend on the order in which the workers
    finish: two runs that differ only in that order leave the same file
    system and end the same way. *)
Theorem main_ignores_arrival_order arrival1 arrival2 args files ev fs randoms
    ccs names ver old_t new_t c i diags maps crs :
  ready args files ccs names ver old_t new_t c i ->
  (forall l, arrival1 l ≡ₚ l) -> (forall l, arrival2 l ≡ₚ l) ->
  (i <> [] ->
   load_maps Raw Shape CRS asShape is_valid unary_union buffer0 (map_file files)
     (load_merge_rules upper (rules_doc files)) ccs = (diags, Ok (maps, crs)) /\
   Forall (fun lm => is_Ok (analyze_landmark Shape CRS Transformer from_crs
                              sh_transform is_valid buffer0_caught distance intersects
                              (Some (maps, crs, resolution args)) lm)) i) ->
  main upper strip float_of_str ip_address c_sin c_cos c_asin Raw Shape CRS
    asShape is_valid unary_union buffer0 Transformer from_crs sh_transform
     buffer0_caught distance intersects
    compress str_of csv_record arrival1 args files ev fs randoms
  = main upper strip float_of_str ip_address c_sin c_cos c_asin Raw Shape CRS
      asShape is_valid unary_union buffer0 Transformer from_crs sh_transform
     buffer0_caught distance intersects
      compress str_of csv_record arrival2 args files ev fs randoms.
Proof.
  intros Hready Harr1 Harr2 Hwork.
  rewrite !(main_steps _ _ _ _ _ _ _ _ _ _ _ _ _ Hready).
  destruct (decide (i = [])) as [->|Hi]; [done|].
  destruct (Hwork Hi) as [Hmaps Hok].
  assert (Hfin1 : exists f1, analyze_with (Some (maps, crs, resolution args))
                               (arrival1 i) = Ok f1).
  { assert (Hok1 : Forall (fun lm => is_Ok (analyze_landmark Shape CRS Transformer
                      from_crs sh_transform is_valid buffer0_caught distance intersects
                      (Some (maps, crs, resolution args)) lm)) (arrival1 i))
      by by rewrite Harr1.
    clear -Hok1. induction Hok1 as [|lm l [r Hr] _ [rs Hrs]]; [by exists []|].
    exists (r :: rs). cbn [analyze_each]. by rewrite Hr, Hrs. }
  destruct Hfin1 as [f1 Hfin1].
  destruct (analyze_each_perm Shape CRS Transformer from_crs sh_transform is_valid
              buffer0_caught distance intersects (Some (maps, crs, resolution args))
              (arrival1 i) (arrival2 i) f1)
    as (f2 & Hfin2 & Hf12); [by rewrite Harr1, Harr2 | done |].
  assert (Hchanged : i = [] -> ~ (old_t.*1 ⊆ new_t.*1 /\ new_t.*1 ⊆ old_t.*1)) by done.
  destruct (todo_finished arrival1 _ _ _ _ _ _ _ _ _ diags maps crs f1 Hready Harr1)
    as (r1 & Htodo1 & Hr1 & Hall1 & _ & Hnd1 & Hlen1); [done | done |].
  destruct (todo_finished arrival2 _ _ _ _ _ _ _ _ _ diags maps crs f2 Hready Harr2)
    as (r2 & Htodo2 & Hr2 & Hall2 & _ & _ & Hlen2); [done | done |].
  rewrite Htodo1, Htodo2, Hlen1, Hlen2. rewrite (Hr1 Hi) in *. rewrite (Hr2 Hi) in *.
  destruct (ready_new _ _ _ _ _ _ _ _ _ Hready) as (_ & _ & Ha & Hlon & Hlat).
  assert (Hne1 : c ++ f1 <> []).
  { intros Hnil. apply (f_equal length) in Hnil. rewrite Hlen1 in Hnil.
    destruct (results_shape _ _ _ _ _ _ _ _ _ i i Hready) as (_ & _ & _ & _ & Hci);
      [done | | destruct i; simpl in *; [done | lia]].
    apply Forall2_same_length_lookup_2; [done|]. intros n x y Hx Hy.
    rewrite Hx in Hy. injection Hy as <-. by split. }
  assert (Hne2 : c ++ f2 <> []).
  { intros Hnil. apply Hne1. apply Permutation_nil_r.
    rewrite <- Hnil. by rewrite Hf12. }
  destruct (write_uniform ev fs randoms (results args) (c ++ f1) ccs
              (keys_of names ccs) ver) as (rows1 & Hp1 & Hs1 & Hw1);
    [done | done | by apply keys_of_names.. |].
  destruct (write_uniform ev fs randoms (results args) (c ++ f2) ccs
              (keys_of names ccs) ver) as (rows2 & Hp2 & Hs2 & Hw2);
    [done | done | by apply keys_of_names.. |].
  rewrite Hw1, Hw2.
  rewrite (sorted_rows_unique (keys_of names ccs) ver (c ++ f1) rows1 rows2);
    [done | done | done | done | by rewrite Hp2, Hf12 | done | done].
Qed.

(** When every landmark of the new file is complete and the results file
    lists the same addresses, the run returns and leaves the file system
    as it is; the map is not read. *)
Theorem main_no_update_required arrival args files ev fs randoms
    ccs names ver old_t new_t c :
  ready args files ccs names ver old_t new_t c [] ->
  old_t.*1 ⊆ new_t.*1 -> new_t.*1 ⊆ old_t.*1 ->
  main upper strip float_of_str ip_address c_sin c_cos c_asin Raw Shape CRS
    asShape is_valid unary_union buffer0 Transformer from_crs sh_transform
     buffer0_caught distance intersects
    compress str_of csv_record arrival args files ev fs randoms
  = (fs, Returns).
Proof.
  intros Hready H1 H2.
  rewrite (main_steps _ _ _ _ _ _ _ _ _ _ _ _ _ Hready).
  unfold analyze_incomplete. by rewrite bool_decide_eq_true_2.
Qed.

(** A new landmarks file with no row, when the results file still lists
    landmarks: the writer indexes an empty list, the run dies of
    [IndexError] and the results file keeps the landmarks that are
    gone. *)
Theorem main_raises_when_all_landmarks_are_gone arrival args files ev fs randoms
    err ccs old_t :
  (1 <= parallel args)%Z ->
  load_country_codes upper strip (countrycodes args) (countrycodes_file files)
    = (err, Gives ccs) ->
  load_landmarks float_of_str ip_address (landmarks args) (landmarks_file files)
    = Gives [] ->
  load_landmarks float_of_str ip_address (dest_name (results args)) (results_file files)
    = Gives old_t ->
  old_t <> [] ->
  main upper strip float_of_str ip_address c_sin c_cos c_asin Raw Shape CRS
    asShape is_valid unary_union buffer0 Transformer from_crs sh_transform
     buffer0_caught distance intersects
    compress str_of csv_record arrival args files ev fs randoms
  = (fs, Raises (Exn IndexError)).
Proof.
  intros Hpar Hccs Hnew Hold Hne. unfold main.
  replace (parallel args <? 1)%Z with false by (symmetry; apply Z.ltb_ge; lia).
  rewrite Hccs. cbn [snd mbind answer_bind]. rewrite Hnew. cbn [mbind answer_bind].
  unfold load_old_landmarks. rewrite Hold. cbn [mbind answer_bind].
  cbn. rewrite bool_decide_eq_false_2; [done|].
  intros [Hsub _]. destruct old_t as [|[a lm] old_t]; [done|].
  specialize (Hsub a). cbn in Hsub. apply (not_elem_of_nil a), Hsub. by left.
Qed.

Lemma table_get_elem (t : LandmarksTable) a dflt :
  a ∈ t.*1 -> (a, table_get t a dflt) ∈ t.
Proof.
  induction t as [|[b lm] t IH]; cbn [fmap list_fmap fst table_get].
  - by intros ?%elem_of_nil.
  - intros Hin. case_decide as Hb; [subst; by left|].
    apply elem_of_cons in Hin as [->|Hin]; [done|]. right. by apply IH.
Qed.

(** What has been read back from a results file is never computed
    again.  Every cell of the file is read as a string, the empty cell
    of a distance that could not be computed as the empty string, and
    not as [None]: when no landmark is judged to have moved, every new
    landmark whose address the results file lists (with a cell for each
    country) goes to the complete records; its country entries are the
    cells of the row of the results file with that address, as the
    strings they are, and its other entries those of the new record. *)
Theorem reloaded_results_are_not_recomputed
    lm_file file old_t new_t ccs complete incomplete a lm :
  Forall (fun row => NoDup row.*1) (rows file) ->
  load_landmarks float_of_str ip_address lm_file (Some file) = Gives old_t ->
  (forall row iso, row ∈ rows file -> iso ∈ ccs.*1 ->
     ~ typed_column iso /\ exists s, (iso, Some s) ∈ row) ->
  reconcile_landmarks c_sin c_cos c_asin old_t new_t ccs = Ok (complete, incomplete) ->
  Forall (fun row => not_same_location c_sin c_cos c_asin row.2 EMPTY_LM = Ok false)
    new_t ->
  (a, lm) ∈ new_t -> a ∈ old_t.*1 ->
  exists r row, r ∈ complete /\ row ∈ rows file /\
    (exists s, ("addr", Some s) ∈ row /\ ip_address s = Ok a) /\
    (forall k, k ∉ ccs.*1 -> r !! k = lm !! k) /\
    (forall iso, iso ∈ ccs.*1 ->
       exists s, (iso, Some s) ∈ row /\ r !! iso = Some (PStr s)).
Proof.
  intros Hkeys Hload Hcells Hrec Hstay Hin Hold.
  destruct (load_landmarks_sound _ _ _ _ _ Hkeys Hload) as (_ & _ & Hall).
  apply reconcile_outputs in Hrec as (outs & Houts & -> & _).
  apply list_elem_of_lookup in Hin as [n Hn].
  destruct (Forall2_lookup_l _ _ _ _ _ Houts Hn) as (out & Hout & moved & Hm & ->).
  rewrite Forall_forall in Hstay.
  rewrite (Hstay (a, lm)) in Hm by by eapply list_elem_of_lookup_2.
  injection Hm as <-.
  set (old_lm := table_get old_t a EMPTY_LM).
  pose proof (table_get_elem old_t a EMPTY_LM Hold) as Hget. fold old_lm in Hget.
  apply list_elem_of_lookup in Hget as [m Hm].
  destruct (Forall2_lookup_r _ _ _ _ _ Hall Hm)
    as (row & Hrow & (_ & (sa & Hsa & Hpa & _) & _ & Htext)).
  cbn [fst snd] in Hpa, Htext.
  assert (Hrowin : row ∈ rows file) by by eapply list_elem_of_lookup_2.
  assert (Hcell : forall iso, iso ∈ ccs.*1 ->
            exists s, (iso, Some s) ∈ row /\ old_lm !! iso = Some (PStr s)).
  { intros iso Hiso.
    destruct (Hcells row iso Hrowin Hiso) as (Hnt & s & Hs).
    exists s. split; [done|]. by apply (Htext iso (Some s)). }
  exists (row_output old_t ccs.*1 (a, lm) false).1, row. split_and!.
  - apply list_elem_of_fmap. eexists. split; [reflexivity|].
    apply list_elem_of_filter. split; [|by eapply list_elem_of_lookup_2].
    unfold row_output. rewrite fill_countries_flag. cbn [fst].
    apply not_true_is_false. intros (iso & Hiso & Hnone)%existsb_exists.
    apply list_elem_of_In in Hiso. destruct (Hcell iso Hiso) as (s & _ & Hs).
    unfold get_or_None in Hnone. fold old_lm in Hnone. by rewrite Hs in Hnone.
  - done.
  - by exists sa.
  - intros k Hk. by rewrite row_output_other.
  - intros iso Hiso. destruct (Hcell iso Hiso) as (s & Hrs & Hs). exists s.
    split; [done|].
    unfold row_output. cbn [fst snd]. rewrite fill_countries_lookup, decide_True by done.
    unfold get_or_None. fold old_lm. by rewrite Hs.
Qed.

End WithLibraries.

(** *** A run on small files *)

(** One shape type for the map and the analysis: the plots of
    [AnalyzeFacts], a union being its first part. *)
Definition plot_union (parts : list plot) : plot := default Broken (head parts).
Definition plot_mend (p : plot) : plot := default p (plot_buffer0 p).

Definition toy_main arrival :=
  main ascii_upper blank_strip float_of_natural ipv4_of_natural
    small_sin small_cos small_asin plot plot unit (fun p => p) plot_is_valid
    plot_union plot_mend unit plot_from_crs plot_sh_transform plot_buffer0
    plot_distance plot_intersects bracket show_val show_record arrival.

Definition world_map : MapFile plot unit :=
  Opened plot unit tt
    [mkFeature plot "USA" "USA" (Away 6000003.2); mkFeature plot "CAN" "CAN" (Away 100003.7);
     mkFeature plot "QUE" "CAN" (Away 200000)]
    None.

Definition toy_files (old : option CsvFile) (new : CsvFile) : Files plot unit :=
  mkFiles plot unit [("can", ["can"; "que"])] codes_csv (Some new) old world_map.

Definition toy_args : Args := mkArgs results_gz "landmarks.csv" "codes.csv" 2 (NInt 10).


(** Reconciled: Lyon and Nice are taken over from the earlier table, the
    empty cell of Nice with them; Paris is new. *)
Definition taken_over (e : IpAddress * gmap string pyval) : gmap string pyval := e.2.

Definition toy_complete : list (gmap string pyval) :=
  [taken_over (loaded_result 3 "Lyon" 4 45 "5000000" "6000000");
   taken_over (loaded_result 5 "Nice" 7 43 "" "6100000")].

Definition toy_incomplete : list (gmap string pyval) :=
  [<["CAN" := PNone]> (<["USA" := PNone]> (loaded_landmark 7 "Paris" 2 48).2)].

Lemma reconcile_landmarks_example :
  reconcile_landmarks small_sin small_cos small_asin toy_old toy_new codes
  = Ok (toy_complete, toy_incomplete).
Proof. vm_refl. Qed.

Lemma reconcile_landmarks_keeps_new_columns_witness :
  exists outs,
    toy_complete ++ toy_incomplete ≡ₚ outs /\
    Forall2 (keeps_new_columns codes.*1) toy_new outs.
Proof.
  apply (reconcile_landmarks_keeps_new_columns small_sin small_cos small_asin
           toy_old toy_new codes toy_complete toy_incomplete).
  vm_refl.
Defined.

Lemma reloaded_results_are_not_recomputed_witness :
  exists r row, r ∈ toy_complete /\ row ∈ rows results_csv /\
    (exists s, ("addr", Some s) ∈ row /\ ipv4_of_natural s = Ok (IPv4Address 5)) /\
    (forall k, k ∉ codes.*1 -> r !! k = (loaded_landmark 5 "Nice" 7 43).2 !! k) /\
    (forall iso, iso ∈ codes.*1 ->
       exists s, (iso, Some s) ∈ row /\ r !! iso = Some (PStr s)).
Proof.
  apply (reloaded_results_are_not_recomputed float_of_natural ipv4_of_natural
           small_sin small_cos small_asin "out/results.csv.gz" results_csv
           toy_old toy_new codes toy_complete toy_incomplete
           (IPv4Address 5)).
  - repeat constructor; apply (bool_decide_unpack _); vm_compute; exact I.
  - vm_refl.
  - intros row iso Hrow Hiso.
    apply list_elem_of_In in Hrow. apply list_elem_of_In in Hiso.
    simpl in Hrow, Hiso.
    destruct Hiso as [<-|[<-|[]]];
      (split; [by intros [|[|]] |]);
      destruct Hrow as [<-|[<-|[<-|[]]]]; eexists; apply list_elem_of_In; simpl; tauto.
  - vm_refl.
  - repeat constructor.
  - apply list_elem_of_In. simpl. tauto.
  - apply (bool_decide_unpack _). vm_compute. exact I.
Defined.


(** The whole command on these files. *)
Definition analyzed (e : IpAddress * gmap string pyval) (can usa : Z)
    : gmap string pyval :=
  <["CAN" := PNum (NInt can)]> (<["USA" := PNum (NInt usa)]> e.2).

Definition unknown (e : IpAddress * gmap string pyval) : gmap string pyval :=
  <["CAN" := PNone]> (<["USA" := PNone]> e.2).

Definition toy_maps : list (string * plot) :=
  [("CAN", Away 100003.7); ("USA", Away 6000003.2)].

Definition toy_names : list string := ["addr"; "city"; "longitude"; "latitude"].

Ltac solve_ready :=
  unfold ready; split_and!;
  [ done
  | vm_refl
  | apply (bool_decide_unpack _); vm_compute; exact I
  | eexists; split; [reflexivity | repeat constructor]
  | apply (bool_decide_unpack _); vm_compute; exact I
  | vm_refl
  | repeat constructor
  | vm_refl
  | vm_refl ].

Lemma main_writes_every_new_landmark_witness :
  exists rows,
    Sorted addr_le rows /\
    addr_of <$> rows ≡ₚ (fun row => Some (PAddr row.1)) <$> toy_new /\
    Forall (fun r => dom r = keys_of toy_names codes) rows /\
    toy_main reverse toy_args (toy_files (Some results_csv) landmarks_csv)
      Undisturbed disk ["k3x"]
    = ((atomic_rewrite bracket Undisturbed disk results_gz "wt" ["k3x"]
          (csv_text show_val show_record
             (columns_of (keys_of toy_names codes) codes) rows, None)).1,
       ending_of
         (atomic_rewrite bracket Undisturbed disk results_gz "wt" ["k3x"]
            (csv_text show_val show_record
               (columns_of (keys_of toy_names codes) codes) rows, None)).2).
Proof.
  apply (main_writes_every_new_landmark ascii_upper blank_strip float_of_natural
           ipv4_of_natural small_sin small_cos small_asin plot plot unit
           (fun p => p) plot_is_valid plot_union plot_mend unit plot_from_crs
           plot_sh_transform plot_buffer0
           plot_distance plot_intersects bracket show_val show_record
           reverse toy_args (toy_files (Some results_csv) landmarks_csv)
           Undisturbed disk ["k3x"] codes toy_names 4 toy_old toy_new
           toy_complete toy_incomplete [] toy_maps tt
           [analyzed (loaded_landmark 7 "Paris" 2 48) 100000 6000000]).
  - solve_ready.
  - intros l. apply reverse_Permutation.
  - discriminate.
  - intros _. split; vm_refl.
  - discriminate.
Defined.

Lemma main_ignores_arrival_order_witness :
  toy_main reverse toy_args (toy_files None landmarks_csv) (IOFails 2) disk ["k3x"]
  = toy_main (fun l => l) toy_args (toy_files None landmarks_csv) (IOFails 2) disk
      ["k3x"].
Proof.
  apply (main_ignores_arrival_order ascii_upper blank_strip float_of_natural
           ipv4_of_natural small_sin small_cos small_asin plot plot unit
           (fun p => p) plot_is_valid plot_union plot_mend unit plot_from_crs
           plot_sh_transform plot_buffer0
           plot_distance plot_intersects bracket show_val show_record
           reverse (fun l => l) toy_args (toy_files None landmarks_csv)
           (IOFails 2) disk ["k3x"] codes toy_names 4 [] toy_new
           [] (unknown <$> toy_new) [] toy_maps tt).
  - solve_ready.
  - intros l. apply reverse_Permutation.
  - done.
  - intros _. split; [vm_refl|].
    repeat apply Forall_cons_2; [| | | apply Forall_nil_2].
    + exists (analyzed (loaded_landmark 7 "Paris" 2 48) 100000 6000000). vm_refl.
    + exists (analyzed (loaded_landmark 3 "Lyon" 4 45) 100000 6000000). vm_refl.
    + exists (analyzed (loaded_landmark 5 "Nice" 7 43) 100000 6000000). vm_refl.
Defined.

(** An earlier table that lists the three landmarks, all analyzed. *)
Definition finished_csv : CsvFile :=
  mkCsvFile (Some ["addr"; "city"; "longitude"; "latitude"; "CAN"; "USA"])
    [result_row "3" "Lyon" "4" "45" "5000000" "6000000";
     result_row "5" "Nice" "7" "43" "" "6100000";
     result_row "7" "Paris" "2" "48" "100000" "6000000"].

Definition finished_landmarks : LandmarksTable :=
  [loaded_result 3 "Lyon" 4 45 "5000000" "6000000";
   loaded_result 5 "Nice" 7 43 "" "6100000";
   loaded_result 7 "Paris" 2 48 "100000" "6000000"].

Lemma main_no_update_required_witness :
  toy_main reverse toy_args (toy_files (Some finished_csv) landmarks_csv)
    Undisturbed disk ["k3x"]
  = (disk, Returns).
Proof.
  apply (main_no_update_required ascii_upper blank_strip float_of_natural
           ipv4_of_natural small_sin small_cos small_asin plot plot unit
           (fun p => p) plot_is_valid plot_union plot_mend unit plot_from_crs
           plot_sh_transform plot_buffer0
           plot_distance plot_intersects bracket show_val show_record
           reverse toy_args (toy_files (Some finished_csv) landmarks_csv)
           Undisturbed disk ["k3x"] codes toy_names 4 finished_landmarks toy_new
           [taken_over (loaded_result 7 "Paris" 2 48 "100000" "6000000");
            taken_over (loaded_result 3 "Lyon" 4 45 "5000000" "6000000");
            taken_over (loaded_result 5 "Nice" 7 43 "" "6100000")]).
  - solve_ready.
  - apply (bool_decide_unpack _). vm_compute. exact I.
  - apply (bool_decide_unpack _). vm_compute. exact I.
Defined.

Lemma main_raises_when_all_landmarks_are_gone_witness :
  toy_main reverse toy_args
    (toy_files (Some results_csv) (mkCsvFile (Some toy_names) []))
    Undisturbed disk ["k3x"]
  = (disk, Raises (Exn IndexError)).
Proof.
  apply (main_raises_when_all_landmarks_are_gone ascii_upper blank_strip
           float_of_natural ipv4_of_natural small_sin small_cos small_asin plot plot
           unit (fun p => p) plot_is_valid plot_union plot_mend unit plot_from_crs
           plot_sh_transform
           plot_buffer0 plot_distance plot_intersects bracket show_val show_record
           reverse toy_args
           (toy_files (Some results_csv) (mkCsvFile (Some toy_names) []))
           Undisturbed disk ["k3x"] [] codes toy_old).
  - done.
  - vm_refl.
  - vm_refl.
  - vm_refl.
  - discriminate.
Defined.

(** The table the run writes over the earlier one: Paris computed, the
    empty cell of Nice as it was, Oslo dropped. *)
Lemma main_example :
  toy_main reverse toy_args (toy_files (Some results_csv) landmarks_csv)
    Undisturbed disk ["k3x"]
  = ({[ "out/results.csv.gz" :=
          mkFile ("gz(addr,city,longitude,latitude,CAN,USA" +:+ nl +:+
                  "v4:3,Lyon,4,45,5000000,6000000" +:+ nl +:+
                  "v4:5,Nice,7,43,,6100000" +:+ nl +:+
                  "v4:7,Paris,2,48,100000,6000000" +:+ nl +:+ ")") true ]},
     Returns).
Proof. vm_refl. Qed.


End MainFacts.
